(** * grants-stack-indexer: event handler, project identity and price chunks

    A shallow embedding of
    - the price updater ([createPriceUpdater]): its utility [chunkTimeBy],
      and [update] with [appendPrices],
    - [src/handleEvent.ts]: [fullProjectId], [handleEvent] and the helpers
      [cachedIpfs] and [convertToUSD], with the calls they make into ethers
      (Keccak-256, Solidity packed encoding, [BigNumber]) and chainsauce
      (storage, cache, subscriptions),
    - the role table that [src/indexer/allo/v1/handleEvent.test.ts]
      exercises,
    - the passport provider of [src/passport/index.ts],
    followed by the properties of the specification that concern them. *)

From Stdlib Require Import ZArith QArith_base Lia List Bool Ascii String.
From stdpp Require Import base tactics option list strings gmap pretty.

Local Open Scope string_scope.
Local Open Scope Z_scope.

Local Set Warnings "-register-all".

(* ===================================================================== *)
(** ** Price updater: [chunkTimeBy]                                       *)
(* ===================================================================== *)

Module Prices.

(** The body of
    [for (let i = 0; i < millis; i += chunkBy) chunks.push([i, min(i + chunkBy, millis)])].
    The loop does not terminate for [chunkBy <= 0 < millis], so the
    iteration count is bounded by [fuel]; [None] means the bound was hit. *)
Fixpoint chunkLoop (fuel : nat) (millis chunkBy i : Z) (chunks : list (Z * Z))
  : option (list (Z * Z)) :=
  if i <? millis then
    match fuel with
    | O => None
    | S fuel' =>
        let chunkEndTime := Z.min (i + chunkBy) millis in
        chunkLoop fuel' millis chunkBy (i + chunkBy) (chunks ++ [(i, chunkEndTime)])
    end
  else Some chunks.

Definition chunkTimeBy (fuel : nat) (millis chunkBy : Z) : option (list (Z * Z)) :=
  chunkLoop fuel millis chunkBy 0 [].

(** Closed form of the chunks pushed from start [i] on: [n] of them. *)
Fixpoint chunksFrom (n : nat) (millis chunkBy i : Z) : list (Z * Z) :=
  match n with
  | O => []
  | S n' => (i, Z.min (i + chunkBy) millis) :: chunksFrom n' millis chunkBy (i + chunkBy)
  end.

(** Number of iterations the loop makes from start [i]. *)
Definition iterations (millis chunkBy i : Z) : nat :=
  Z.to_nat ((millis - i + chunkBy - 1) / chunkBy).

(** Consecutive intervals: each start is the previous start plus [chunkBy]
    and equals the previous end. *)
Definition abut (chunkBy : Z) (chunks : list (Z * Z)) : Prop :=
  forall (k : nat) (a b a' b' : Z),
    chunks !! k = Some (a, b) ->
    chunks !! S k = Some (a', b') ->
    a' = a + chunkBy /\ a' = b.

(** Every interval is [[i, min (i + chunkBy) millis]], not empty and at most
    [chunkBy] long. *)
Definition well_shaped (millis chunkBy : Z) (chunks : list (Z * Z)) : Prop :=
  forall a b, In (a, b) chunks ->
    b = Z.min (a + chunkBy) millis /\ 0 <= a < b /\ b - a <= chunkBy.

End Prices.

(* ===================================================================== *)
(** ** Keccak-256 and Solidity packed encoding (ethers.utils)             *)
(* ===================================================================== *)

Module Keccak.

(** Lanes are 64-bit words, kept as [Z] in [[0, 2^64)]. *)
Definition w64 : Z := 2 ^ 64.

Definition rotl64 (x : Z) (n : Z) : Z :=
  Z.lor (Z.shiftl x n mod w64) (Z.shiftr x (64 - n)).

Definition not64 (x : Z) : Z := Z.lxor x (w64 - 1).

(** The state is 25 lanes, lane [(x, y)] at index [x + 5 * y]. *)
Definition lane (st : list Z) (x y : nat) : Z :=
  nth ((x mod 5) + 5 * (y mod 5)) st 0.

Definition roundConstants : list Z :=
  [ 0x0000000000000001; 0x0000000000008082; 0x800000000000808A;
    0x8000000080008000; 0x000000000000808B; 0x0000000080000001;
    0x8000000080008081; 0x8000000000008009; 0x000000000000008A;
    0x0000000000000088; 0x0000000080008009; 0x000000008000000A;
    0x000000008000808B; 0x800000000000008B; 0x8000000000008089;
    0x8000000000008003; 0x8000000000008002; 0x8000000000000080;
    0x000000000000800A; 0x800000008000000A; 0x8000000080008081;
    0x8000000000008080; 0x0000000080000001; 0x8000000080008008 ].

(** Rotation offsets, at index [x + 5 * y]. *)
Definition rotationOffsets : list Z :=
  [  0;  1; 62; 28; 27;
    36; 44;  6; 55; 20;
     3; 10; 43; 25; 39;
    41; 45; 15; 21;  8;
    18;  2; 61; 56; 14 ].

Definition coords : list (nat * nat) :=
  flat_map (fun y => map (fun x => (x, y)) (seq 0 5)) (seq 0 5).

Definition theta (st : list Z) : list Z :=
  let C := map (fun x => fold_left Z.lxor (map (fun y => lane st x y) (seq 0 5)) 0) (seq 0 5) in
  let D := map (fun x => Z.lxor (nth ((x + 4) mod 5) C 0)
                                (rotl64 (nth ((x + 1) mod 5) C 0) 1)) (seq 0 5) in
  map (fun '(x, y) => Z.lxor (lane st x y) (nth x D 0)) coords.

(** [B[y, 2x + 3y] = rot(A[x, y], r[x, y])], read backwards: the lane that
    lands on [(X, Y)] comes from [x = (X + 3 * Y) mod 5], [y = X]. *)
Definition rhoPi (st : list Z) : list Z :=
  map (fun '(X, Y) =>
         let x := ((X + 3 * Y) mod 5)%nat in
         let y := X in
         rotl64 (lane st x y) (nth (x + 5 * y)%nat rotationOffsets 0)) coords.

Definition chi (st : list Z) : list Z :=
  map (fun '(x, y) =>
         Z.lxor (lane st x y)
                (Z.land (not64 (lane st (x + 1)%nat y)) (lane st (x + 2)%nat y))) coords.

Definition iota (rc : Z) (st : list Z) : list Z :=
  match st with
  | a :: rest => Z.lxor a rc :: rest
  | [] => []
  end.

Definition keccakRound (st : list Z) (rc : Z) : list Z :=
  iota rc (chi (rhoPi (theta st))).

Definition keccakF (st : list Z) : list Z :=
  fold_left keccakRound roundConstants st.

(** Little-endian lanes of a block of bytes (each byte a [Z] below 256). *)
Fixpoint laneOfBytes (bs : list Z) : Z :=
  match bs with
  | [] => 0
  | b :: rest => b + 256 * laneOfBytes rest
  end.

Fixpoint lanesOfBytes (n : nat) (bs : list Z) : list Z :=
  match n with
  | O => []
  | S n' => laneOfBytes (firstn 8 bs) :: lanesOfBytes n' (skipn 8 bs)
  end.

Fixpoint bytesOfLane (n : nat) (l : Z) : list Z :=
  match n with
  | O => []
  | S n' => l mod 256 :: bytesOfLane n' (l / 256)
  end.

Definition rateBytes : nat := 136.

(** Keccak padding (domain byte 0x01, final bit 0x80) up to a multiple of the
    rate. *)
Definition pad (msg : list Z) : list Z :=
  let q := (rateBytes - (length msg mod rateBytes))%nat in
  match q with
  | 1%nat => msg ++ [0x81]
  | _ => msg ++ [0x01] ++ repeat 0 (q - 2) ++ [0x80]
  end.

Definition xorBlock (st : list Z) (block : list Z) : list Z :=
  map (fun '(i, l) => Z.lxor l (nth i (lanesOfBytes 17 block) 0))
      (combine (seq 0 25) st).

(** Absorb the padded message block by block; [blocks] bounds the number of
    blocks and is set to the exact count by [keccak256]. *)
Fixpoint absorb (blocks : nat) (st : list Z) (bs : list Z) : list Z :=
  match blocks with
  | O => st
  | S n => absorb n (keccakF (xorBlock st (firstn rateBytes bs))) (skipn rateBytes bs)
  end.

Definition keccak256 (msg : list Z) : list Z :=
  let p := pad msg in
  let st := absorb (length p / rateBytes) (repeat 0 25) p in
  flat_map (bytesOfLane 8) (firstn 4 st).

(** *** Hex strings *)

Definition hexDigit (n : Z) : ascii :=
  nth (Z.to_nat n)
      ["0"; "1"; "2"; "3"; "4"; "5"; "6"; "7"; "8"; "9";
       "a"; "b"; "c"; "d"; "e"; "f"]%char "0"%char.

Fixpoint hexOfBytes (bs : list Z) : string :=
  match bs with
  | [] => EmptyString
  | b :: rest => String (hexDigit (b / 16)) (String (hexDigit (b mod 16)) (hexOfBytes rest))
  end.

(** [ethers.utils.hexlify]: ["0x"] and two lower-case digits per byte. *)
Definition hexlify (bs : list Z) : string := "0x" ++ hexOfBytes bs.

Definition hexValue (c : ascii) : option Z :=
  let n := Z.of_nat (nat_of_ascii c) in
  if (48 <=? n) && (n <=? 57) then Some (n - 48)
  else if (97 <=? n) && (n <=? 102) then Some (n - 87)
  else if (65 <=? n) && (n <=? 70) then Some (n - 55)
  else None.

Fixpoint bytesOfHex (s : string) : option (list Z) :=
  match s with
  | EmptyString => Some []
  | String hi (String lo rest) =>
      match hexValue hi, hexValue lo, bytesOfHex rest with
      | Some h, Some l, Some bs => Some (16 * h + l :: bs)
      | _, _, _ => None
      end
  | String _ EmptyString => None
  end.

(** [ethers.utils.arrayify] on a string: it must be ["0x"] followed by an even
    number of hex digits, otherwise the call throws ([None]). *)
Definition arrayify (s : string) : option (list Z) :=
  match s with
  | String "0" (String "x" rest) => bytesOfHex rest
  | _ => None
  end.

(** Big-endian bytes of a [uint256]: [BigNumber.from(v).toTwos(256)] padded to
    32 bytes. *)
Definition packUint256 (v : Z) : list Z :=
  rev (bytesOfLane 32 (v mod 2 ^ 256)).

(** UTF-8 bytes of a string (the strings here are ASCII). *)
Definition toUtf8Bytes (s : string) : list Z :=
  map (fun c => Z.of_nat (nat_of_ascii c)) (list_ascii_of_string s).

End Keccak.

(* ===================================================================== *)
(** ** The event handler of [src/handleEvent.ts]                          *)
(* ===================================================================== *)

Module Indexer.

(** *** Values *)

(** JSON documents as IPFS and the cache hold them. A JS [number] is kept as
    a rational: rounding of doubles is not modelled. In an object the last
    binding of a key wins, as with [JSON.parse]. *)
Inductive Json : Type :=
| JNull
| JBool (b : bool)
| JNum (q : Q)
| JStr (s : string)
| JArr (items : list Json)
| JObj (fields : list (string * Json)).

Definition field (k : string) (j : Json) : option Json :=
  match j with
  | JObj fields => snd <$> find (fun kv => String.eqb (fst kv) k) (rev fields)
  | _ => None
  end.

Record MetaPtr := { protocol : Z; pointer : string }.

(** Decoded event parameters ([event.args]). *)
Inductive Value : Type :=
| VBigNumber (z : Z)
| VString (s : string)
| VMetaPtr (p : MetaPtr).

Record Event := {
  name : string;
  address : string;
  blockNumber : Z;
  transactionHash : string;
  args : gmap string Value
}.

(** *** Documents of the collections *)

Module Project.
Record t := mk {
  fullId : string;
  id : Z;
  metaPtr : option string;
  metadata : option Json;
  votesUSD : Q;
  votes : Z;
  owners : list string
}.
End Project.

Module Round.
Record t := mk {
  id : string;
  votesUSD : Q;
  votes : Z;
  implementationAddress : string;
  applicationMetaPtr : MetaPtr;
  applicationMetadata : Json;
  (* the four times are stored as the decimal strings of these integers *)
  applicationsStartTime : Z;
  applicationsEndTime : Z;
  roundStartTime : Z;
  roundEndTime : Z
}.
End Round.

Module Application.
(** [None] is an absent field ([undefined]), [Some JNull] is [null]. *)
Record t := mk {
  id : string;
  projectId : option Z;
  roundId : string;
  status : option Json;
  payoutAddress : option Json
}.
End Application.

Module Vote.
Record t := mk {
  id : string;
  token : string;
  voter : string;
  grantAddress : string;
  amount : Z;                 (* [amount.toString()] *)
  amountUSD : option Q;       (* [None] is [NaN] *)
  fullProjectId : string;
  roundAddress : string;
  projectApplicationId : string
}.
End Vote.

(** *** Storage ([JsonStorage] of chainsauce)

    The library is not part of the sources. A collection is the list of its
    documents in insertion order; [insert] appends, [findById] and
    [updateById] act on the first document with the id, [findOneWhere] on the
    first document that satisfies the predicate. *)

Record Db := {
  projects : list Project.t;                   (* "projects" *)
  rounds : list Round.t;                       (* "rounds" *)
  applications : gmap string (list Application.t); (* "rounds/<a>/projects" *)
  votes : gmap string (list Vote.t)            (* "rounds/<a>/votes", "rounds/<a>/projects/<p>/votes" *)
}.

Section Collection.
Context {T I : Type} `{EqDecision I} (getId : T -> I).

Definition findById (i : I) (docs : list T) : option T :=
  find (fun d => bool_decide (getId d = i)) docs.

Definition findOneWhere (p : T -> bool) (docs : list T) : option T :=
  find p docs.

(** The updated document and the new contents, or [None] when no document
    has the id. *)
Fixpoint updateById (i : I) (f : T -> T) (docs : list T) : option (T * list T) :=
  match docs with
  | [] => None
  | d :: rest =>
      if bool_decide (getId d = i) then Some (f d, f d :: rest)
      else match updateById i f rest with
           | Some (d', rest') => Some (d', d :: rest')
           | None => None
           end
  end.
End Collection.

(** The storage calls a handler makes, in order (a journal kept beside the
    state; the source has no such field). *)
Inductive Doc : Type :=
| DProject (p : Project.t)
| DRound (r : Round.t)
| DApplication (a : Application.t)
| DVote (v : Vote.t).

Inductive Write : Type :=
| Insert (collection : string) (doc : Doc)
| Update (collection : string) (doc : Doc).

Record Subscription := {
  sub_address : string;
  sub_abi : string;
  sub_fromBlock : Z
}.

Record State := {
  storage : Db;
  cache : gmap string Json;
  subscriptions : list Subscription;
  journal : list Write
}.

(** *** Read snapshot: what the outside world answers

    [None] is a rejected promise. [updateByIdRejects] says whether
    [updateById] rejects when no document has the id (the handler's
    [catch] clause around it reports "Project not found") or resolves to
    [undefined]; chainsauce is not among the sources, so both are covered. *)
Record Snapshot := {
  ipfs : string -> option Json;
  readApplicationMetaPtr : string -> option MetaPtr;
  readApplicationsStartTime : string -> option Z;
  readApplicationsEndTime : string -> option Z;
  readRoundStartTime : string -> option Z;
  readRoundEndTime : string -> option Z;
  getPrice : string -> Z -> Z -> Z -> option Q;
  updateByIdRejects : bool
}.

(** *** Exceptions and the handler monad *)

Inductive Error : Type :=
| ContentFetchFailure (cid : string)
| ExternalReadFailure (contract function : string)
| PriceFetchFailure (token : string)
| DocumentNotFound (collection : string)
| NumericOverflow
| InvalidArgument
| TypeError.

(** A computation runs from a state to a state and either a value or a thrown
    exception; what was written before a throw stays written. *)
Definition M (A : Type) : Type := State -> State * (Error + A).

Definition ret {A} (a : A) : M A := fun st => (st, inr a).
Definition throw {A} (e : Error) : M A := fun st => (st, inl e).
Definition bind {A B} (m : M A) (k : A -> M B) : M B :=
  fun st =>
    match m st with
    | (st', inr a) => k a st'
    | (st', inl e) => (st', inl e)
    end.
Definition catch {A} (m : M A) (h : Error -> M A) : M A :=
  fun st =>
    match m st with
    | (st', inr a) => (st', inr a)
    | (st', inl e) => h e st'
    end.
Definition get : M State := fun st => (st, inr st).
Definition modify (f : State -> State) : M unit := fun st => (f st, inr tt).
Definition liftOption {A} (e : Error) (o : option A) : M A :=
  match o with
  | Some a => ret a
  | None => throw e
  end.

Declare Scope handler_scope.
Delimit Scope handler_scope with handler.
Notation "'let*' x ':=' m 'in' k" := (bind m (fun x => k))
  (at level 10, x name, m at level 100, k at level 200) : handler_scope.
Notation "m ';;' k" := (bind m (fun _ => k))
  (at level 100, k at level 200, right associativity) : handler_scope.
Local Open Scope handler_scope.

(** *** Library calls *)

Definition MAX_SAFE : Z := 2 ^ 53.

(** [BigNumber.toNumber()]: throws unless the value fits in 53 bits. *)
Definition toNumber (z : Z) : M Z :=
  if Z.abs z <? MAX_SAFE then ret z else throw NumericOverflow.

(** Parameter access. The decoder delivers the parameters the ABI of the
    event declares; a missing or ill-typed one is a [TypeError] where the
    handler first uses it. *)
Definition argBigNumber (event : Event) (k : string) : M Z :=
  match args event !! k with
  | Some (VBigNumber z) => ret z
  | _ => throw TypeError
  end.

Definition argString (event : Event) (k : string) : M string :=
  match args event !! k with
  | Some (VString s) => ret s
  | _ => throw TypeError
  end.

Definition argMetaPtr (event : Event) (k : string) : M MetaPtr :=
  match args event !! k with
  | Some (VMetaPtr p) => ret p
  | _ => throw TypeError
  end.

Definition lowerChar (c : ascii) : ascii :=
  let n := nat_of_ascii c in
  if ((65 <=? n) && (n <=? 90))%nat then ascii_of_nat (n + 32) else c.

Fixpoint toLowerCase (s : string) : string :=
  match s with
  | EmptyString => EmptyString
  | String c rest => String (lowerChar c) (toLowerCase rest)
  end.

(** [s.split("-")[0]] *)
Fixpoint beforeDash (s : string) : string :=
  match s with
  | EmptyString => EmptyString
  | String c rest => if Ascii.eqb c "-" then EmptyString else String c (beforeDash rest)
  end.

(** [indexer.subscribe(address, abi, fromBlock)] *)
Definition subscribe (addr abi : string) (fromBlock : Z) : M unit :=
  modify (fun st =>
    {| storage := storage st; cache := cache st;
       subscriptions := subscriptions st ++
         [{| sub_address := addr; sub_abi := abi; sub_fromBlock := fromBlock |}];
       journal := journal st |}).

(** [cache.lazy(key, fn)]: the cached value, or the value [fn] resolves to,
    which is then cached. *)
Definition lazy (key : string) (fn : M Json) : M Json :=
  let* st := get in
  match cache st !! key with
  | Some v => ret v
  | None =>
      let* v := fn in
      modify (fun st =>
        {| storage := storage st; cache := <[key := v]> (cache st);
           subscriptions := subscriptions st; journal := journal st |});;
      ret v
  end.

(** *** Storage calls, journalled *)

Definition write (f : Db -> Db) (w : Write) : M unit :=
  modify (fun st =>
    {| storage := f (storage st); cache := cache st;
       subscriptions := subscriptions st; journal := journal st ++ [w] |}).

Definition setProjects (l : list Project.t) (db : Db) : Db :=
  {| projects := l; rounds := rounds db;
     applications := applications db; votes := votes db |}.
Definition setRounds (l : list Round.t) (db : Db) : Db :=
  {| projects := projects db; rounds := l;
     applications := applications db; votes := votes db |}.
Definition setApplications (c : string) (l : list Application.t) (db : Db) : Db :=
  {| projects := projects db; rounds := rounds db;
     applications := <[c := l]> (applications db); votes := votes db |}.
Definition setVotes (c : string) (l : list Vote.t) (db : Db) : Db :=
  {| projects := projects db; rounds := rounds db;
     applications := applications db; votes := <[c := l]> (votes db) |}.

Definition applicationsOf (c : string) (db : Db) : list Application.t :=
  default [] (applications db !! c).
Definition votesOf (c : string) (db : Db) : list Vote.t :=
  default [] (votes db !! c).

Definition insertProject (p : Project.t) : M unit :=
  write (fun db => setProjects (projects db ++ [p]) db) (Insert "projects" (DProject p)).

Definition insertRound (r : Round.t) : M unit :=
  write (fun db => setRounds (rounds db ++ [r]) db) (Insert "rounds" (DRound r)).

Definition insertApplication (c : string) (a : Application.t) : M unit :=
  write (fun db => setApplications c (applicationsOf c db ++ [a]) db)
        (Insert c (DApplication a)).

Definition insertVote (c : string) (v : Vote.t) : M unit :=
  write (fun db => setVotes c (votesOf c db ++ [v]) db) (Insert c (DVote v)).

(** What [updateById] does when no document has the id. *)
Definition missingDocument (env : Snapshot) (c : string) : M unit :=
  if updateByIdRejects env then throw (DocumentNotFound c) else ret tt.

Definition updateProjectById (env : Snapshot) (i : Z) (f : Project.t -> Project.t) : M unit :=
  let* st := get in
  match updateById Project.id i f (projects (storage st)) with
  | Some (p', l') => write (setProjects l') (Update "projects" (DProject p'))
  | None => missingDocument env "projects"
  end.

Definition updateApplicationById (env : Snapshot) (c : string) (i : string)
    (f : Application.t -> Application.t) : M unit :=
  let* st := get in
  match updateById Application.id i f (applicationsOf c (storage st)) with
  | Some (a', l') => write (setApplications c l') (Update c (DApplication a'))
  | None => missingDocument env c
  end.

(** *** [src/handleEvent.ts] *)

(** [Number(ethers.utils.formatUnits(amount, 18)) * price] *)
Definition timesPrice (amount : Z) (price : Json) : option Q :=
  match price with
  | JNum p => Some (Qmult (Qmake amount (10 ^ 18)%positive) p)
  | _ => None
  end.

Definition convertToUSD (env : Snapshot) (token : string) (amount : Z)
    (chainId fromTimestamp toTimestamp : Z) : M (option Q) :=
  let cacheKey :=
    "price-" ++ token ++ "-" ++ pretty chainId ++ "-" ++ pretty toTimestamp
             ++ "-" ++ pretty fromTimestamp in
  let* price := lazy cacheKey
    (liftOption (PriceFetchFailure token)
       (JNum <$> getPrice env token chainId fromTimestamp toTimestamp)) in
  ret (timesPrice amount price).

Definition cachedIpfs (env : Snapshot) (cid : string) : M Json :=
  lazy ("ipfs-" ++ cid) (liftOption (ContentFetchFailure cid) (ipfs env cid)).

(** [BigNumber.from(n)] for a JS number [n] (an integer here): it throws at
    and beyond [Number.MAX_SAFE_INTEGER]. *)
Definition bigNumberFrom (n : Z) : option Z :=
  if Z.abs n <? MAX_SAFE - 1 then Some n else None.

(** [solidityKeccak256(["uint256", "address", "uint256"],
                       [projectChainId, projectRegistryAddress, projectId])];
    [None] when packing throws: a number [BigNumber.from] rejects or an
    address [arrayify] rejects. *)
Definition fullProjectId (projectChainId projectId : Z)
    (projectRegistryAddress : string) : option string :=
  match bigNumberFrom projectChainId,
        Keccak.arrayify projectRegistryAddress,
        bigNumberFrom projectId with
  | Some chain, Some addressBytes, Some number =>
      Some (Keccak.hexlify (Keccak.keccak256
              (Keccak.packUint256 chain ++ addressBytes
               ++ Keccak.packUint256 number)))
  | _, _, _ => None
  end.

(** [solidityKeccak256(["string"], [s])] *)
Definition stringKeccak256 (s : string) : string :=
  Keccak.hexlify (Keccak.keccak256 (Keccak.toUtf8Bytes s)).

(** An on-chain read through the contract object [indexer.subscribe] returns. *)
Definition readContract {A} (contract function : string) (o : option A) : M A :=
  liftOption (ExternalReadFailure contract function) o.

Fixpoint forEach {A} (body : A -> M unit) (l : list A) : M unit :=
  match l with
  | [] => ret tt
  | x :: rest => body x;; forEach body rest
  end.

(** One turn of the loop of "ProjectsMetaPtrUpdated". *)
Definition updateApplicationStatus (env : Snapshot) (c : string) (projectApp : Json) : M unit :=
  match field "id" projectApp with
  | Some (JStr i) =>
      let projectId := beforeDash i in
      updateApplicationById env c projectId (fun application =>
        {| Application.id := Application.id application;
           Application.projectId := Application.projectId application;
           Application.roundId := Application.roundId application;
           Application.status := field "status" projectApp;
           Application.payoutAddress := field "payoutAddress" projectApp |})
  | _ => throw TypeError
  end.

(** [status === "APPROVED"] *)
Definition isApproved (status : option Json) : bool :=
  match status with
  | Some (JStr s) => String.eqb s "APPROVED"
  | _ => false
  end.

(** [now] is what [new Date().getTime()] returns, [chainId] is
    [indexer.chainId]. *)
Definition handleEvent (env : Snapshot) (now : Z) (chainId : Z) (event : Event) : M unit :=
  if String.eqb (name event) "ProjectCreated" then
    let* projectID := argBigNumber event "projectID" in
    let* n := toNumber projectID in
    let* fullId := liftOption InvalidArgument (fullProjectId chainId n (address event)) in
    let* n' := toNumber projectID in
    let* owner := argString event "owner" in
    insertProject
      {| Project.fullId := fullId;
         Project.id := n';
         Project.metaPtr := None;
         Project.metadata := None;
         Project.votesUSD := 0%Q;
         Project.votes := 0;
         Project.owners := [owner] |}

  else if String.eqb (name event) "MetadataUpdated" then
    let* metaPtr := argMetaPtr event "metaPtr" in
    let* metadata := cachedIpfs env (pointer metaPtr) in
    catch
      (let* projectID := argBigNumber event "projectID" in
       let* n := toNumber projectID in
       updateProjectById env n (fun project =>
         {| Project.fullId := Project.fullId project;
            Project.id := Project.id project;
            Project.metaPtr := Some (pointer metaPtr);
            Project.metadata := Some metadata;
            Project.votesUSD := Project.votesUSD project;
            Project.votes := Project.votes project;
            Project.owners := Project.owners project |}))
      (fun _ =>
         (* console.error("Project not found", event.args.projectID.toNumber()) *)
         let* projectID := argBigNumber event "projectID" in
         let* _ := toNumber projectID in
         ret tt)

  else if String.eqb (name event) "OwnerAdded" then
    let* projectID := argBigNumber event "projectID" in
    let* n := toNumber projectID in
    let* owner := argString event "owner" in
    updateProjectById env n (fun project =>
      {| Project.fullId := Project.fullId project;
         Project.id := Project.id project;
         Project.metaPtr := Project.metaPtr project;
         Project.metadata := Project.metadata project;
         Project.votesUSD := Project.votesUSD project;
         Project.votes := Project.votes project;
         Project.owners := Project.owners project ++ [owner] |})

  else if String.eqb (name event) "OwnerRemoved" then
    let* projectID := argBigNumber event "projectID" in
    let* n := toNumber projectID in
    let* owner := argString event "owner" in
    updateProjectById env n (fun project =>
      {| Project.fullId := Project.fullId project;
         Project.id := Project.id project;
         Project.metaPtr := Project.metaPtr project;
         Project.metadata := Project.metadata project;
         Project.votesUSD := Project.votesUSD project;
         Project.votes := Project.votes project;
         Project.owners :=
           List.filter (fun o => String.eqb o owner) (Project.owners project) |})

  else if String.eqb (name event) "RoundCreated" then
    let* roundAddress := argString event "roundAddress" in
    subscribe roundAddress "RoundImplementation" (blockNumber event);;
    let* applicationMetaPtr :=
      readContract roundAddress "applicationMetaPtr"
                   (readApplicationMetaPtr env roundAddress) in
    let* applicationMetadata := cachedIpfs env (pointer applicationMetaPtr) in
    let* applicationsStartTime :=
      readContract roundAddress "applicationsStartTime"
                   (readApplicationsStartTime env roundAddress) in
    let* applicationsEndTime :=
      readContract roundAddress "applicationsEndTime"
                   (readApplicationsEndTime env roundAddress) in
    let* roundStartTime :=
      readContract roundAddress "roundStartTime" (readRoundStartTime env roundAddress) in
    let* roundEndTime :=
      readContract roundAddress "roundEndTime" (readRoundEndTime env roundAddress) in
    let* roundImplementation := argString event "roundImplementation" in
    insertRound
      {| Round.id := roundAddress;
         Round.votesUSD := 0%Q;
         Round.votes := 0;
         Round.implementationAddress := roundImplementation;
         Round.applicationMetaPtr := applicationMetaPtr;
         Round.applicationMetadata := applicationMetadata;
         Round.applicationsStartTime := applicationsStartTime;
         Round.applicationsEndTime := applicationsEndTime;
         Round.roundStartTime := roundStartTime;
         Round.roundEndTime := roundEndTime |}

  else if String.eqb (name event) "NewProjectApplication" then
    let* projectArg := argString event "project" in
    let* st := get in
    let project :=
      findOneWhere (fun project => String.eqb (Project.fullId project) projectArg)
                   (projects (storage st)) in
    insertApplication ("rounds/" ++ address event ++ "/projects")
      {| Application.id := projectArg;
         Application.projectId := Project.id <$> project;
         Application.roundId := address event;
         Application.status := Some JNull;
         Application.payoutAddress := None |}

  else if String.eqb (name event) "ProjectsMetaPtrUpdated" then
    let* newMetaPtr := argMetaPtr event "newMetaPtr" in
    let* fetched := cachedIpfs env (pointer newMetaPtr) in
    let c := "rounds/" ++ address event ++ "/projects" in
    match fetched with
    | JArr projectApps => forEach (updateApplicationStatus env c) projectApps
    | JStr EmptyString => ret tt
    | _ => throw TypeError
    end

  else if String.eqb (name event) "VotingContractCreated" then
    let* votingContractAddress := argString event "votingContractAddress" in
    subscribe votingContractAddress "QuadraticFundingVotingStrategyImplementation"
              (blockNumber event)

  else if String.eqb (name event) "Voted" then
    let* projectId := argString event "projectId" in
    let* roundAddress := argString event "roundAddress" in
    let projectApplicationId := projectId ++ "-" ++ roundAddress in
    let* voter := argString event "voter" in
    let* grantAddress := argString event "grantAddress" in
    let voteId :=
      stringKeccak256 (transactionHash event ++ "-" ++ voter ++ "-" ++ grantAddress) in
    let* st := get in
    let projectApplication :=
      findOneWhere (fun project => String.eqb (Application.id project) projectId)
                   (applicationsOf ("rounds/" ++ roundAddress ++ "/projects") (storage st)) in
    let round := findById Round.id roundAddress (rounds (storage st)) in
    match projectApplication, round with
    | Some application, Some round =>
        if isApproved (Application.status application) then
          let startTime := Round.roundStartTime round * 1000 in
          let endTime := Round.roundEndTime round * 1000 in
          let* token := argString event "token" in
          let* amount := argBigNumber event "amount" in
          let* amountUSD :=
            convertToUSD env (toLowerCase token) amount chainId
                         (startTime / 1000) (Z.min now endTime / 1000) in
          let vote :=
            {| Vote.id := voteId;
               Vote.token := token;
               Vote.voter := voter;
               Vote.grantAddress := grantAddress;
               Vote.amount := amount;
               Vote.amountUSD := amountUSD;
               Vote.fullProjectId := projectId;
               Vote.roundAddress := roundAddress;
               Vote.projectApplicationId := projectApplicationId |} in
          insertVote ("rounds/" ++ roundAddress ++ "/votes") vote;;
          insertVote ("rounds/" ++ roundAddress ++ "/projects/" ++ projectId ++ "/votes") vote
        else ret tt
    | _, _ => ret tt
    end

  else ret tt.

(** The names the [switch] has a [case] for. *)
Definition handledNames : list string :=
  [ "ProjectCreated"; "MetadataUpdated"; "OwnerAdded"; "OwnerRemoved";
    "RoundCreated"; "NewProjectApplication"; "ProjectsMetaPtrUpdated";
    "VotingContractCreated"; "Voted" ].

End Indexer.

(* ===================================================================== *)
(** ** Role resolution of the changeset compiler                          *)
(* ===================================================================== *)

Module Roles.

(** Contracts that emit [RoleGranted] and [RoleRevoked]
    ([event.contractName]). *)
Inductive Contract : Type :=
| ProgramImplementationV1
| RoundImplementationV1
| RoundImplementationV2.

Definition contractName (c : Contract) : string :=
  match c with
  | ProgramImplementationV1 => "AlloV1/ProgramImplementation/V1"
  | RoundImplementationV1 => "AlloV1/RoundImplementation/V1"
  | RoundImplementationV2 => "AlloV1/RoundImplementation/V2"
  end.

Inductive ProjectRoleName : Type := owner | member.
Inductive RoundRoleName : Type := admin | manager.

Inductive Role : Type :=
| ProjectRole (r : ProjectRoleName)
| RoundRole (r : RoundRoleName).

(** The role constants the tests of the handler feed it
    ([handleEvent.test.ts], "RoleGranted" and "RoleRevoked" suites). *)
Definition zeroRole : string :=
  "0x0000000000000000000000000000000000000000000000000000000000000000".
Definition programMemberRole : string :=
  "0xaa630204f2780b6f080cc77cc0e9c0a5c21e92eb0c6771e709255dd27d6de132".
Definition roundManagerRole : string :=
  "0xec61da14b5abbac5c5fda6f1d57642a264ebd5d0674f35852829746dfb8174a5".

(** Modelled from the spec: the top role of the entity behind a contract
    ([owner] for programs, [admin] for rounds); the handler that resolves
    roles ([src/indexer/allo/v1/handleEvent.ts]) is not among the sources. *)
Definition topRole (c : Contract) : Role :=
  match c with
  | ProgramImplementationV1 => ProjectRole owner
  | RoundImplementationV1 | RoundImplementationV2 => RoundRole admin
  end.

(** Modelled from the spec: the secondary role ([member] for programs,
    [manager] for rounds); same missing handler. *)
Definition secondaryRole (c : Contract) : Role :=
  match c with
  | ProgramImplementationV1 => ProjectRole member
  | RoundImplementationV1 | RoundImplementationV2 => RoundRole manager
  end.

(** The constant the tests grant and revoke the secondary role with. *)
Definition secondaryConstant (c : Contract) : string :=
  match c with
  | ProgramImplementationV1 => programMemberRole
  | RoundImplementationV1 => roundManagerRole
  | RoundImplementationV2 => roundManagerRole
  end.

(** Modelled from the spec: the role table of section 4.2, one row per
    contract and role constant; the handler that holds it
    ([src/indexer/allo/v1/handleEvent.ts]) is not among the sources. The spec
    names no constant: the rows carry the constants and the roles of the
    tests. *)
Definition roleTable : list (Contract * string * Role) :=
  [ (ProgramImplementationV1, zeroRole, ProjectRole owner);
    (ProgramImplementationV1, programMemberRole, ProjectRole member);
    (RoundImplementationV1, zeroRole, RoundRole admin);
    (RoundImplementationV1, roundManagerRole, RoundRole manager);
    (RoundImplementationV2, zeroRole, RoundRole admin);
    (RoundImplementationV2, roundManagerRole, RoundRole manager) ].

Definition contract_eqb (a b : Contract) : bool :=
  match a, b with
  | ProgramImplementationV1, ProgramImplementationV1
  | RoundImplementationV1, RoundImplementationV1
  | RoundImplementationV2, RoundImplementationV2 => true
  | _, _ => false
  end.

(** Modelled from the spec: resolution is a lookup in the table; a constant
    without a row yields no mapping. *)
Definition resolveRole (c : Contract) (constant : string) : option Role :=
  match find (fun row => contract_eqb (fst (fst row)) c
                         && String.eqb (snd (fst row)) constant) roleTable with
  | Some row => Some (snd row)
  | None => None
  end.

(** Modelled from the spec: the role changesets of section 4.3 (the changeset
    types of the missing handler), with the fields the tests compare. *)
Inductive Changeset : Type :=
| InsertProjectRole (chainId : Z) (projectId address : string)
                    (role : ProjectRoleName) (createdAtBlock : Z)
| DeleteAllProjectRolesByRoleAndAddress (chainId : Z) (projectId address : string)
                                        (role : ProjectRoleName)
| InsertRoundRole (chainId : Z) (roundId address : string)
                  (role : RoundRoleName) (createdAtBlock : Z)
| DeleteAllRoundRolesByRoleAndAddress (chainId : Z) (roundId address : string)
                                      (role : RoundRoleName).

(** A [RoleGranted] or [RoleRevoked] event: [params.role], [params.account],
    [params.sender] and the context the tests pass. *)
Record RoleEvent := {
  chainId : Z;
  contract : Contract;
  address : string;
  blockNumber : Z;
  role : string;
  account : string;
  sender : string
}.

Inductive CompileError : Type :=
| ExternalReadFailure
| ContentFetchFailure
| MalformedEventParams.

Definition withRole (e : RoleEvent) (constant : string) : RoleEvent :=
  {| chainId := chainId e; contract := contract e; address := address e;
     blockNumber := blockNumber e; role := constant;
     account := account e; sender := sender e |}.

(** Modelled from the spec: the changesets of a resolved role of the missing
    handler, scoped to the contract's own address as entity id. *)
Definition insertRole (e : RoleEvent) (r : Role) : Changeset :=
  match r with
  | ProjectRole r => InsertProjectRole (chainId e) (address e) (account e) r (blockNumber e)
  | RoundRole r => InsertRoundRole (chainId e) (address e) (account e) r (blockNumber e)
  end.

(** Modelled from the spec: the bulk delete of a resolved role, same missing
    handler. *)
Definition deleteRoles (e : RoleEvent) (r : Role) : Changeset :=
  match r with
  | ProjectRole r => DeleteAllProjectRolesByRoleAndAddress (chainId e) (address e) (account e) r
  | RoundRole r => DeleteAllRoundRolesByRoleAndAddress (chainId e) (address e) (account e) r
  end.

(** Modelled from the spec: "resolve role via 4.2; emit the matching Insert
    or bulk-Delete role changeset scoped to the contract's own address as
    entity id; unknown role constant => empty output". *)
Definition handleRoleGranted (e : RoleEvent) : CompileError + list Changeset :=
  match resolveRole (contract e) (role e) with
  | Some r => inr [insertRole e r]
  | None => inr []
  end.

(** Modelled from the spec: the "RoleRevoked" row of the same table of the
    missing handler: the bulk delete, or nothing for an unknown constant. *)
Definition handleRoleRevoked (e : RoleEvent) : CompileError + list Changeset :=
  match resolveRole (contract e) (role e) with
  | Some r => inr [deleteRoles e r]
  | None => inr []
  end.

(** The event of the role tests: chain 1, block 1, emitted by [addressFour],
    about [addressTwo], sent by [addressThree]. *)
Definition testEvent (c : Contract) (constant : string) : RoleEvent :=
  {| chainId := 1; contract := c;
     address := "0x0000000000000000000000000000000000000004";
     blockNumber := 1; role := constant;
     account := "0x0000000000000000000000000000000000000002";
     sender := "0x0000000000000000000000000000000000000003" |}.

End Roles.

(* ===================================================================== *)
(** ** Scenarios                                                          *)
(* ===================================================================== *)

(** The data of [handleEvent.test.ts] (chain 1, block 1, emitting contract
    [addressOne]) and a few states to run the handler from. *)
Module Scenario.
Import Indexer.

Definition addressZero : string := "0x0000000000000000000000000000000000000000".
Definition addressOne : string := "0x0000000000000000000000000000000000000001".
Definition addressTwo : string := "0x0000000000000000000000000000000000000002".
Definition addressThree : string := "0x0000000000000000000000000000000000000003".
Definition addressFour : string := "0x0000000000000000000000000000000000000004".
Definition addressFive : string := "0x0000000000000000000000000000000000000005".

Definition projectOneId : string :=
  "0xe31382b762a33e568e1e9ef38d64f4a2b4dbb51ec0f79ec41779fc5be79ead32".

Definition eventAt (address : string) (name : string) (args : gmap string Value) : Event :=
  {| name := name; address := address; blockNumber := 1;
     transactionHash := "0x"; args := args |}.

Definition emptyDb : Db :=
  {| projects := []; rounds := []; applications := ∅; votes := ∅ |}.

Definition startFrom (db : Db) : State :=
  {| storage := db; cache := ∅; subscriptions := []; journal := [] |}.

(** Nothing can be fetched or read. *)
Definition offline : Snapshot :=
  {| ipfs := fun _ => None;
     readApplicationMetaPtr := fun _ => None;
     readApplicationsStartTime := fun _ => None;
     readApplicationsEndTime := fun _ => None;
     readRoundStartTime := fun _ => None;
     readRoundEndTime := fun _ => None;
     getPrice := fun _ _ _ _ => None;
     updateByIdRejects := true |}.

Definition projectCreated : Event :=
  eventAt addressOne "ProjectCreated"
    {[ "projectID" := VBigNumber 1; "owner" := VString addressTwo ]}.

Definition metadataUpdated : Event :=
  eventAt addressOne "MetadataUpdated"
    {[ "projectID" := VBigNumber 1;
       "metaPtr" := VMetaPtr {| protocol := 0; pointer := "metadatacid" |} ]}.

Definition ownerRemoved : Event :=
  eventAt addressOne "OwnerRemoved"
    {[ "projectID" := VBigNumber 1; "owner" := VString addressTwo ]}.

Definition roleGranted : Event :=
  eventAt addressFour "RoleGranted"
    {[ "role" := VString "0x0000000000000000000000000000000000000000000000000000000000000000";
       "account" := VString addressTwo; "sender" := VString addressThree ]}.

(** Project 1 with two owners. *)
Definition projectOne : Project.t :=
  {| Project.fullId := projectOneId; Project.id := 1;
     Project.metaPtr := None; Project.metadata := None;
     Project.votesUSD := 0%Q; Project.votes := 0;
     Project.owners := [addressTwo; addressThree] |}.

Definition dbWithProjectOne : Db :=
  {| projects := [projectOne]; rounds := []; applications := ∅; votes := ∅ |}.

(** A round at [addressFour] open from second 0 to second 100, with one
    approved application of project 1. *)
Definition openRound : Round.t :=
  {| Round.id := addressFour; Round.votesUSD := 0%Q; Round.votes := 0;
     Round.implementationAddress := addressFive;
     Round.applicationMetaPtr := {| protocol := 1; pointer := "test-cid" |};
     Round.applicationMetadata := JNull;
     Round.applicationsStartTime := 0; Round.applicationsEndTime := 100;
     Round.roundStartTime := 0; Round.roundEndTime := 100 |}.

Definition approvedApplication : Application.t :=
  {| Application.id := projectOneId; Application.projectId := Some 1;
     Application.roundId := addressFour;
     Application.status := Some (JStr "APPROVED");
     Application.payoutAddress := Some (JStr addressThree) |}.

Definition dbWithOpenRound : Db :=
  {| projects := [projectOne]; rounds := [openRound];
     applications := {[ "rounds/" ++ addressFour ++ "/projects" := [approvedApplication] ]};
     votes := ∅ |}.

Definition voted : Event :=
  eventAt addressFive "Voted"
    {[ "token" := VString addressZero; "amount" := VBigNumber (10 ^ 18);
       "voter" := VString addressTwo; "grantAddress" := VString addressThree;
       "projectId" := VString projectOneId; "roundAddress" := VString addressFour ]}.

(** The mocks of the tests: every content pointer resolves to
    [{ some: "metadata" }]. *)
Definition mocked : Snapshot :=
  {| ipfs := fun _ => Some (JObj [("some", JStr "metadata")]);
     readApplicationMetaPtr := fun _ => Some {| protocol := 0; pointer := "test-cid" |};
     readApplicationsStartTime := fun _ => Some 0;
     readApplicationsEndTime := fun _ => Some 0;
     readRoundStartTime := fun _ => Some 0;
     readRoundEndTime := fun _ => Some 0;
     getPrice := fun _ _ _ _ => Some 0%Q;
     updateByIdRejects := true |}.

Definition ownerAdded : Event :=
  eventAt addressOne "OwnerAdded"
    {[ "projectID" := VBigNumber 1; "owner" := VString addressFour ]}.

(** A price feed where the price of a window is the second it ends at. *)
Definition risingPrices : Snapshot :=
  {| ipfs := fun _ => None;
     readApplicationMetaPtr := fun _ => None;
     readApplicationsStartTime := fun _ => None;
     readApplicationsEndTime := fun _ => None;
     readRoundStartTime := fun _ => None;
     readRoundEndTime := fun _ => None;
     getPrice := fun _ _ _ toTimestamp => Some (Qmake toTimestamp 1);
     updateByIdRejects := true |}.

End Scenario.

(* ===================================================================== *)
(** ** Failures and frame conditions                                      *)
(* ===================================================================== *)

Module Frame.
Import Indexer.

(** Failures of the outside world: a content fetch, an on-chain read or a
    price request that was rejected. *)
Definition isExternalFailure (e : Error) : bool :=
  match e with
  | ContentFetchFailure _ | ExternalReadFailure _ _ | PriceFetchFailure _ => true
  | _ => false
  end.

(** A computation that leaves the storage and its journal alone, whatever
    its outcome. *)
Definition readOnly {A} (m : M A) : Prop :=
  forall st st' r, m st = (st', r) ->
    storage st' = storage st /\ journal st' = journal st.

(** A computation that never throws an external failure. *)
Definition internal {A} (m : M A) : Prop :=
  forall st st' e, m st = (st', inl e) -> isExternalFailure e = false.

(** A computation whose external failures happen before its first write. *)
Definition abortsCleanly {A} (m : M A) : Prop :=
  forall st st' e, m st = (st', inl e) -> isExternalFailure e = true ->
    storage st' = storage st /\ journal st' = journal st.

(** The content behind [cid] is neither cached nor served. *)
Definition unfetchable (env : Snapshot) (st : State) (cid : string) : Prop :=
  cache st !! ("ipfs-" ++ cid) = None /\ ipfs env cid = None.

(** A content fetch or an on-chain read that handling [event] from [st]
    issues is rejected. *)
Definition fetchFails (env : Snapshot) (event : Event) (st : State) : Prop :=
  (name event = "MetadataUpdated" /\
   exists p, args event !! "metaPtr" = Some (VMetaPtr p) /\
             unfetchable env st (pointer p))
  \/
  (name event = "ProjectsMetaPtrUpdated" /\
   exists p, args event !! "newMetaPtr" = Some (VMetaPtr p) /\
             unfetchable env st (pointer p))
  \/
  (name event = "RoundCreated" /\
   exists a, args event !! "roundAddress" = Some (VString a) /\
     (readApplicationMetaPtr env a = None \/
      (exists p, readApplicationMetaPtr env a = Some p /\
                 unfetchable env st (pointer p)) \/
      readApplicationsStartTime env a = None \/
      readApplicationsEndTime env a = None \/
      readRoundStartTime env a = None \/
      readRoundEndTime env a = None)).

(** The end of the price window of a vote cast at [now] (milliseconds) in
    [round], in seconds. *)
Definition priceWindowEnd (now : Z) (round : Round.t) : Z :=
  Z.min now (Round.roundEndTime round * 1000) / 1000.

End Frame.

(* ===================================================================== *)
(** ** Price updater: [update] and [appendPrices]                         *)
(* ===================================================================== *)

(** [update] runs against a [World] of answers; the prices file is the
    state, and reading and writing it are taken to succeed
    ([readPricesFile] is in "./common.js"). Times are integers of
    milliseconds. *)

Module PriceUpdater.

Record Token := { address : string; code : string }.

Record Price := {
  token : string;
  price_code : string;
  price : Q;
  timestamp : Z;
  block : Z
}.

Inductive ToBlock : Type :=
| Latest
| BlockNumber (n : Z).

(** [config] and the two durations [update] takes from "./common.js", which
    is not among the sources: [hours1] is [hours(1)], [days90] is
    [days(90)], in milliseconds. *)
Record Config := {
  chainId : Z;
  pricesFromTimestamp : Z;
  tokens : list Token;
  hours1 : Z;
  days90 : Z
}.

(** A request for prices: the cache key handed to [withCacheMaybe] and the
    arguments of [getPricesByHour]. *)
Record Request := {
  cacheKey : string;
  requestedToken : Token;
  fromSeconds : Q;
  toSeconds : Q
}.

(** What the outside world answers; [None] is a rejected promise.
    [pricesByHour] stands for [withCacheMaybe(cacheKey, () =>
    getPricesByHour(...))], [blockFromTimestamp timestamp lastBlockNumber] for
    [getBlockFromTimestamp]. *)
Record World := {
  nowMillis : Z;
  getBlock : Z -> option Z;
  getBlockNumber : option Z;
  pricesByHour : Request -> option (list (Z * Q));
  blockFromTimestamp : Z -> Z -> option Z
}.

Inductive Failure : Type :=
| ProviderFailure
| PricesFailure (r : Request)
| BlockLookupFailure (tokenCode : string) (timestamp : Z).

(** The prices file of the chain, what [logger.error] received, and the
    requests made so far (a trace kept beside the state; the source has no
    such field). *)
Record State := {
  pricesFile : list Price;
  errorLog : list Failure;
  requests : list Request
}.

(** [currentPrices.reduce((acc, price) => Math.max(price.timestamp + hours(1), acc),
                          config.chain.pricesFromTimestamp)] *)
Definition lastPriceAt (config : Config) (currentPrices : list Price) : Z :=
  fold_left (fun acc p => Z.max (timestamp p + hours1 config) acc)
            currentPrices (pricesFromTimestamp config).

(** [toDate.getTime()] *)
Definition toDateMillis (world : World) (toBlock : ToBlock) : option Z :=
  match toBlock with
  | Latest => Some (nowMillis world)
  | BlockNumber n =>
      match getBlock world n with
      | Some blockTimestamp => Some (blockTimestamp * 1000)
      | None => None
      end
  end.

(** [Math.floor((toDate.getTime() - lastPriceAt) / hours(1)) * hours(1)] *)
Definition timeElapsed (config : Config) (toDate lastPrice : Z) : Z :=
  (toDate - lastPrice) / hours1 config * hours1 config.

Definition requestFor (config : Config) (lastPrice : Z) (chunk : Z * Z) (t : Token) : Request :=
  {| cacheKey :=
       pretty (chainId config) ++ "-" ++ address t ++ "-"
         ++ pretty (lastPrice + fst chunk) ++ "-" ++ pretty (lastPrice + snd chunk);
     requestedToken := t;
     fromSeconds := Qmake (lastPrice + fst chunk) 1000;
     toSeconds := Qmake (lastPrice + snd chunk) 1000 |}.

(** The loop over [prices] that fills [newPrices]. *)
Fixpoint resolveBlocks (world : World) (t : Token) (lastBlockNumber : Z)
    (prices : list (Z * Q)) (newPrices : list Price) : Failure + list Price :=
  match prices with
  | [] => inr newPrices
  | (ts, p) :: rest =>
      match blockFromTimestamp world ts lastBlockNumber with
      | Some blockNumber =>
          resolveBlocks world t lastBlockNumber rest
            (newPrices ++
             [{| token := Indexer.toLowerCase (address t);
                 price_code := code t;
                 price := p;
                 timestamp := ts;
                 block := blockNumber |}])
      | None => inl (BlockLookupFailure (code t) ts)
      end
  end.

(** [appendPrices]: read the file, write it back with [newPrices] at the end. *)
Definition appendPrices (newPrices : list Price) (st : State) : State :=
  {| pricesFile := pricesFile st ++ newPrices;
     errorLog := errorLog st;
     requests := requests st |}.

Definition request (r : Request) (st : State) : State :=
  {| pricesFile := pricesFile st;
     errorLog := errorLog st;
     requests := requests st ++ [r] |}.

Definition logError (e : Failure) (st : State) : State :=
  {| pricesFile := pricesFile st;
     errorLog := errorLog st ++ [e];
     requests := requests st |}.

(** The body of [for (const token of config.chain.tokens)] for one chunk:
    the state reached and the exception thrown, if any. *)
Fixpoint forTokens (world : World) (config : Config) (lastPrice lastBlockNumber : Z)
    (chunk : Z * Z) (ts : list Token) (st : State) : State * option Failure :=
  match ts with
  | [] => (st, None)
  | t :: rest =>
      let r := requestFor config lastPrice chunk t in
      let st := request r st in
      match pricesByHour world r with
      | None => (st, Some (PricesFailure r))
      | Some prices =>
          match resolveBlocks world t lastBlockNumber prices [] with
          | inl e => (st, Some e)
          | inr newPrices =>
              forTokens world config lastPrice lastBlockNumber chunk rest
                        (appendPrices newPrices st)
          end
      end
  end.

(** [for (const chunk of timeChunks)] *)
Fixpoint forChunks (world : World) (config : Config) (lastPrice lastBlockNumber : Z)
    (chunks : list (Z * Z)) (st : State) : State * option Failure :=
  match chunks with
  | [] => (st, None)
  | chunk :: rest =>
      match forTokens world config lastPrice lastBlockNumber chunk (tokens config) st with
      | (st', None) => forChunks world config lastPrice lastBlockNumber rest st'
      | (st', Some e) => (st', Some e)
      end
  end.

(** The [try] block of [update]. [None] when the loop of [chunkTimeBy] is
    still running after [fuel] iterations. *)
Definition tryUpdate (world : World) (config : Config) (fuel : nat) (toBlock : ToBlock)
    (st : State) : option (State * option Failure) :=
  let currentPrices := pricesFile st in
  let lastPrice := lastPriceAt config currentPrices in
  match toDateMillis world toBlock with
  | None => Some (st, Some ProviderFailure)
  | Some toDate =>
      let elapsed := timeElapsed config toDate lastPrice in
      if elapsed <? hours1 config then Some (st, None)
      else
        match getBlockNumber world with
        | None => Some (st, Some ProviderFailure)
        | Some lastBlockNumber =>
            match Prices.chunkTimeBy fuel elapsed (days90 config) with
            | None => None
            | Some timeChunks =>
                Some (forChunks world config lastPrice lastBlockNumber timeChunks st)
            end
        end
  end.

(** [update]: whatever the [try] block throws is logged, never thrown. *)
Definition update (world : World) (config : Config) (fuel : nat) (toBlock : ToBlock)
    (st : State) : option State :=
  match tryUpdate world config fuel toBlock st with
  | None => None
  | Some (st', None) => Some st'
  | Some (st', Some e) => Some (logError e st')
  end.

(** The windows [update] asks prices for, in order: every chunk for every
    token. *)
Definition windows (config : Config) (lastPrice : Z) (chunks : list (Z * Z)) : list Request :=
  flat_map (fun chunk => map (requestFor config lastPrice chunk) (tokens config)) chunks.

(** A price of token [t] with the block found for its timestamp. *)
Definition pricedFor (world : World) (lastBlockNumber : Z) (t : Token) (p : Price) : Prop :=
  token p = Indexer.toLowerCase (address t) /\ price_code p = code t /\
  blockFromTimestamp world (timestamp p) lastBlockNumber = Some (block p).

(** What a pass over the tokens, or over the chunks, may do to the state:
    append prices of the configured tokens and make the requests of [plan] in
    order, up to the first failure; nothing is logged. *)
Definition advances (world : World) (config : Config) (lastBlockNumber : Z)
    (plan : list Request) (st st' : State) (failure : option Failure) : Prop :=
  exists added made,
    pricesFile st' = (pricesFile st ++ added)%list /\
    requests st' = (requests st ++ made)%list /\
    errorLog st' = errorLog st /\
    made `prefix_of` plan /\
    (failure = None -> made = plan) /\
    Forall (fun p => exists t, In t (tokens config) /\ pricedFor world lastBlockNumber t p)
           added.

End PriceUpdater.

(* ===================================================================== *)
(** ** Price updater: [start], [stop] and [poll]                          *)
(* ===================================================================== *)

(** The service around [update]: the variable [pollTimeoutId] and the
    timers of the event loop. A call runs to its end before the next one
    begins. The block cache [start] opens is only handed to
    [getBlockFromTimestamp], which [World] answers for. *)

Module PriceService.

Definition POLL_INTERVAL_MS : Z := 60 * 1000.

Record Service := {
  prices : PriceUpdater.State;
  pollTimeoutId : option nat;
  pending : list (nat * Z);
  nextTimeoutId : nat
}.

Definition withPrices (st : PriceUpdater.State) (s : Service) : Service :=
  {| prices := st; pollTimeoutId := pollTimeoutId s;
     pending := pending s; nextTimeoutId := nextTimeoutId s |}.

(** [pollTimeoutId = setTimeout(poll, POLL_INTERVAL_MS)] *)
Definition schedulePoll (s : Service) : Service :=
  {| prices := prices s;
     pollTimeoutId := Some (nextTimeoutId s);
     pending := pending s ++ [(nextTimeoutId s, POLL_INTERVAL_MS)];
     nextTimeoutId := S (nextTimeoutId s) |}.

(** [clearTimeout(id)] *)
Definition clearTimeout (id : nat) (s : Service) : Service :=
  {| prices := prices s; pollTimeoutId := pollTimeoutId s;
     pending := List.filter (fun t => negb (Nat.eqb (fst t) id)) (pending s);
     nextTimeoutId := nextTimeoutId s |}.

(** [start(opts)]; [None] as for [update]. *)
Definition start (world : PriceUpdater.World) (config : PriceUpdater.Config) (fuel : nat)
    (watch : bool) (toBlock : PriceUpdater.ToBlock) (s : Service) : option Service :=
  match PriceUpdater.update world config fuel toBlock (prices s) with
  | None => None
  | Some st' => Some (if watch then schedulePoll (withPrices st' s) else withPrices st' s)
  end.

(** [stop()] *)
Definition stop (s : Service) : Service :=
  match pollTimeoutId s with
  | Some id => clearTimeout id s
  | None => s
  end.

(** [poll]: the body of the timeout. *)
Definition poll (world : PriceUpdater.World) (config : PriceUpdater.Config) (fuel : nat)
    (s : Service) : option Service :=
  match PriceUpdater.update world config fuel PriceUpdater.Latest (prices s) with
  | None => None
  | Some st' => Some (schedulePoll (withPrices st' s))
  end.

(** The pending timeout [id] fires: it leaves the pending set and [poll]
    runs. [None] also when [id] is not pending. *)
Definition fire (world : PriceUpdater.World) (config : PriceUpdater.Config) (fuel : nat)
    (id : nat) (s : Service) : option Service :=
  if existsb (fun t => Nat.eqb (fst t) id) (pending s)
  then poll world config fuel (clearTimeout id s)
  else None.

(** A service nobody has started, on a prices file. *)
Definition fresh (st : PriceUpdater.State) : Service :=
  {| prices := st; pollTimeoutId := None; pending := []; nextTimeoutId := 0 |}.

(** The one pending timeout is the one [pollTimeoutId] records. *)
Definition oneTimer (s : Service) : Prop :=
  exists id, pollTimeoutId s = Some id /\ pending s = [(id, POLL_INTERVAL_MS)] /\
             (id < nextTimeoutId s)%nat.

End PriceService.

(* ===================================================================== *)
(** ** Passport provider ([src/passport/index.ts])                        *)
(* ===================================================================== *)

(** The provider is a state machine over [PassportProviderState] with the
    timers of the event loop made explicit. A call runs to its end before
    the next one begins, as when every promise is awaited; the lines of the
    dump are taken as parsed, with a string address, and the database as
    failing in no other way than not finding a key. *)

Module Passport.

Definition DEFAULT_DELAY_BETWEEN_FULL_UPDATES_MS : Z := 1000 * 60 * 30.

(** A score as stored: [{ address, ...rest }], the address as the dump
    spells it and the other fields of the line. *)
Record PassportScore := {
  address : string;
  rest : Indexer.Json
}.

(** A parsed line of the dump:
    [{ passport: { address, community }, ...rest }]. *)
Record Line := {
  passportAddress : string;
  community : Z;
  lineRest : Indexer.Json
}.

Record Config := {
  scorerId : Z;
  delayBetweenFullUpdatesMs : option Z
}.

(** The Level database: keys to scores. *)
Abbreviation Level := (gmap string PassportScore).

Inductive ProviderState : Type :=
| Empty
| Starting (db : Level)
| Ready (pollTimeoutId : option nat) (db : Level)
| Stopped.

(** [state.type] *)
Definition stateType (s : ProviderState) : string :=
  match s with
  | Empty => "empty"
  | Starting _ => "starting"
  | Ready _ _ => "ready"
  | Stopped => "stopped"
  end.

(** The provider and the timers of the event loop: the pending timeouts
    with their delays, and the next id [setTimeout] returns. *)
Record Provider := {
  state : ProviderState;
  pending : list (nat * Z);
  nextTimeoutId : nat
}.

(** The answer of [fetch] for the dump. *)
Inductive Dump : Type :=
| FetchRejected
| BodyNull
| Body (lines : list Line).

(** The outside world: the dataset found at [config.dbPath] by [access]
    ([None] when there is none) and the dump. *)
Record World := {
  localDataset : option Level;
  dump : Dump
}.

Inductive Failure : Type :=
| ServiceNotInEmptyState (type : string)
| ServiceNotStarted
| PassportDumpIsEmpty
| FetchFailure.

Definition setState (s : ProviderState) (p : Provider) : Provider :=
  {| state := s; pending := pending p; nextTimeoutId := nextTimeoutId p |}.

(** [setTimeout(poll, delay)]: a fresh id, now pending. *)
Definition setTimeout (delay : Z) (p : Provider) : nat * Provider :=
  (nextTimeoutId p,
   {| state := state p;
      pending := pending p ++ [(nextTimeoutId p, delay)];
      nextTimeoutId := S (nextTimeoutId p) |}).

(** [clearTimeout(id)] *)
Definition clearTimeout (id : nat) (p : Provider) : Provider :=
  {| state := state p;
     pending := List.filter (fun t => negb (Nat.eqb (fst t) id)) (pending p);
     nextTimeoutId := nextTimeoutId p |}.

(** The worker of the queue on one line of the dump:
    [db.put(address.toLowerCase(), { address, ...rest })] for the lines of
    the configured community. *)
Definition putLine (config : Config) (db : Level) (line : Line) : Level :=
  if Z.eqb (community line) (scorerId config) then
    <[ Indexer.toLowerCase (Indexer.toLowerCase (passportAddress line)) :=
         {| address := passportAddress line; rest := lineRest line |} ]> db
  else db.

(** [runFullUpdate] *)
Definition runFullUpdate (world : World) (config : Config) (p : Provider)
  : Provider * (Failure + unit) :=
  match state p with
  | Empty | Stopped => (p, inr tt)
  | Starting db =>
      match dump world with
      | FetchRejected => (p, inl FetchFailure)
      | BodyNull => (p, inl PassportDumpIsEmpty)
      | Body lines => (setState (Starting (fold_left (putLine config) lines db)) p, inr tt)
      end
  | Ready t db =>
      match dump world with
      | FetchRejected => (p, inl FetchFailure)
      | BodyNull => (p, inl PassportDumpIsEmpty)
      | Body lines => (setState (Ready t (fold_left (putLine config) lines db)) p, inr tt)
      end
  end.

(** [state = { ...state, type: "ready" }], then the first timeout when
    [opts.watch]. *)
Definition becomeReady (config : Config) (watch : bool) (p : Provider) : Provider :=
  match state p with
  | Starting db =>
      if watch then
        let '(id, p') :=
          setTimeout (default DEFAULT_DELAY_BETWEEN_FULL_UPDATES_MS
                              (delayBetweenFullUpdatesMs config)) p in
        setState (Ready (Some id) db) p'
      else setState (Ready None db) p
  | _ => p
  end.

(** [start(opts)] *)
Definition start (world : World) (config : Config) (watch : bool) (p : Provider)
  : Provider * (Failure + unit) :=
  match state p with
  | Empty =>
      match localDataset world with
      | Some db => (becomeReady config watch (setState (Starting db) p), inr tt)
      | None =>
          match runFullUpdate world config (setState (Starting ∅) p) with
          | (p', inr _) => (becomeReady config watch p', inr tt)
          | (p', inl e) => (p', inl e)
          end
      end
  | s => (p, inl (ServiceNotInEmptyState (stateType s)))
  end.

(** [stop()] *)
Definition stop (p : Provider) : Provider * (Failure + unit) :=
  match state p with
  | Ready t db =>
      let p' := match t with
                | Some id => clearTimeout id p
                | None => p
                end in
      (setState Stopped p', inr tt)
  | _ => (p, inl ServiceNotStarted)
  end.

(** [getScoreByAddress(address)]: [inr None] is [undefined]. *)
Definition getScoreByAddress (a : string) (p : Provider) : Failure + option PassportScore :=
  match state p with
  | Ready _ db => inr (db !! a)
  | _ => inl ServiceNotStarted
  end.

(** [Array.from(new Set(addresses))]: first occurrences, in order. *)
Fixpoint unique (seen : list string) (addresses : list string) : list string :=
  match addresses with
  | [] => []
  | a :: more =>
      if bool_decide (a ∈ seen) then unique seen more
      else a :: unique (a :: seen) more
  end.

(** [map.set(key, value)] on a JS [Map], kept in insertion order. *)
Fixpoint mapSet (k : string) (v : PassportScore) (m : list (string * PassportScore))
  : list (string * PassportScore) :=
  match m with
  | [] => [(k, v)]
  | (k', v') :: more =>
      if String.eqb k' k then (k, v) :: more else (k', v') :: mapSet k v more
  end.

(** [new Map(entries)] *)
Definition newMap (entries : list (string * PassportScore)) : list (string * PassportScore) :=
  fold_left (fun m e => mapSet (fst e) (snd e) m) entries [].

(** [map.get(key)] *)
Definition mapGet (k : string) (m : list (string * PassportScore)) : option PassportScore :=
  snd <$> find (fun e => String.eqb (fst e) k) m.

(** [getScoresByAddresses(addresses)] *)
Definition getScoresByAddresses (addresses : list string) (p : Provider)
  : Failure + list (string * PassportScore) :=
  match state p with
  | Ready _ db =>
      let uniqueAddresses := unique [] addresses in
      let records := map (fun a => db !! a) uniqueAddresses in
      inr (newMap (map (fun record => (address record, record)) (omap Datatypes.id records)))
  | _ => inl ServiceNotStarted
  end.

(** [poll]: the body of the timeout. *)
Definition poll (world : World) (config : Config) (p : Provider)
  : Provider * (Failure + unit) :=
  match state p with
  | Ready _ _ =>
      match runFullUpdate world config p with
      | (p', inr _) =>
          (snd (setTimeout DEFAULT_DELAY_BETWEEN_FULL_UPDATES_MS p'), inr tt)
      | (p', inl e) => (p', inl e)
      end
  | _ => (p, inl ServiceNotStarted)
  end.

(** A pending timeout fires: it leaves the pending set and [poll] runs.
    [None] when [id] is not pending. *)
Definition fire (world : World) (config : Config) (id : nat) (p : Provider)
  : option (Provider * (Failure + unit)) :=
  if existsb (fun t => Nat.eqb (fst t) id) (pending p)
  then Some (poll world config (clearTimeout id p))
  else None.

(** A provider nobody has started. *)
Definition fresh : Provider := {| state := Empty; pending := []; nextTimeoutId := 0 |}.

(** Every key of the database is in lower case. *)
Definition lowercaseKeys (db : Level) : Prop :=
  forall k v, db !! k = Some v -> Indexer.toLowerCase k = k.

(** The key [putLine] stores a line under. *)
Definition keyOf (line : Line) : string :=
  Indexer.toLowerCase (Indexer.toLowerCase (passportAddress line)).

(** The last line of the dump that [putLine] stores under [k]. *)
Definition lastLineFor (config : Config) (k : string) (lines : list Line) : option Line :=
  find (fun line => Z.eqb (community line) (scorerId config) && String.eqb (keyOf line) k)
       (rev lines).

Definition scoreOf (line : Line) : PassportScore :=
  {| address := passportAddress line; rest := lineRest line |}.

End Passport.

(* ===================================================================== *)
(** ** What the handler keeps                                             *)
(* ===================================================================== *)

Module Growth.
Import Indexer.

(** The part of a project, and of an application, that no callback of the
    handler rewrites. *)
Definition projectKey (p : Project.t) : Z * string := (Project.id p, Project.fullId p).
Definition applicationKey (a : Application.t) : string * option Z * string :=
  (Application.id a, Application.projectId a, Application.roundId a).

(** [st'] holds everything [st] held, in place: cache entries with their
    values, subscriptions and storage calls in order, the documents of every
    collection in order (projects and applications up to the fields the
    callbacks rewrite). *)
Definition extends (st st' : State) : Prop :=
  cache st ⊆ cache st' /\
  subscriptions st `prefix_of` subscriptions st' /\
  journal st `prefix_of` journal st' /\
  map projectKey (projects (storage st))
    `prefix_of` map projectKey (projects (storage st')) /\
  rounds (storage st) `prefix_of` rounds (storage st') /\
  (forall c, map applicationKey (applicationsOf c (storage st))
               `prefix_of` map applicationKey (applicationsOf c (storage st'))) /\
  (forall c, votesOf c (storage st) `prefix_of` votesOf c (storage st')).

(** A computation that only ever extends the state. *)
Definition growing {A} (m : M A) : Prop :=
  forall st st' r, m st = (st', r) -> extends st st'.

(** [st] with another cache. *)
Definition withCache (k : gmap string Json) (st : State) : State :=
  {| storage := storage st; cache := k;
     subscriptions := subscriptions st; journal := journal st |}.

(** No character of [s] is a dash. *)
Fixpoint dashFree (s : string) : bool :=
  match s with
  | EmptyString => true
  | String c rest => negb (Ascii.eqb c "-") && dashFree rest
  end.

End Growth.

(* ===================================================================== *)
(** ** Scenarios for the passport provider and the price updater          *)
(* ===================================================================== *)

Module PassportScenario.
Import Passport.

Definition checksummed : string := "0xAbC0000000000000000000000000000000000001".

Definition config : Config :=
  {| scorerId := 335; delayBetweenFullUpdatesMs := Some 5000 |}.

Definition line (a : string) (c : Z) (score : string) : Line :=
  {| passportAddress := a; community := c;
     lineRest := Indexer.JObj [("score", Indexer.JStr score)] |}.

(** A dump with two lines for one address of community 335 and one of another
    community. *)
Definition lines : list Line :=
  [ line checksummed 335 "1.5"; line Scenario.addressTwo 12 "9"; line checksummed 335 "2.5" ].

Definition online : World := {| localDataset := None; dump := Body lines |}.
Definition offline : World := {| localDataset := None; dump := FetchRejected |}.

Definition oldScore : PassportScore :=
  {| address := Scenario.addressThree; rest := Indexer.JNull |}.

Definition cached : World :=
  {| localDataset := Some {[ Scenario.addressThree := oldScore ]}; dump := FetchRejected |}.

Definition ready : Provider :=
  {| state := Ready None {[ Scenario.addressThree := oldScore ]};
     pending := []; nextTimeoutId := 0 |}.

End PassportScenario.

Module PriceScenario.
Import PriceUpdater.

Definition hour : Z := 60 * 60 * 1000.

Definition eth : Token :=
  {| address := "0xEeeeeEeeeEeEeeEeEeEeeEEEeeeeEeeeeeeeEEeE"; code := "ETH" |}.

Definition config : Config :=
  {| chainId := 1; pricesFromTimestamp := 0; tokens := [eth];
     hours1 := hour; days90 := 90 * 24 * hour |}.

(** Two hours and five milliseconds after the start of the prices; one price
    per request, at block 7. *)
Definition world : World :=
  {| nowMillis := 2 * hour + 5;
     getBlock := fun _ => None;
     getBlockNumber := Some 100;
     pricesByHour := fun _ => Some [(hour, 1 # 1)%Q];
     blockFromTimestamp := fun _ _ => Some 7 |}.

(** Half an hour after the start of the prices. *)
Definition early : World :=
  {| nowMillis := hour / 2;
     getBlock := fun _ => None;
     getBlockNumber := Some 100;
     pricesByHour := fun _ => None;
     blockFromTimestamp := fun _ _ => None |}.

Definition noPrices : State := {| pricesFile := []; errorLog := []; requests := [] |}.

End PriceScenario.

(* ===================================================================== *)
(** ** Scenarios for the applications of a round                          *)
(* ===================================================================== *)

Module HandlerScenario.
Import Indexer.

Definition roundCreated : Event :=
  Scenario.eventAt Scenario.addressFour "RoundCreated"
    {[ "roundAddress" := VString Scenario.addressTwo;
       "ownedBy" := VString Scenario.addressThree;
       "roundImplementation" := VString Scenario.addressZero ]}.

Definition newProjectApplication : Event :=
  Scenario.eventAt Scenario.addressFour "NewProjectApplication"
    {[ "project" := VString Scenario.projectOneId ]}.

(** The applications file of a round: project 1 approved, then an entry
    without an id. *)
Definition applicationsFile : Json :=
  JArr [ JObj [("id", JStr (Scenario.projectOneId ++ "-" ++ Scenario.addressFour));
               ("status", JStr "APPROVED");
               ("payoutAddress", JStr Scenario.addressThree)];
         JObj [("status", JStr "REJECTED")] ].

Definition projectsMetaPtrUpdated : Event :=
  Scenario.eventAt Scenario.addressFour "ProjectsMetaPtrUpdated"
    {[ "newMetaPtr" := VMetaPtr {| protocol := 1; pointer := "applications-cid" |} ]}.

(** IPFS serves the applications file. *)
Definition withApplications : Snapshot :=
  {| ipfs := fun _ => Some applicationsFile;
     readApplicationMetaPtr := fun _ => None;
     readApplicationsStartTime := fun _ => None;
     readApplicationsEndTime := fun _ => None;
     readRoundStartTime := fun _ => None;
     readRoundEndTime := fun _ => None;
     getPrice := fun _ _ _ _ => None;
     updateByIdRejects := true |}.

(** IPFS serves a file whose two entries name the same application. *)
Definition twoEntries : Snapshot :=
  {| ipfs := fun _ =>
       Some (JArr [ JObj [("id", JStr (Scenario.projectOneId ++ "-" ++ Scenario.addressFour));
                          ("status", JStr "APPROVED");
                          ("payoutAddress", JStr Scenario.addressThree)];
                    JObj [("id", JStr (Scenario.projectOneId ++ "-" ++ Scenario.addressFour));
                          ("status", JStr "REJECTED")] ]);
     readApplicationMetaPtr := fun _ => None;
     readApplicationsStartTime := fun _ => None;
     readApplicationsEndTime := fun _ => None;
     readRoundStartTime := fun _ => None;
     readRoundEndTime := fun _ => None;
     getPrice := fun _ _ _ _ => None;
     updateByIdRejects := true |}.

(** IPFS serves the applications file cut before the entry without an id. *)
Definition truncatedFile : Snapshot :=
  {| ipfs := fun _ =>
       Some (JArr [ JObj [("id", JStr (Scenario.projectOneId ++ "-" ++ Scenario.addressFour));
                          ("status", JStr "APPROVED");
                          ("payoutAddress", JStr Scenario.addressThree)] ]);
     readApplicationMetaPtr := fun _ => None;
     readApplicationsStartTime := fun _ => None;
     readApplicationsEndTime := fun _ => None;
     readRoundStartTime := fun _ => None;
     readRoundEndTime := fun _ => None;
     getPrice := fun _ _ _ _ => None;
     updateByIdRejects := true |}.

(** A round at [addressFour] where project 1 has applied and is pending. *)
Definition pendingApplication : Application.t :=
  {| Application.id := Scenario.projectOneId; Application.projectId := Some 1;
     Application.roundId := Scenario.addressFour;
     Application.status := Some JNull;
     Application.payoutAddress := None |}.

Definition dbWithPendingApplication : Db :=
  {| projects := [Scenario.projectOne]; rounds := [Scenario.openRound];
     applications :=
       {[ "rounds/" ++ Scenario.addressFour ++ "/projects" := [pendingApplication] ]};
     votes := ∅ |}.

End HandlerScenario.

(* ===================================================================== *)
(** * Properties                                                          *)
(* ===================================================================== *)

(** ** [chunkTimeBy] *)

Section ChunkTimeBy.
Import Prices.
Variables millis chunkBy : Z.
Hypothesis chunkBy_pos : 0 < chunkBy.

Lemma iterations_done i : millis <= i -> iterations millis chunkBy i = 0%nat.
Proof.
  intros Hi. unfold iterations.
  assert ((millis - i + chunkBy - 1) / chunkBy <= 0); [|lia].
  assert ((millis - i + chunkBy - 1) / chunkBy < 1); [|lia].
  apply Z.div_lt_upper_bound; lia.
Qed.

Lemma iterations_step i :
  i < millis -> iterations millis chunkBy i = S (iterations millis chunkBy (i + chunkBy)).
Proof.
  intros Hi. unfold iterations.
  replace (millis - i + chunkBy - 1) with ((millis - i - 1) + 1 * chunkBy) by lia.
  replace (millis - (i + chunkBy) + chunkBy - 1) with (millis - i - 1) by lia.
  rewrite Z.div_add by lia.
  assert (0 <= (millis - i - 1) / chunkBy) by (apply Z.div_pos; lia).
  lia.
Qed.

Lemma chunkLoop_runs fuel : forall i acc,
  (iterations millis chunkBy i <= fuel)%nat ->
  chunkLoop fuel millis chunkBy i acc =
  Some (acc ++ chunksFrom (iterations millis chunkBy i) millis chunkBy i)%list.
Proof.
  induction fuel as [|fuel IH]; intros i acc Hfuel.
  - destruct (Z.ltb_spec i millis) as [Hlt|Hge].
    + rewrite iterations_step in Hfuel by assumption. lia.
    + simpl. destruct (Z.ltb_spec i millis); [lia|].
      rewrite iterations_done by assumption. simpl. by rewrite app_nil_r.
  - simpl. destruct (Z.ltb_spec i millis) as [Hlt|Hge].
    + rewrite iterations_step in * by assumption.
      rewrite IH by lia. simpl. by rewrite <- app_assoc.
    + rewrite iterations_done by assumption. simpl. by rewrite app_nil_r.
Qed.

Lemma chunksFrom_shape n : forall i,
  n = iterations millis chunkBy i -> 0 <= i ->
  well_shaped millis chunkBy (chunksFrom n millis chunkBy i).
Proof.
  induction n as [|n IH]; intros i Hn Hi a b Hin; [destruct Hin|].
  assert (i < millis) as Hlt.
  { destruct (Z.ltb_spec i millis); [assumption|].
    rewrite iterations_done in Hn by assumption. discriminate. }
  rewrite iterations_step in Hn by assumption.
  destruct Hin as [Heq|Hin].
  - inversion Heq; subst a b. lia.
  - apply (IH (i + chunkBy)); [congruence|lia|assumption].
Qed.

Lemma chunksFrom_abut n : forall i,
  n = iterations millis chunkBy i ->
  abut chunkBy (chunksFrom n millis chunkBy i).
Proof.
  induction n as [|n IH]; intros i Hn k a b a' b' Hk HSk; [discriminate|].
  assert (i < millis) as Hlt.
  { destruct (Z.ltb_spec i millis); [assumption|].
    rewrite iterations_done in Hn by assumption. discriminate. }
  rewrite iterations_step in Hn by assumption.
  destruct k as [|k].
  - simpl in Hk. inversion Hk; subst a b.
    destruct n as [|n]; [discriminate|]. simpl in HSk. inversion HSk; subst a' b'.
    assert (i + chunkBy < millis).
    { destruct (Z.ltb_spec (i + chunkBy) millis); [assumption|].
      rewrite iterations_done in Hn by assumption. discriminate. }
    lia.
  - apply (IH (i + chunkBy) ltac:(congruence) k a b a' b'); assumption.
Qed.

Lemma chunksFrom_last n : forall i,
  S n = iterations millis chunkBy i ->
  exists a, last (chunksFrom (S n) millis chunkBy i) = Some (a, millis).
Proof.
  induction n as [|n IH]; intros i Hn.
  - assert (i < millis) as Hlt.
    { destruct (Z.ltb_spec i millis); [assumption|].
      rewrite iterations_done in Hn by assumption. discriminate. }
    rewrite iterations_step in Hn by assumption.
    assert (millis <= i + chunkBy).
    { destruct (Z.ltb_spec (i + chunkBy) millis) as [H|H]; [|assumption].
      rewrite iterations_step in Hn by assumption. discriminate. }
    exists i. simpl. f_equal. f_equal. lia.
  - assert (i < millis) as Hlt.
    { destruct (Z.ltb_spec i millis); [assumption|].
      rewrite iterations_done in Hn by assumption. discriminate. }
    rewrite iterations_step in Hn by assumption.
    destruct (IH (i + chunkBy) ltac:(congruence)) as [a Ha].
    exists a. change (chunksFrom (S (S n)) millis chunkBy i)
      with ((i, Z.min (i + chunkBy) millis) :: chunksFrom (S n) millis chunkBy (i + chunkBy)).
    rewrite last_cons, Ha. reflexivity.
Qed.
End ChunkTimeBy.



Example chunkTimeBy_5_2 : Prices.chunkTimeBy 3 5 2 = Some [(0, 2); (2, 4); (4, 5)].
Proof. reflexivity. Qed.
Example chunkTimeBy_out_of_fuel : Prices.chunkTimeBy 100 5 0 = None.
Proof. reflexivity. Qed.

(* ===================================================================== *)
(** ** Properties of [handleEvent]                                        *)
(* ===================================================================== *)

Section HandleEvent.
Import Indexer.
Local Open Scope handler_scope.

Variables (env : Snapshot) (chainId : Z).

(** The [switch] falls through to [default] for a name without a [case]. *)
Lemma handleEvent_default (now : Z) (event : Event) (st : State) :
  ~ In (name event) handledNames ->
  handleEvent env now chainId event st = (st, inr tt).
Proof.
  intros Hname. unfold handleEvent.
  repeat match goal with
  | |- context [String.eqb (name event) ?s] =>
      destruct (String.eqb_spec (name event) s) as [Heq|_];
      [exfalso; apply Hname; rewrite Heq; unfold handledNames; simpl; tauto|]
  end.
  reflexivity.
Qed.
End HandleEvent.

(** C8. An event whose name is none of the nine names the [switch] handles
    makes [handleEvent] return normally with the state (storage, cache,
    subscriptions and the journal of storage calls) exactly as it was. *)
Theorem handleEvent_unhandled_name_is_noop
    (env : Indexer.Snapshot) (now chainId : Z) (event : Indexer.Event) (st : Indexer.State) :
  ~ In (Indexer.name event)
       [ "ProjectCreated"; "MetadataUpdated"; "OwnerAdded"; "OwnerRemoved";
         "RoundCreated"; "NewProjectApplication"; "ProjectsMetaPtrUpdated";
         "VotingContractCreated"; "Voted" ] ->
  Indexer.handleEvent env now chainId event st = (st, inr tt).
Proof. apply handleEvent_default. Qed.

Section ProjectCreated.
Import Indexer.
Local Open Scope handler_scope.

Lemma toNumber_safe (z : Z) (st : State) :
  Z.abs z < 2 ^ 53 -> toNumber z st = (st, inr z).
Proof.
  intros Hz. unfold toNumber, MAX_SAFE.
  destruct (Z.ltb_spec (Z.abs z) (2 ^ 53)); [reflexivity|lia].
Qed.

(** What the "ProjectCreated" case does to the state. *)
Lemma handleEvent_ProjectCreated env now chainId event st projectID owner fullId :
  name event = "ProjectCreated" ->
  args event !! "projectID" = Some (VBigNumber projectID) ->
  args event !! "owner" = Some (VString owner) ->
  Z.abs projectID < 2 ^ 53 ->
  fullProjectId chainId projectID (address event) = Some fullId ->
  handleEvent env now chainId event st =
  insertProject
    {| Project.fullId := fullId; Project.id := projectID;
       Project.metaPtr := None; Project.metadata := None;
       Project.votesUSD := 0%Q; Project.votes := 0;
       Project.owners := [owner] |} st.
Proof.
  intros Hname Hid Howner Hsafe Hfull.
  unfold handleEvent. rewrite Hname, String.eqb_refl.
  unfold bind at 1. unfold argBigNumber at 1. rewrite Hid. unfold ret at 1.
  unfold bind at 1. rewrite toNumber_safe by assumption.
  unfold bind at 1. rewrite Hfull. unfold liftOption, ret at 1.
  unfold bind at 1. rewrite toNumber_safe by assumption.
  unfold bind at 1. unfold argString. rewrite Howner. reflexivity.
Qed.
End ProjectCreated.


(** *** External failures happen before the first write *)

Section FrameRules.
Import Indexer Frame.
Local Open Scope handler_scope.

Lemma readOnly_ret {A} (a : A) : readOnly (ret a).
Proof. intros st st' r H. inversion H. auto. Qed.

Lemma readOnly_throw {A} (e : Error) : readOnly (@throw A e).
Proof. intros st st' r H. inversion H. auto. Qed.

Lemma readOnly_get : readOnly get.
Proof. intros st st' r H. inversion H. auto. Qed.

Lemma readOnly_liftOption {A} (e : Error) (o : option A) : readOnly (liftOption e o).
Proof. destruct o; [apply readOnly_ret|apply readOnly_throw]. Qed.

Lemma readOnly_bind {A B} (m : M A) (k : A -> M B) :
  readOnly m -> (forall a, readOnly (k a)) -> readOnly (bind m k).
Proof.
  intros Hm Hk st st' r. unfold bind.
  destruct (m st) as [st1 [e|a]] eqn:Em; intros H.
  - inversion H; subst. eapply Hm; eassumption.
  - destruct (Hm _ _ _ Em) as [Hs Hj]. destruct (Hk a _ _ _ H) as [Hs' Hj'].
    split; congruence.
Qed.

Lemma readOnly_toNumber (z : Z) : readOnly (toNumber z).
Proof. unfold toNumber. destruct (_ <? _); [apply readOnly_ret|apply readOnly_throw]. Qed.

Lemma readOnly_argBigNumber event k : readOnly (argBigNumber event k).
Proof.
  unfold argBigNumber. destruct (args event !! k) as [[]|];
    first [apply readOnly_ret|apply readOnly_throw].
Qed.

Lemma readOnly_argString event k : readOnly (argString event k).
Proof.
  unfold argString. destruct (args event !! k) as [[]|];
    first [apply readOnly_ret|apply readOnly_throw].
Qed.

Lemma readOnly_argMetaPtr event k : readOnly (argMetaPtr event k).
Proof.
  unfold argMetaPtr. destruct (args event !! k) as [[]|];
    first [apply readOnly_ret|apply readOnly_throw].
Qed.

Lemma readOnly_subscribe a abi b : readOnly (subscribe a abi b).
Proof. intros st st' r H. inversion H. auto. Qed.

Lemma readOnly_lazy key (fn : M Json) : readOnly fn -> readOnly (lazy key fn).
Proof.
  intros Hfn. unfold lazy. apply readOnly_bind; [apply readOnly_get|].
  intros st0. destruct (cache st0 !! key); [apply readOnly_ret|].
  apply readOnly_bind; [assumption|]. intros v.
  apply readOnly_bind; [|intros; apply readOnly_ret].
  intros st st' r H. inversion H. auto.
Qed.

Lemma readOnly_cachedIpfs env cid : readOnly (cachedIpfs env cid).
Proof. apply readOnly_lazy, readOnly_liftOption. Qed.

Lemma readOnly_convertToUSD env token amount chainId from to :
  readOnly (convertToUSD env token amount chainId from to).
Proof.
  unfold convertToUSD. apply readOnly_bind; [|intros; apply readOnly_ret].
  apply readOnly_lazy, readOnly_liftOption.
Qed.

Lemma readOnly_readContract {A} c f (o : option A) : readOnly (readContract c f o).
Proof. apply readOnly_liftOption. Qed.

(** Storage calls and value plumbing never throw an external failure. *)

Lemma internal_ret {A} (a : A) : internal (ret a).
Proof. intros st st' e H. discriminate. Qed.

Lemma internal_throw {A} (e : Error) : isExternalFailure e = false -> internal (@throw A e).
Proof. intros He st st' e' H. inversion H. subst. assumption. Qed.

Lemma internal_bind {A B} (m : M A) (k : A -> M B) :
  internal m -> (forall a, internal (k a)) -> internal (bind m k).
Proof.
  intros Hm Hk st st' e. unfold bind.
  destruct (m st) as [st1 [e1|a]] eqn:Em; intros H.
  - inversion H; subst. eapply Hm; eassumption.
  - eapply Hk; eassumption.
Qed.

Lemma internal_catch {A} (m : M A) (h : Error -> M A) :
  (forall e, internal (h e)) -> internal (catch m h).
Proof.
  intros Hh st st' e. unfold catch.
  destruct (m st) as [st1 [e1|a]] eqn:Em; intros H; [|discriminate].
  eapply Hh; eassumption.
Qed.

Lemma internal_get : internal get.
Proof. intros st st' e H. discriminate. Qed.

Lemma internal_write f w : internal (write f w).
Proof. intros st st' e H. discriminate. Qed.

Lemma internal_toNumber z : internal (toNumber z).
Proof.
  unfold toNumber. destruct (_ <? _); [apply internal_ret|by apply internal_throw].
Qed.

Lemma internal_argBigNumber event k : internal (argBigNumber event k).
Proof.
  unfold argBigNumber. destruct (args event !! k) as [[]|];
    first [apply internal_ret|by apply internal_throw].
Qed.

Lemma internal_argString event k : internal (argString event k).
Proof.
  unfold argString. destruct (args event !! k) as [[]|];
    first [apply internal_ret|by apply internal_throw].
Qed.

Lemma internal_missingDocument env c : internal (missingDocument env c).
Proof.
  unfold missingDocument. destruct (updateByIdRejects env);
    [by apply internal_throw|apply internal_ret].
Qed.

Lemma internal_updateProjectById env i f : internal (updateProjectById env i f).
Proof.
  unfold updateProjectById. apply internal_bind; [apply internal_get|].
  intros st0. destruct (updateById _ _ _ _) as [[p' l']|];
    [apply internal_write|apply internal_missingDocument].
Qed.

Lemma internal_updateApplicationById env c i f : internal (updateApplicationById env c i f).
Proof.
  unfold updateApplicationById. apply internal_bind; [apply internal_get|].
  intros st0. destruct (updateById _ _ _ _) as [[p' l']|];
    [apply internal_write|apply internal_missingDocument].
Qed.

Lemma internal_updateApplicationStatus env c projectApp :
  internal (updateApplicationStatus env c projectApp).
Proof.
  unfold updateApplicationStatus.
  destruct (field "id" projectApp) as [[]|];
    first [apply internal_updateApplicationById|by apply internal_throw].
Qed.

Lemma internal_forEach {A} (body : A -> M unit) (l : list A) :
  (forall x, internal (body x)) -> internal (forEach body l).
Proof.
  intros Hbody. induction l as [|x l IH]; simpl; [apply internal_ret|].
  apply internal_bind; [apply Hbody|intros; apply IH].
Qed.

(** Reads first, writes after: the shape of every [case]. *)

Lemma abortsCleanly_readOnly {A} (m : M A) : readOnly m -> abortsCleanly m.
Proof. intros Hm st st' e H _. eapply Hm; eassumption. Qed.

Lemma abortsCleanly_internal {A} (m : M A) : internal m -> abortsCleanly m.
Proof. intros Hm st st' e H He. rewrite (Hm _ _ _ H) in He. discriminate. Qed.

Lemma abortsCleanly_bind {A B} (m : M A) (k : A -> M B) :
  readOnly m -> (forall a, abortsCleanly (k a)) -> abortsCleanly (bind m k).
Proof.
  intros Hm Hk st st' e. unfold bind.
  destruct (m st) as [st1 [e1|a]] eqn:Em; intros H He.
  - inversion H; subst. eapply Hm; eassumption.
  - destruct (Hm _ _ _ Em) as [Hs Hj]. destruct (Hk a _ _ _ H He) as [Hs' Hj'].
    split; congruence.
Qed.
End FrameRules.

Create HintDb frame discriminated.
#[export] Hint Resolve
  readOnly_ret readOnly_throw readOnly_get readOnly_liftOption readOnly_bind
  readOnly_toNumber readOnly_argBigNumber readOnly_argString readOnly_argMetaPtr
  readOnly_subscribe readOnly_lazy readOnly_cachedIpfs readOnly_convertToUSD
  readOnly_readContract
  internal_ret internal_throw internal_bind internal_catch internal_get
  internal_write internal_toNumber internal_argBigNumber internal_argString
  internal_missingDocument internal_updateProjectById
  internal_updateApplicationById internal_updateApplicationStatus
  internal_forEach : frame.

(** Peel one read off the front of a handler, or close it when only storage
    calls are left. *)
Ltac frame_step :=
  lazymatch goal with
  | |- Frame.abortsCleanly (Indexer.bind _ _) =>
      first [ apply abortsCleanly_internal; solve [eauto 12 with frame]
            | apply abortsCleanly_bind; [solve [eauto with frame]|intros ?] ]
  | |- Frame.abortsCleanly (match ?x with _ => _ end) => destruct x
  | |- Frame.abortsCleanly _ =>
      first [ apply abortsCleanly_readOnly; solve [eauto with frame]
            | apply abortsCleanly_internal; solve [eauto 12 with frame] ]
  end.

Section HandleEventAborts.
Import Indexer Frame.
Local Open Scope handler_scope.

Lemma handleEvent_abortsCleanly env now chainId event :
  abortsCleanly (handleEvent env now chainId event).
Proof.
  unfold handleEvent, insertProject, insertRound, insertApplication, insertVote.
  repeat match goal with
  | |- abortsCleanly (if String.eqb ?a ?b then _ else _) => destruct (String.eqb a b)
  end; cbv zeta; repeat frame_step.
Qed.

(** A content fetch that is neither cached nor served throws. *)
Lemma cachedIpfs_unfetchable env st cid :
  unfetchable env st cid ->
  cachedIpfs env cid st = (st, inl (ContentFetchFailure cid)).
Proof.
  intros [Hcache Hipfs]. unfold cachedIpfs, lazy, bind, get.
  rewrite Hcache, Hipfs. reflexivity.
Qed.
End HandleEventAborts.

(** Take the [case] of the [switch] that the name of the event selects. *)
Ltac dispatch Hname :=
  unfold Indexer.handleEvent; rewrite Hname;
  repeat match goal with
  | |- context [String.eqb ?a ?b] =>
      is_ground a; is_ground b;
      let v := eval vm_compute in (String.eqb a b) in
      change (String.eqb a b) with v
  end;
  cbv iota.

Section FetchFailures.
Import Indexer Frame.
Local Open Scope handler_scope.

Variables (env : Snapshot) (now chainId : Z) (event : Event) (st : State).

Lemma MetadataUpdated_fetch_fails p :
  name event = "MetadataUpdated" ->
  args event !! "metaPtr" = Some (VMetaPtr p) ->
  unfetchable env st (pointer p) ->
  handleEvent env now chainId event st = (st, inl (ContentFetchFailure (pointer p))).
Proof.
  intros Hname Hptr Hfetch. dispatch Hname.
  unfold bind at 1. unfold argMetaPtr. rewrite Hptr. unfold ret at 1.
  unfold bind at 1. rewrite cachedIpfs_unfetchable by assumption. reflexivity.
Qed.

Lemma ProjectsMetaPtrUpdated_fetch_fails p :
  name event = "ProjectsMetaPtrUpdated" ->
  args event !! "newMetaPtr" = Some (VMetaPtr p) ->
  unfetchable env st (pointer p) ->
  handleEvent env now chainId event st = (st, inl (ContentFetchFailure (pointer p))).
Proof.
  intros Hname Hptr Hfetch. dispatch Hname.
  unfold bind at 1. unfold argMetaPtr. rewrite Hptr. unfold ret at 1.
  unfold bind at 1. rewrite cachedIpfs_unfetchable by assumption. reflexivity.
Qed.

Lemma RoundCreated_read_fails a :
  name event = "RoundCreated" ->
  args event !! "roundAddress" = Some (VString a) ->
  (readApplicationMetaPtr env a = None \/
   (exists p, readApplicationMetaPtr env a = Some p /\ unfetchable env st (pointer p)) \/
   readApplicationsStartTime env a = None \/
   readApplicationsEndTime env a = None \/
   readRoundStartTime env a = None \/
   readRoundEndTime env a = None) ->
  exists st' e,
    handleEvent env now chainId event st = (st', inl e) /\ isExternalFailure e = true.
Proof.
  intros Hname Haddr Hfail. dispatch Hname.
  unfold bind at 1. unfold argString at 1. rewrite Haddr. unfold ret at 1.
  unfold bind at 1. unfold subscribe at 1, modify at 1.
  set (st1 := {| storage := storage st; cache := cache st;
                 subscriptions := _; journal := journal st |}).
  assert (cache st1 = cache st) as Hcache by reflexivity.
  clearbody st1.
  unfold bind at 1, readContract at 1.
  destruct (readApplicationMetaPtr env a) as [p|] eqn:Eptr;
    [|do 2 eexists; split; reflexivity].
  unfold liftOption at 1, ret at 1.
  unfold bind at 1.
  destruct (cachedIpfs env (pointer p) st1) as [st2 [e|metadata]] eqn:Eipfs.
  { unfold cachedIpfs, lazy, bind, get in Eipfs.
    destruct (cache st1 !! _); [discriminate|].
    destruct (ipfs env (pointer p)); [discriminate|].
    inversion Eipfs; subst. do 2 eexists; split; reflexivity. }
  assert (~ unfetchable env st (pointer p)) as Hfetched.
  { intros [Hc Hi].
    assert (unfetchable env st1 (pointer p)) as Hun
      by (split; [by rewrite Hcache|assumption]).
    apply cachedIpfs_unfetchable in Hun. congruence. }
  unfold bind at 1, readContract at 1.
  destruct (readApplicationsStartTime env a) eqn:E1;
    [|do 2 eexists; split; reflexivity].
  unfold liftOption at 1, ret at 1.
  unfold bind at 1, readContract at 1.
  destruct (readApplicationsEndTime env a) eqn:E2;
    [|do 2 eexists; split; reflexivity].
  unfold liftOption at 1, ret at 1.
  unfold bind at 1, readContract at 1.
  destruct (readRoundStartTime env a) eqn:E3;
    [|do 2 eexists; split; reflexivity].
  unfold liftOption at 1, ret at 1.
  unfold bind at 1, readContract at 1.
  destruct (readRoundEndTime env a) eqn:E4;
    [|do 2 eexists; split; reflexivity].
  exfalso.
  destruct Hfail as [H|[[p' [H Hun]]|[H|[H|[H|H]]]]]; try discriminate.
  apply Hfetched. congruence.
Qed.

Lemma fetchFails_throws :
  fetchFails env event st ->
  exists st' e,
    handleEvent env now chainId event st = (st', inl e) /\ isExternalFailure e = true.
Proof.
  intros [[Hname [p [Hptr Hun]]]|[[Hname [p [Hptr Hun]]]|[Hname [a [Haddr Hfail]]]]].
  - exists st, (ContentFetchFailure (pointer p)). split; [|reflexivity].
    by apply MetadataUpdated_fetch_fails.
  - exists st, (ContentFetchFailure (pointer p)). split; [|reflexivity].
    by apply ProjectsMetaPtrUpdated_fetch_fails.
  - by apply (RoundCreated_read_fails a).
Qed.
End FetchFailures.

(** C4. A content fetch or on-chain read that fails while an event is handled
    ends the handling with that failure, thrown to the caller, and with the
    storage and the journal of storage calls as they were before the event;
    and whenever handling any event ends with a rejected fetch, read or price
    request, nothing has been written. *)
Theorem failed_fetch_aborts_event
    (env : Indexer.Snapshot) (now chainId : Z) (event : Indexer.Event) (st : Indexer.State) :
  (Frame.fetchFails env event st ->
   exists st' e,
     Indexer.handleEvent env now chainId event st = (st', inl e) /\
     Frame.isExternalFailure e = true /\
     Indexer.storage st' = Indexer.storage st /\
     Indexer.journal st' = Indexer.journal st)
  /\
  (forall st' e,
     Indexer.handleEvent env now chainId event st = (st', inl e) ->
     Frame.isExternalFailure e = true ->
     Indexer.storage st' = Indexer.storage st /\
     Indexer.journal st' = Indexer.journal st).
Proof.
  split.
  - intros Hfail.
    destruct (fetchFails_throws env now chainId event st Hfail) as [st' [e [Hrun Hext]]].
    exists st', e. split; [assumption|]. split; [assumption|].
    exact (handleEvent_abortsCleanly env now chainId event st st' e Hrun Hext).
  - intros st' e. apply handleEvent_abortsCleanly.
Qed.

Lemma failed_fetch_aborts_event_witness :
  exists st' e,
    Indexer.handleEvent Scenario.offline 0 1 Scenario.metadataUpdated
      (Scenario.startFrom Scenario.dbWithProjectOne) = (st', inl e) /\
    Frame.isExternalFailure e = true /\
    Indexer.storage st' = Scenario.dbWithProjectOne /\
    Indexer.journal st' = [].
Proof.
  apply (failed_fetch_aborts_event Scenario.offline 0 1 Scenario.metadataUpdated
           (Scenario.startFrom Scenario.dbWithProjectOne)).
  left. split; [reflexivity|].
  exists {| Indexer.protocol := 0; Indexer.pointer := "metadatacid" |}.
  split; [reflexivity|]. split; reflexivity.
Defined.

(** *** Votes *)

Section Voted.
Import Indexer Frame.
Local Open Scope handler_scope.

Variables (env : Snapshot) (chainId : Z) (event : Event) (st : State).

Lemma isApproved_true status :
  isApproved status = true -> status = Some (JStr "APPROVED").
Proof.
  destruct status as [[]|]; simpl; try discriminate.
  intros H. apply String.eqb_eq in H. by subst.
Qed.

(** The "Voted" case up to the validity check. *)
Lemma handleEvent_Voted now projectId roundAddress voter grantAddress :
  name event = "Voted" ->
  args event !! "projectId" = Some (VString projectId) ->
  args event !! "roundAddress" = Some (VString roundAddress) ->
  args event !! "voter" = Some (VString voter) ->
  args event !! "grantAddress" = Some (VString grantAddress) ->
  handleEvent env now chainId event st =
  match
    findOneWhere (fun project => String.eqb (Application.id project) projectId)
      (applicationsOf ("rounds/" ++ roundAddress ++ "/projects") (storage st)),
    findById Round.id roundAddress (rounds (storage st))
  with
  | Some application, Some round =>
      if isApproved (Application.status application) then
        (let* token := argString event "token" in
         let* amount := argBigNumber event "amount" in
         let* amountUSD :=
           convertToUSD env (toLowerCase token) amount chainId
             (Round.roundStartTime round * 1000 / 1000) (priceWindowEnd now round) in
         let vote :=
           {| Vote.id :=
                stringKeccak256
                  (transactionHash event ++ "-" ++ voter ++ "-" ++ grantAddress);
              Vote.token := token;
              Vote.voter := voter;
              Vote.grantAddress := grantAddress;
              Vote.amount := amount;
              Vote.amountUSD := amountUSD;
              Vote.fullProjectId := projectId;
              Vote.roundAddress := roundAddress;
              Vote.projectApplicationId := projectId ++ "-" ++ roundAddress |} in
         insertVote ("rounds/" ++ roundAddress ++ "/votes") vote;;
         insertVote ("rounds/" ++ roundAddress ++ "/projects/" ++ projectId ++ "/votes")
                    vote) st
      else (st, inr tt)
  | _, _ => (st, inr tt)
  end.
Proof.
  intros Hname Hproject Hround Hvoter Hgrant. dispatch Hname.
  unfold bind at 1, argString at 1. rewrite Hproject. unfold ret at 1.
  unfold bind at 1, argString at 1. rewrite Hround. unfold ret at 1.
  unfold bind at 1, argString at 1. rewrite Hvoter. unfold ret at 1.
  unfold bind at 1, argString at 1. rewrite Hgrant. unfold ret at 1.
  unfold bind at 1, get at 1.
  destruct (findOneWhere _ _) as [application|]; [|reflexivity].
  destruct (findById _ _ _) as [round|]; [|reflexivity].
  destruct (isApproved _); reflexivity.
Qed.
End Voted.

(** C9. A "Voted" event whose project application is not in the round's
    application collection, or is there with a status other than
    "APPROVED", or whose round is not in "rounds", makes [handleEvent] return
    normally with the state exactly as it was: no vote is inserted in either
    votes collection. *)
Theorem Voted_invalid_vote_changes_nothing
    (env : Indexer.Snapshot) (now chainId : Z) (event : Indexer.Event) (st : Indexer.State)
    (projectId roundAddress voter grantAddress : string) :
  Indexer.name event = "Voted" ->
  Indexer.args event !! "projectId" = Some (Indexer.VString projectId) ->
  Indexer.args event !! "roundAddress" = Some (Indexer.VString roundAddress) ->
  Indexer.args event !! "voter" = Some (Indexer.VString voter) ->
  Indexer.args event !! "grantAddress" = Some (Indexer.VString grantAddress) ->
  let projectApplication :=
    Indexer.findOneWhere
      (fun project => String.eqb (Indexer.Application.id project) projectId)
      (Indexer.applicationsOf ("rounds/" ++ roundAddress ++ "/projects")
                              (Indexer.storage st)) in
  let round :=
    Indexer.findById Indexer.Round.id roundAddress (Indexer.rounds (Indexer.storage st)) in
  (projectApplication = None \/
   (exists application,
      projectApplication = Some application /\
      Indexer.Application.status application <> Some (Indexer.JStr "APPROVED")) \/
   round = None) ->
  Indexer.handleEvent env now chainId event st = (st, inr tt).
Proof.
  intros Hname Hproject Hround Hvoter Hgrant projectApplication round Hinvalid.
  rewrite (handleEvent_Voted env chainId event st now projectId roundAddress voter grantAddress)
    by assumption.
  fold projectApplication. fold round.
  destruct Hinvalid as [Hnone|[[application [Hsome Hstatus]]|Hnone]].
  - rewrite Hnone. reflexivity.
  - rewrite Hsome. destruct round; [|reflexivity].
    destruct (Indexer.isApproved _) eqn:Happroved; [|reflexivity].
    apply isApproved_true in Happroved. contradiction.
  - rewrite Hnone. destruct projectApplication; reflexivity.
Qed.

Lemma Voted_invalid_vote_changes_nothing_witness :
  Indexer.handleEvent Scenario.risingPrices 1000 1 Scenario.voted
    (Scenario.startFrom Scenario.dbWithProjectOne)
  = (Scenario.startFrom Scenario.dbWithProjectOne, inr tt).
Proof.
  apply (Voted_invalid_vote_changes_nothing Scenario.risingPrices 1000 1 Scenario.voted
           (Scenario.startFrom Scenario.dbWithProjectOne)
           Scenario.projectOneId Scenario.addressFour
           Scenario.addressTwo Scenario.addressThree);
    try reflexivity.
  left. reflexivity.
Defined.

(** C3 (as the code has it). The handler reads the clock only in the "Voted"
    case, and there only through the end of the price window,
    [floor (min now (roundEndTime * 1000) / 1000)] of the round voted in: two
    runs of one event against one snapshot from one state agree for every
    event other than "Voted", and for a "Voted" event whenever the two clock
    readings give the same window end. *)
Theorem handleEvent_same_result_at_same_price_window
    (env : Indexer.Snapshot) (chainId : Z) (event : Indexer.Event) (st : Indexer.State)
    (now1 now2 : Z) :
  (Indexer.name event = "Voted" ->
   forall roundAddress round,
     Indexer.args event !! "roundAddress" = Some (Indexer.VString roundAddress) ->
     Indexer.findById Indexer.Round.id roundAddress (Indexer.rounds (Indexer.storage st))
       = Some round ->
     Frame.priceWindowEnd now1 round = Frame.priceWindowEnd now2 round) ->
  Indexer.handleEvent env now1 chainId event st =
  Indexer.handleEvent env now2 chainId event st.
Proof.
  intros Hwindow. unfold Indexer.handleEvent.
  repeat match goal with
  | |- (if String.eqb ?a ?b then _ else _) _ = _ =>
      destruct (String.eqb_spec a b) as [Hname|_];
      [first [reflexivity | revert Hname]|]
  end; [|reflexivity].
  intros Hname. specialize (Hwindow Hname).
  unfold Indexer.bind, Indexer.argString, Indexer.get, Indexer.ret.
  destruct (Indexer.args event !! "projectId") as [[]|]; try reflexivity.
  destruct (Indexer.args event !! "roundAddress") as [[| roundAddress |]|]; try reflexivity.
  destruct (Indexer.args event !! "voter") as [[]|]; try reflexivity.
  destruct (Indexer.args event !! "grantAddress") as [[]|]; try reflexivity.
  destruct (Indexer.findOneWhere _ _) as [application|]; [|reflexivity].
  destruct (Indexer.findById _ _ _) as [round|] eqn:Hround; [|reflexivity].
  destruct (Indexer.isApproved _); [|reflexivity].
  specialize (Hwindow roundAddress round eq_refl Hround).
  unfold Frame.priceWindowEnd in Hwindow. rewrite Hwindow. reflexivity.
Qed.

Lemma handleEvent_same_result_at_same_price_window_witness :
  Indexer.handleEvent Scenario.risingPrices 200000 1 Scenario.voted
    (Scenario.startFrom Scenario.dbWithOpenRound)
  = Indexer.handleEvent Scenario.risingPrices 900000 1 Scenario.voted
      (Scenario.startFrom Scenario.dbWithOpenRound).
Proof.
  apply (handleEvent_same_result_at_same_price_window Scenario.risingPrices 1
           Scenario.voted (Scenario.startFrom Scenario.dbWithOpenRound) 200000 900000).
  intros _ roundAddress round Haddress Hround.
  vm_compute in Haddress. inversion Haddress; subst roundAddress.
  vm_compute in Hround. inversion Hround; subst round.
  reflexivity.
Defined.

(** C3, the claim as written fails: one "Voted" event, one snapshot, one
    starting state, two clock readings while the round is open, two
    different sequences of storage calls. *)
Lemma handleEvent_depends_on_the_clock :
  Indexer.journal (fst (Indexer.handleEvent Scenario.risingPrices 1000 1 Scenario.voted
                          (Scenario.startFrom Scenario.dbWithOpenRound)))
  <> Indexer.journal (fst (Indexer.handleEvent Scenario.risingPrices 5000 1 Scenario.voted
                             (Scenario.startFrom Scenario.dbWithOpenRound))).
Proof. vm_compute. discriminate. Qed.

(** C2. Project 1 has the owners [addressTwo] and [addressThree];
    "OwnerRemoved" for [addressTwo] leaves [addressTwo] as its only owner:
    the callback keeps the owners equal to the removed address and drops the
    others. *)
Theorem OwnerRemoved_keeps_only_the_removed_owner :
  let st' := fst (Indexer.handleEvent Scenario.offline 0 1 Scenario.ownerRemoved
                    (Scenario.startFrom Scenario.dbWithProjectOne)) in
  Indexer.Project.owners Scenario.projectOne = [Scenario.addressTwo; Scenario.addressThree] /\
  map Indexer.Project.owners (Indexer.projects (Indexer.storage st')) = [[Scenario.addressTwo]].
Proof. vm_compute. split; reflexivity. Qed.



Lemma handleEvent_unhandled_name_is_noop_witness :
  Indexer.handleEvent Scenario.offline 0 1 Scenario.roleGranted
    (Scenario.startFrom Scenario.dbWithProjectOne)
  = (Scenario.startFrom Scenario.dbWithProjectOne, inr tt).
Proof.
  apply (handleEvent_unhandled_name_is_noop Scenario.offline 0 1 Scenario.roleGranted
           (Scenario.startFrom Scenario.dbWithProjectOne)).
  intros Hin. vm_compute in Hin.
  repeat (destruct Hin as [Hin|Hin]; [discriminate|]). exact Hin.
Defined.

(** *** The "OwnerAdded" and "OwnerRemoved" callbacks *)

Section Owners.
Import Indexer.
Local Open Scope handler_scope.

Lemma updateById_found {T I} `{EqDecision I} (getId : T -> I) i f docs d' docs' :
  updateById getId i f docs = Some (d', docs') ->
  exists before d after,
    docs = (before ++ d :: after)%list /\ getId d = i /\ d' = f d /\
    docs' = (before ++ f d :: after)%list /\
    Forall (fun x => getId x <> i) before.
Proof.
  revert d' docs'. induction docs as [|x docs IH]; intros d' docs' H; [discriminate|].
  simpl in H. case_bool_decide as Hx.
  - inversion H; subst. exists [], x, docs. repeat split; auto.
  - destruct (updateById getId i f docs) as [[d1 docs1]|] eqn:E; [|discriminate].
    inversion H; subst.
    destruct (IH _ _ eq_refl) as [before [d [after [-> [Hid [-> [-> Hbefore]]]]]]].
    exists (x :: before), d, after. repeat split; auto.
Qed.

(** After "OwnerRemoved" every owner left on the project is the removed
    address: the filter keeps the matches. *)
Lemma OwnerRemoved_keeps_the_matches env now chainId event st st' projectID owner :
  name event = "OwnerRemoved" ->
  args event !! "projectID" = Some (VBigNumber projectID) ->
  args event !! "owner" = Some (VString owner) ->
  Z.abs projectID < 2 ^ 53 ->
  is_Some (findById Project.id projectID (projects (storage st))) ->
  handleEvent env now chainId event st = (st', inr tt) ->
  exists before project after,
    projects (storage st) = (before ++ project :: after)%list /\
    Project.id project = projectID /\
    exists project',
      projects (storage st') = (before ++ project' :: after)%list /\
      Project.owners project' =
        List.filter (fun o => String.eqb o owner) (Project.owners project).
Proof.
  intros Hname Hid Howner Hsafe Hfound. dispatch Hname.
  unfold bind at 1, argBigNumber at 1. rewrite Hid. unfold ret at 1.
  unfold bind at 1. rewrite toNumber_safe by assumption.
  unfold bind at 1, argString at 1. rewrite Howner. unfold ret at 1.
  unfold updateProjectById, bind, get.
  destruct (updateById _ _ _ _) as [[p' l']|] eqn:Eupd.
  - intros H. inversion H; subst st'. simpl.
    destruct (updateById_found _ _ _ _ _ _ Eupd)
      as [before [d [after [Hdocs [Hd [Hp' [Hl' _]]]]]]].
    exists before, d, after. split; [assumption|]. split; [assumption|].
    eexists. split; [exact Hl'|]. reflexivity.
  - exfalso. destruct Hfound as [p Hp]. unfold findById in Hp.
    clear -Eupd Hp. induction (projects (storage st)) as [|x l IH]; [discriminate|].
    simpl in *. destruct (bool_decide (Project.id x = projectID)); [discriminate|].
    destruct (updateById Project.id projectID _ l) as [[]|]; [discriminate|]. auto.
Qed.
End Owners.

(** *** [fullProjectId] *)

Section FullProjectId.
Import Indexer.

(** The id the tests expect for project 1 of the registry at [addressOne]
    on chain 1. *)
Example fullProjectId_of_the_tests :
  fullProjectId 1 1 Scenario.addressOne = Some Scenario.projectOneId.
Proof. vm_compute. reflexivity. Qed.

Example keccak256_of_nothing :
  Keccak.hexlify (Keccak.keccak256 []) =
  "0xc5d2460186f7233c927e7db2dcc703c0e500b653ca82273b7bfad8045d85a470".
Proof. vm_compute. reflexivity. Qed.

Example fullProjectId_on_chains_1_and_10 :
  fullProjectId 1 1 Scenario.addressOne <> fullProjectId 10 1 Scenario.addressOne.
Proof. vm_compute. discriminate. Qed.

(** The id is defined for safe integers and every address [arrayify]
    accepts. *)
Lemma fullProjectId_defined chainId projectId registry bytes :
  Z.abs chainId < 2 ^ 53 - 1 -> Z.abs projectId < 2 ^ 53 - 1 ->
  Keccak.arrayify registry = Some bytes ->
  fullProjectId chainId projectId registry =
  Some (Keccak.hexlify (Keccak.keccak256
          (Keccak.packUint256 chainId ++ bytes ++ Keccak.packUint256 projectId))).
Proof.
  intros Hchain Hproject H. unfold fullProjectId, bigNumberFrom, MAX_SAFE. rewrite H.
  destruct (Z.ltb_spec (Z.abs chainId) (2 ^ 53 - 1)); [|lia].
  destruct (Z.ltb_spec (Z.abs projectId) (2 ^ 53 - 1)); [|lia].
  reflexivity.
Qed.

Lemma laneOfBytes_bytesOfLane n : forall l,
  0 <= l -> Keccak.laneOfBytes (Keccak.bytesOfLane n l) = l mod 256 ^ Z.of_nat n.
Proof.
  induction n as [|n IH]; intros l Hl.
  - simpl. by rewrite Z.mod_1_r.
  - cbn [Keccak.bytesOfLane Keccak.laneOfBytes].
    rewrite IH by (apply Z.div_pos; lia).
    rewrite Nat2Z.inj_succ, Z.pow_succ_r by lia.
    rewrite Z.rem_mul_r by lia. reflexivity.
Qed.

(** The hashed message carries the chain id: the packed encodings of two
    safe integers are equal only if the integers are. *)
Lemma packUint256_inj c1 c2 :
  Z.abs c1 < 2 ^ 53 - 1 -> Z.abs c2 < 2 ^ 53 - 1 ->
  Keccak.packUint256 c1 = Keccak.packUint256 c2 -> c1 = c2.
Proof.
  intros H1 H2 Hpack. unfold Keccak.packUint256 in Hpack.
  apply (f_equal (@rev Z)) in Hpack. rewrite !rev_involutive in Hpack.
  apply (f_equal Keccak.laneOfBytes) in Hpack.
  rewrite !laneOfBytes_bytesOfLane in Hpack by (apply Z.mod_pos_bound; lia).
  change (256 ^ Z.of_nat 32) with (2 ^ 256) in Hpack.
  rewrite !Z.mod_mod in Hpack by lia.
  assert (2 ^ 53 < 2 ^ 256) as Hbig by (apply Z.pow_lt_mono_r; lia).
  pose proof (Z.div_mod c1 (2 ^ 256) ltac:(lia)) as D1.
  pose proof (Z.div_mod c2 (2 ^ 256) ltac:(lia)) as D2.
  pose proof (Z.mod_pos_bound c1 (2 ^ 256) ltac:(lia)) as B1.
  rewrite Hpack in D1.
  assert (c1 / 2 ^ 256 = c2 / 2 ^ 256) as Hq by nia.
  rewrite Hq in D1. lia.
Qed.

Lemma packed_triple_carries_chainId c1 c2 bytes projectId :
  Z.abs c1 < 2 ^ 53 - 1 -> Z.abs c2 < 2 ^ 53 - 1 -> c1 <> c2 ->
  (Keccak.packUint256 c1 ++ bytes ++ Keccak.packUint256 projectId)%list
  <> (Keccak.packUint256 c2 ++ bytes ++ Keccak.packUint256 projectId)%list.
Proof.
  intros H1 H2 Hne Heq. apply Hne. apply packUint256_inj; try assumption.
  eapply app_inv_tail. exact Heq.
Qed.
End FullProjectId.

(** The "MetadataUpdated" and "OwnerAdded" scenarios on the same handler:
    the project document is updated in place. *)
Example MetadataUpdated_scenario :
  let st' := fst (Indexer.handleEvent Scenario.mocked 0 1 Scenario.metadataUpdated
                    (Scenario.startFrom Scenario.dbWithProjectOne)) in
  map (fun p => (Indexer.Project.metaPtr p, Indexer.Project.metadata p))
      (Indexer.projects (Indexer.storage st'))
  = [(Some "metadatacid", Some (Indexer.JObj [("some", Indexer.JStr "metadata")]))].
Proof. vm_compute. reflexivity. Qed.

Example MetadataUpdated_unknown_project_is_swallowed :
  Indexer.handleEvent Scenario.mocked 0 1 Scenario.metadataUpdated
    (Scenario.startFrom Scenario.emptyDb)
  = ({| Indexer.storage := Scenario.emptyDb;
        Indexer.cache :=
          {[ "ipfs-metadatacid" := Indexer.JObj [("some", Indexer.JStr "metadata")] ]};
        Indexer.subscriptions := [];
        Indexer.journal := [] |}, inr tt).
Proof. vm_compute. reflexivity. Qed.

Example OwnerAdded_scenario :
  let st' := fst (Indexer.handleEvent Scenario.offline 0 1 Scenario.ownerAdded
                    (Scenario.startFrom Scenario.dbWithProjectOne)) in
  map Indexer.Project.owners (Indexer.projects (Indexer.storage st'))
  = [[Scenario.addressTwo; Scenario.addressThree; Scenario.addressFour]].
Proof. vm_compute. reflexivity. Qed.

(** The "ProjectCreated" scenario of the tests, on the handler of
    [src/handleEvent.ts]. *)
Example ProjectCreated_scenario :
  Indexer.projects
    (Indexer.storage
       (fst (Indexer.handleEvent Scenario.offline 0 1 Scenario.projectCreated
               (Scenario.startFrom Scenario.emptyDb))))
  = [ {| Indexer.Project.fullId := Scenario.projectOneId;
         Indexer.Project.id := 1;
         Indexer.Project.metaPtr := None;
         Indexer.Project.metadata := None;
         Indexer.Project.votesUSD := 0%Q;
         Indexer.Project.votes := 0;
         Indexer.Project.owners := [Scenario.addressTwo] |} ].
Proof. vm_compute. reflexivity. Qed.

(* ===================================================================== *)
(** ** Properties of the role table                                       *)
(* ===================================================================== *)

Section RoleTable.
Import Roles.

(** Row by row: what a constant resolves to. *)
Lemma resolveRole_rows (c : Contract) (constant : string) :
  resolveRole c constant =
  if String.eqb zeroRole constant then Some (topRole c)
  else if String.eqb (secondaryConstant c) constant then Some (secondaryRole c)
  else None.
Proof.
  unfold resolveRole, roleTable.
  destruct c; cbn [find fst snd contract_eqb andb secondaryConstant topRole secondaryRole];
    destruct (String.eqb zeroRole constant); cbn [andb]; try reflexivity;
    destruct (String.eqb _ constant); reflexivity.
Qed.

Lemma resolveRole_zero (c : Contract) : resolveRole c zeroRole = Some (topRole c).
Proof. rewrite resolveRole_rows, String.eqb_refl. reflexivity. Qed.

Lemma secondaryConstant_not_zero (c : Contract) : secondaryConstant c <> zeroRole.
Proof. destruct c; discriminate. Qed.

Lemma resolveRole_secondary (c : Contract) :
  resolveRole c (secondaryConstant c) = Some (secondaryRole c).
Proof.
  rewrite resolveRole_rows, String.eqb_refl.
  destruct (String.eqb_spec zeroRole (secondaryConstant c)) as [H|_]; [|reflexivity].
  symmetry in H. by apply secondaryConstant_not_zero in H.
Qed.

(** Any other constant yields no mapping. *)
Lemma resolveRole_unknown (c : Contract) (constant : string) :
  constant <> zeroRole -> constant <> secondaryConstant c ->
  resolveRole c constant = None.
Proof.
  intros Hzero Hsecondary. rewrite resolveRole_rows.
  destruct (String.eqb_spec zeroRole constant); [congruence|].
  destruct (String.eqb_spec (secondaryConstant c) constant); [congruence|reflexivity].
Qed.

(** Only the secondary constant resolves to the secondary role. *)
Lemma resolveRole_secondary_inv (c : Contract) (constant : string) :
  resolveRole c constant = Some (secondaryRole c) -> constant = secondaryConstant c.
Proof.
  rewrite resolveRole_rows.
  destruct (String.eqb_spec zeroRole constant); [destruct c; discriminate|].
  destruct (String.eqb_spec (secondaryConstant c) constant); [congruence|discriminate].
Qed.
End RoleTable.

(** C5 (as the tests have it). For each of the three contracts the all-zero
    constant resolves to the top role (owner for programs, admin for rounds)
    and one further constant to the secondary role (member for programs,
    manager for rounds); that constant is one hash for the programs and
    another for the rounds, the same for round implementations V1 and V2;
    a RoleGranted event carrying either constant yields exactly the matching
    insert changeset. *)
Theorem role_table_coverage (e : Roles.RoleEvent) :
  let c := Roles.contract e in
  Roles.resolveRole c Roles.zeroRole = Some (Roles.topRole c) /\
  Roles.resolveRole c (Roles.secondaryConstant c) = Some (Roles.secondaryRole c) /\
  Roles.secondaryConstant c <> Roles.zeroRole /\
  Roles.secondaryConstant Roles.RoundImplementationV1
    = Roles.secondaryConstant Roles.RoundImplementationV2 /\
  Roles.secondaryConstant Roles.ProgramImplementationV1
    <> Roles.secondaryConstant Roles.RoundImplementationV1 /\
  Roles.handleRoleGranted (Roles.withRole e Roles.zeroRole)
    = inr [Roles.insertRole (Roles.withRole e Roles.zeroRole) (Roles.topRole c)] /\
  Roles.handleRoleGranted (Roles.withRole e (Roles.secondaryConstant c))
    = inr [Roles.insertRole (Roles.withRole e (Roles.secondaryConstant c))
                            (Roles.secondaryRole c)].
Proof.
  intros c.
  split; [apply resolveRole_zero|].
  split; [apply resolveRole_secondary|].
  split; [apply secondaryConstant_not_zero|].
  split; [reflexivity|].
  split; [discriminate|].
  unfold Roles.handleRoleGranted. cbn [Roles.withRole Roles.contract Roles.role].
  fold c. rewrite resolveRole_zero, resolveRole_secondary. split; reflexivity.
Qed.

(** C5, the claim as written fails: no choice of secondary constants that the
    table resolves to the secondary roles differs between round
    implementations V1 and V2. *)
Lemma round_manager_constant_is_not_version_specific :
  ~ exists secondary : Roles.Contract -> string,
      (forall c, Roles.resolveRole c (secondary c) = Some (Roles.secondaryRole c)) /\
      secondary Roles.RoundImplementationV1 <> secondary Roles.RoundImplementationV2.
Proof.
  intros [secondary [Hresolves Hdistinct]]. apply Hdistinct.
  rewrite (resolveRole_secondary_inv _ _ (Hresolves Roles.RoundImplementationV1)).
  rewrite (resolveRole_secondary_inv _ _ (Hresolves Roles.RoundImplementationV2)).
  reflexivity.
Qed.

(** C6. A RoleGranted or RoleRevoked event of a known contract whose role
    constant has no row in the table compiles successfully to the empty list
    of changesets. *)
Theorem unknown_role_constant_yields_no_changeset (e : Roles.RoleEvent) :
  Roles.resolveRole (Roles.contract e) (Roles.role e) = None ->
  Roles.handleRoleGranted e = inr [] /\ Roles.handleRoleRevoked e = inr [].
Proof.
  intros Hnone. unfold Roles.handleRoleGranted, Roles.handleRoleRevoked.
  rewrite Hnone. split; reflexivity.
Qed.

Lemma unknown_role_constant_yields_no_changeset_witness :
  Roles.handleRoleGranted
    (Roles.testEvent Roles.RoundImplementationV2 Roles.programMemberRole) = inr [] /\
  Roles.handleRoleRevoked
    (Roles.testEvent Roles.RoundImplementationV2 Roles.programMemberRole) = inr [].
Proof.
  apply (unknown_role_constant_yields_no_changeset
           (Roles.testEvent Roles.RoundImplementationV2 Roles.programMemberRole)).
  reflexivity.
Defined.

(** The role scenarios of [handleEvent.test.ts]. *)

Example RoleGranted_program_owner :
  Roles.handleRoleGranted (Roles.testEvent Roles.ProgramImplementationV1 Roles.zeroRole)
  = inr [Roles.InsertProjectRole 1 Scenario.addressFour Scenario.addressTwo Roles.owner 1].
Proof. reflexivity. Qed.

Example RoleGranted_program_member :
  Roles.handleRoleGranted
    (Roles.testEvent Roles.ProgramImplementationV1
       "0xaa630204f2780b6f080cc77cc0e9c0a5c21e92eb0c6771e709255dd27d6de132")
  = inr [Roles.InsertProjectRole 1 Scenario.addressFour Scenario.addressTwo Roles.member 1].
Proof. reflexivity. Qed.

Example RoleRevoked_program_member :
  Roles.handleRoleRevoked
    (Roles.testEvent Roles.ProgramImplementationV1
       "0xaa630204f2780b6f080cc77cc0e9c0a5c21e92eb0c6771e709255dd27d6de132")
  = inr [Roles.DeleteAllProjectRolesByRoleAndAddress 1 Scenario.addressFour
           Scenario.addressTwo Roles.member].
Proof. reflexivity. Qed.

Example RoleGranted_round_V1_admin :
  Roles.handleRoleGranted (Roles.testEvent Roles.RoundImplementationV1 Roles.zeroRole)
  = inr [Roles.InsertRoundRole 1 Scenario.addressFour Scenario.addressTwo Roles.admin 1].
Proof. reflexivity. Qed.

Example RoleGranted_round_V1_manager :
  Roles.handleRoleGranted
    (Roles.testEvent Roles.RoundImplementationV1
       "0xec61da14b5abbac5c5fda6f1d57642a264ebd5d0674f35852829746dfb8174a5")
  = inr [Roles.InsertRoundRole 1 Scenario.addressFour Scenario.addressTwo Roles.manager 1].
Proof. reflexivity. Qed.

Example RoleGranted_round_V2_manager :
  Roles.handleRoleGranted
    (Roles.testEvent Roles.RoundImplementationV2
       "0xec61da14b5abbac5c5fda6f1d57642a264ebd5d0674f35852829746dfb8174a5")
  = inr [Roles.InsertRoundRole 1 Scenario.addressFour Scenario.addressTwo Roles.manager 1].
Proof. reflexivity. Qed.

Example RoleRevoked_round_V1_manager :
  Roles.handleRoleRevoked
    (Roles.testEvent Roles.RoundImplementationV1
       "0xec61da14b5abbac5c5fda6f1d57642a264ebd5d0674f35852829746dfb8174a5")
  = inr [Roles.DeleteAllRoundRolesByRoleAndAddress 1 Scenario.addressFour
           Scenario.addressTwo Roles.manager].
Proof. reflexivity. Qed.

Example RoleRevoked_round_V2_admin :
  Roles.handleRoleRevoked (Roles.testEvent Roles.RoundImplementationV2 Roles.zeroRole)
  = inr [Roles.DeleteAllRoundRolesByRoleAndAddress 1 Scenario.addressFour
           Scenario.addressTwo Roles.admin].
Proof. reflexivity. Qed.

(* ===================================================================== *)
(** ** More properties of [handleEvent]                                   *)
(* ===================================================================== *)

Section GrowthRules.
Import Indexer Growth.
Local Open Scope handler_scope.

Lemma extends_refl st : extends st st.
Proof. repeat split; try reflexivity; intros c; reflexivity. Qed.

Lemma extends_trans st1 st2 st3 : extends st1 st2 -> extends st2 st3 -> extends st1 st3.
Proof.
  intros [Hc [Hs [Hj [Hp [Hr [Ha Hv]]]]]] [Hc' [Hs' [Hj' [Hp' [Hr' [Ha' Hv']]]]]].
  repeat split; try (etransitivity; eassumption).
  - intros c. etransitivity; [apply Ha|apply Ha'].
  - intros c. etransitivity; [apply Hv|apply Hv'].
Qed.

Lemma growing_ret {A} (a : A) : growing (ret a).
Proof. intros st st' r H. inversion H. apply extends_refl. Qed.

Lemma growing_throw {A} (e : Error) : growing (@throw A e).
Proof. intros st st' r H. inversion H. apply extends_refl. Qed.

Lemma growing_get : growing get.
Proof. intros st st' r H. inversion H. apply extends_refl. Qed.

Lemma growing_liftOption {A} (e : Error) (o : option A) : growing (liftOption e o).
Proof. destruct o; [apply growing_ret|apply growing_throw]. Qed.

Lemma growing_bind {A B} (m : M A) (k : A -> M B) :
  growing m -> (forall a, growing (k a)) -> growing (bind m k).
Proof.
  intros Hm Hk st st' r. unfold bind.
  destruct (m st) as [st1 [e|a]] eqn:Em; intros H.
  - inversion H; subst. eapply Hm; eassumption.
  - eapply extends_trans; [eapply Hm; eassumption|eapply Hk; eassumption].
Qed.

Lemma growing_catch {A} (m : M A) (h : Error -> M A) :
  growing m -> (forall e, growing (h e)) -> growing (catch m h).
Proof.
  intros Hm Hh st st' r. unfold catch.
  destruct (m st) as [st1 [e|a]] eqn:Em; intros H.
  - eapply extends_trans; [eapply Hm; eassumption|eapply Hh; eassumption].
  - inversion H; subst. eapply Hm; eassumption.
Qed.

Lemma growing_toNumber z : growing (toNumber z).
Proof. unfold toNumber. destruct (_ <? _); [apply growing_ret|apply growing_throw]. Qed.

Lemma growing_argBigNumber event k : growing (argBigNumber event k).
Proof.
  unfold argBigNumber. destruct (args event !! k) as [[]|];
    first [apply growing_ret|apply growing_throw].
Qed.

Lemma growing_argString event k : growing (argString event k).
Proof.
  unfold argString. destruct (args event !! k) as [[]|];
    first [apply growing_ret|apply growing_throw].
Qed.

Lemma growing_argMetaPtr event k : growing (argMetaPtr event k).
Proof.
  unfold argMetaPtr. destruct (args event !! k) as [[]|];
    first [apply growing_ret|apply growing_throw].
Qed.

Lemma growing_subscribe a abi b : growing (subscribe a abi b).
Proof.
  intros st st' r H. inversion H; subst. cbn.
  repeat split; try reflexivity; try (intros c; reflexivity).
  by apply prefix_app_r.
Qed.

Lemma growing_lazy key (e : Error) (o : option Json) :
  growing (lazy key (liftOption e o)).
Proof.
  intros st st' r. unfold lazy, bind, get.
  destruct (cache st !! key) eqn:Hmiss; [intros H; inversion H; apply extends_refl|].
  destruct o as [v|]; cbn; intros H; inversion H; subst; [|apply extends_refl].
  repeat split; try reflexivity; try (intros c; reflexivity).
  cbn. by apply insert_subseteq.
Qed.

Lemma growing_cachedIpfs env cid : growing (cachedIpfs env cid).
Proof. apply growing_lazy. Qed.

Lemma growing_convertToUSD env token amount chainId from to :
  growing (convertToUSD env token amount chainId from to).
Proof.
  unfold convertToUSD. apply growing_bind; [|intros; apply growing_ret].
  apply growing_lazy.
Qed.

Lemma growing_readContract {A} c f (o : option A) : growing (readContract c f o).
Proof. apply growing_liftOption. Qed.

Lemma applicationsOf_set c l db c' :
  applicationsOf c' (setApplications c l db) =
  if decide (c = c') then l else applicationsOf c' db.
Proof.
  unfold applicationsOf, setApplications. cbn.
  rewrite lookup_insert. by destruct (decide (c = c')).
Qed.

Lemma votesOf_set c l db c' :
  votesOf c' (setVotes c l db) = if decide (c = c') then l else votesOf c' db.
Proof.
  unfold votesOf, setVotes. cbn.
  rewrite lookup_insert. by destruct (decide (c = c')).
Qed.

(** A storage call extends the state when its effect on the database does. *)
Lemma extends_write (f : Db -> Db) (w : Write) st :
  map projectKey (projects (storage st))
    `prefix_of` map projectKey (projects (f (storage st))) ->
  rounds (storage st) `prefix_of` rounds (f (storage st)) ->
  (forall c, map applicationKey (applicationsOf c (storage st))
               `prefix_of` map applicationKey (applicationsOf c (f (storage st)))) ->
  (forall c, votesOf c (storage st) `prefix_of` votesOf c (f (storage st))) ->
  extends st (fst (write f w st)).
Proof.
  intros Hp Hr Ha Hv. unfold write, modify, extends. cbn [fst storage cache subscriptions journal].
  repeat split; try reflexivity; try assumption. by apply prefix_app_r.
Qed.

Lemma growing_insertProject p : growing (insertProject p).
Proof.
  intros st st' r H. unfold insertProject in H.
  replace st' with (fst (write (fun db => setProjects (projects db ++ [p]) db)
                           (Insert "projects" (DProject p)) st)) by (by rewrite H).
  apply extends_write; try reflexivity; try (intros c; reflexivity).
  cbn [projects setProjects]. rewrite map_app. by apply prefix_app_r.
Qed.

Lemma growing_insertRound x : growing (insertRound x).
Proof.
  intros st st' r H. unfold insertRound in H.
  replace st' with (fst (write (fun db => setRounds (rounds db ++ [x]) db)
                           (Insert "rounds" (DRound x)) st)) by (by rewrite H).
  apply extends_write; try reflexivity; try (intros c; reflexivity).
  cbn [rounds setRounds]. by apply prefix_app_r.
Qed.

Lemma growing_insertApplication c a : growing (insertApplication c a).
Proof.
  intros st st' r H. unfold insertApplication in H.
  replace st' with
    (fst (write (fun db => setApplications c (applicationsOf c db ++ [a]) db)
            (Insert c (DApplication a)) st)) by (by rewrite H).
  apply extends_write; try reflexivity; try (intros c'; reflexivity).
  intros c'. rewrite applicationsOf_set. destruct (decide (c = c')) as [->|]; [|reflexivity].
  rewrite map_app. by apply prefix_app_r.
Qed.

Lemma growing_insertVote c v : growing (insertVote c v).
Proof.
  intros st st' r H. unfold insertVote in H.
  replace st' with
    (fst (write (fun db => setVotes c (votesOf c db ++ [v]) db) (Insert c (DVote v)) st))
    by (by rewrite H).
  apply extends_write; try reflexivity; try (intros c'; reflexivity).
  intros c'. rewrite votesOf_set. destruct (decide (c = c')) as [->|]; [|reflexivity].
  by apply prefix_app_r.
Qed.

(** [updateById] with a callback that keeps a key keeps the keys in place. *)
Lemma updateById_keeps {T I K} `{EqDecision I} (getId : T -> I) (key : T -> K)
    (i : I) (f : T -> T) (docs : list T) d' docs' :
  (forall d, key (f d) = key d) ->
  updateById getId i f docs = Some (d', docs') ->
  map key docs' = map key docs.
Proof.
  intros Hkey. revert d' docs'.
  induction docs as [|x docs IH]; intros d' docs'; cbn [updateById]; [discriminate|].
  case_bool_decide as Hx.
  - intros H. inversion H; subst. cbn. by rewrite Hkey.
  - destruct (updateById getId i f docs) as [[d1 docs1]|]; [|discriminate].
    intros H. inversion H; subst. cbn. f_equal. eapply IH. reflexivity.
Qed.

Lemma growing_missingDocument env c : growing (missingDocument env c).
Proof.
  unfold missingDocument. destruct (updateByIdRejects env);
    [apply growing_throw|apply growing_ret].
Qed.

Lemma growing_updateProjectById env i f :
  (forall p, projectKey (f p) = projectKey p) ->
  growing (updateProjectById env i f).
Proof.
  intros Hkey st st' r. unfold updateProjectById, bind, get.
  destruct (updateById Project.id i f (projects (storage st))) as [[p' l']|] eqn:Hupd;
    [|apply growing_missingDocument].
  intros H.
  replace st' with (fst (write (setProjects l') (Update "projects" (DProject p')) st))
    by (by rewrite H).
  apply extends_write; try reflexivity; try (intros c; reflexivity).
  cbn [projects setProjects].
  by rewrite (updateById_keeps Project.id projectKey i f _ _ _ Hkey Hupd).
Qed.

Lemma growing_updateApplicationById env c i f :
  (forall a, applicationKey (f a) = applicationKey a) ->
  growing (updateApplicationById env c i f).
Proof.
  intros Hkey st st' r. unfold updateApplicationById, bind, get.
  destruct (updateById Application.id i f (applicationsOf c (storage st)))
    as [[a' l']|] eqn:Hupd; [|apply growing_missingDocument].
  intros H.
  replace st' with (fst (write (setApplications c l') (Update c (DApplication a')) st))
    by (by rewrite H).
  apply extends_write; try reflexivity; try (intros c'; reflexivity).
  intros c'. rewrite applicationsOf_set. destruct (decide (c = c')) as [->|]; [|reflexivity].
  by rewrite (updateById_keeps Application.id applicationKey i f _ _ _ Hkey Hupd).
Qed.

Lemma growing_updateApplicationStatus env c projectApp :
  growing (updateApplicationStatus env c projectApp).
Proof.
  unfold updateApplicationStatus.
  destruct (field "id" projectApp) as [[]|]; try apply growing_throw.
  apply growing_updateApplicationById. reflexivity.
Qed.

Lemma growing_forEach {A} (body : A -> M unit) (l : list A) :
  (forall x, growing (body x)) -> growing (forEach body l).
Proof.
  intros Hbody. induction l as [|x l IH]; cbn [forEach]; [apply growing_ret|].
  apply growing_bind; [apply Hbody|intros; apply IH].
Qed.
End GrowthRules.

Create HintDb growth discriminated.
#[export] Hint Resolve
  growing_ret growing_throw growing_get growing_liftOption growing_bind growing_catch
  growing_toNumber growing_argBigNumber growing_argString growing_argMetaPtr
  growing_subscribe growing_cachedIpfs growing_convertToUSD growing_readContract
  growing_insertProject growing_insertRound growing_insertApplication growing_insertVote
  growing_updateApplicationStatus growing_forEach : growth.

(** One step through a handler for [Growth.growing]. *)
Ltac growth_step :=
  lazymatch goal with
  | |- Growth.growing (Indexer.bind _ _) =>
      apply growing_bind; [|intros ?]
  | |- Growth.growing (Indexer.catch _ _) =>
      apply growing_catch; [|intros ?]
  | |- Growth.growing (Indexer.updateProjectById _ _ _) =>
      apply growing_updateProjectById; reflexivity
  | |- Growth.growing (match ?x with _ => _ end) => destruct x
  | |- Growth.growing _ => solve [eauto with growth]
  end.

Section HandleEventGrows.
Import Indexer Growth.
Local Open Scope handler_scope.

Lemma handleEvent_growing env now chainId event :
  growing (handleEvent env now chainId event).
Proof.
  unfold handleEvent.
  repeat match goal with
  | |- growing (if String.eqb ?a ?b then _ else _) => destruct (String.eqb a b)
  end; cbv zeta; repeat growth_step.
Qed.
End HandleEventGrows.

(** X1. No event makes the handler delete, move or re-identify a document:
    after any event, with any outcome, the projects are the projects of
    before in the same order with the same [id] and [fullId], followed by
    new ones; the same holds for the applications of every round (with
    their [id], [projectId] and [roundId]); rounds and votes are never
    modified once written. *)
Theorem handleEvent_keeps_every_document
    (env : Indexer.Snapshot) (now chainId : Z) (event : Indexer.Event) (st : Indexer.State) :
  let db := Indexer.storage st in
  let db' := Indexer.storage (fst (Indexer.handleEvent env now chainId event st)) in
  map Growth.projectKey (Indexer.projects db)
    `prefix_of` map Growth.projectKey (Indexer.projects db') /\
  Indexer.rounds db `prefix_of` Indexer.rounds db' /\
  (forall c, map Growth.applicationKey (Indexer.applicationsOf c db)
               `prefix_of` map Growth.applicationKey (Indexer.applicationsOf c db')) /\
  (forall c, Indexer.votesOf c db `prefix_of` Indexer.votesOf c db').
Proof.
  intros db db'.
  destruct (Indexer.handleEvent env now chainId event st) as [st' r] eqn:Hrun.
  destruct (handleEvent_growing env now chainId event st st' r Hrun)
    as [_ [_ [_ [Hp [Hr [Ha Hv]]]]]].
  subst db db'. cbn [fst]. auto.
Qed.

(** X2. The handler never evicts or overwrites a cache entry and never drops
    a subscription: after any event, with any outcome, every key cached
    before is still cached with the same value, and the subscriptions of
    before are still there, in order. *)
Theorem handleEvent_keeps_cache_and_subscriptions
    (env : Indexer.Snapshot) (now chainId : Z) (event : Indexer.Event) (st : Indexer.State) :
  let st' := fst (Indexer.handleEvent env now chainId event st) in
  (forall key value, Indexer.cache st !! key = Some value ->
                     Indexer.cache st' !! key = Some value) /\
  Indexer.subscriptions st `prefix_of` Indexer.subscriptions st'.
Proof.
  intros st'.
  destruct (Indexer.handleEvent env now chainId event st) as [st1 r] eqn:Hrun.
  destruct (handleEvent_growing env now chainId event st st1 r Hrun) as [Hc [Hs _]].
  subst st'. cbn [fst]. split; [|assumption].
  intros key value Hkey. eapply lookup_weaken; eassumption.
Qed.

Section CachedIpfs.
Import Indexer.
Local Open Scope handler_scope.

Lemma cachedIpfs_hit env cid st v :
  cache st !! ("ipfs-" ++ cid) = Some v -> cachedIpfs env cid st = (st, inr v).
Proof. intros H. unfold cachedIpfs, lazy, bind, get. by rewrite H. Qed.

Lemma cachedIpfs_result env cid st st' r :
  cachedIpfs env cid st = (st', r) ->
  match r with
  | inr v => cache st' !! ("ipfs-" ++ cid) = Some v /\ storage st' = storage st /\
             subscriptions st' = subscriptions st /\ journal st' = journal st
  | inl e => st' = st /\ e = ContentFetchFailure cid /\
             cache st !! ("ipfs-" ++ cid) = None /\ ipfs env cid = None
  end.
Proof.
  unfold cachedIpfs, lazy, bind, get.
  destruct (cache st !! ("ipfs-" ++ cid)) as [v|] eqn:Hcache.
  - intros H. inversion H; subst. auto.
  - destruct (ipfs env cid) as [v|]; cbn; intros H; inversion H; subst; cbn; [|auto].
    split; [apply lookup_insert_eq|auto].
Qed.
End CachedIpfs.



(** X4. "RoundCreated" subscribes to the round before it reads anything: with
    any outcome, also when a read or the fetch fails and no round is
    stored, the subscription to the round from the event's block has been
    added; handling the event again adds it again. *)
Theorem RoundCreated_subscribes_whatever_follows
    (env : Indexer.Snapshot) (now chainId : Z) (event : Indexer.Event) (st st' : Indexer.State)
    (r : Indexer.Error + unit) (roundAddress : string) :
  Indexer.name event = "RoundCreated" ->
  Indexer.args event !! "roundAddress" = Some (Indexer.VString roundAddress) ->
  Indexer.handleEvent env now chainId event st = (st', r) ->
  Indexer.subscriptions st' =
    (Indexer.subscriptions st ++
     [{| Indexer.sub_address := roundAddress;
         Indexer.sub_abi := "RoundImplementation";
         Indexer.sub_fromBlock := Indexer.blockNumber event |}])%list.
Proof.
  intros Hname Haddr. dispatch Hname.
  unfold Indexer.bind at 1, Indexer.argString at 1. rewrite Haddr. unfold Indexer.ret at 1.
  unfold Indexer.bind at 1, Indexer.subscribe at 1, Indexer.modify at 1.
  set (st1 := {| Indexer.storage := _; Indexer.cache := _;
                 Indexer.subscriptions := _; Indexer.journal := _ |}).
  assert (Indexer.subscriptions st1 =
          (Indexer.subscriptions st ++
           [{| Indexer.sub_address := roundAddress;
               Indexer.sub_abi := "RoundImplementation";
               Indexer.sub_fromBlock := Indexer.blockNumber event |}])%list) as <-
    by reflexivity.
  clearbody st1.
  unfold Indexer.bind at 1, Indexer.readContract at 1.
  destruct (Indexer.readApplicationMetaPtr env roundAddress) as [p|];
    [|intros H; by inversion H].
  unfold Indexer.liftOption at 1, Indexer.ret at 1. unfold Indexer.bind at 1.
  destruct (Indexer.cachedIpfs env (Indexer.pointer p) st1) as [st2 [e|metadata]] eqn:Hipfs;
    apply cachedIpfs_result in Hipfs.
  { destruct Hipfs as [-> _]. intros H; by inversion H. }
  destruct Hipfs as [_ [_ [<- _]]].
  unfold Indexer.bind, Indexer.readContract, Indexer.liftOption, Indexer.ret,
    Indexer.throw, Indexer.argString, Indexer.insertRound, Indexer.write, Indexer.modify.
  repeat match goal with
  | |- context [match ?o with Some _ => _ | None => _ end] =>
      destruct o as [?|]; try (intros H; by inversion H)
  end.
  destruct v; intros H; by inversion H.
Qed.

Lemma RoundCreated_subscribes_whatever_follows_witness :
  Indexer.subscriptions
    (fst (Indexer.handleEvent Scenario.offline 0 1 HandlerScenario.roundCreated
            (Scenario.startFrom Scenario.emptyDb)))
  = [{| Indexer.sub_address := Scenario.addressTwo;
        Indexer.sub_abi := "RoundImplementation";
        Indexer.sub_fromBlock := 1 |}].
Proof.
  apply (RoundCreated_subscribes_whatever_follows Scenario.offline 0 1
           HandlerScenario.roundCreated (Scenario.startFrom Scenario.emptyDb) _
           (snd (Indexer.handleEvent Scenario.offline 0 1 HandlerScenario.roundCreated
                   (Scenario.startFrom Scenario.emptyDb)))
           Scenario.addressTwo);
    reflexivity.
Defined.

Section ProjectUpdates.
Import Indexer.
Local Open Scope handler_scope.

Lemma updateById_missing {T I} `{EqDecision I} (getId : T -> I) i f (docs : list T) :
  findById getId i docs = None -> updateById getId i f docs = None.
Proof.
  unfold findById. induction docs as [|x docs IH]; cbn [find updateById]; [reflexivity|].
  destruct (bool_decide (getId x = i)); [discriminate|].
  intros H. by rewrite IH.
Qed.

Lemma updateById_present {T I} `{EqDecision I} (getId : T -> I) i f (docs : list T) d :
  findById getId i docs = Some d ->
  exists before after,
    docs = (before ++ d :: after)%list /\
    Forall (fun x => getId x <> i) before /\
    updateById getId i f docs = Some (f d, (before ++ f d :: after)%list).
Proof.
  unfold findById. induction docs as [|x docs IH]; cbn [find updateById]; [discriminate|].
  case_bool_decide as Hx.
  - intros H. inversion H; subst. exists [], docs. repeat split. constructor.
  - intros H. destruct (IH H) as [before [after [-> [Hbefore ->]]]].
    exists (x :: before), after. repeat split. by constructor.
Qed.
End ProjectUpdates.

(** X5. "MetadataUpdated" never fails for want of the project: once the
    metadata is fetched (or cached) and the project number fits a JS
    number, the handler returns normally. If a project has the id, the
    first such document gets the pointer as [metaPtr] and the document as
    [metadata] and keeps its other fields, and no other document changes;
    if none has, the error of the storage is swallowed and the storage is
    left as it was, whether [updateById] rejects or not. *)
Theorem MetadataUpdated_updates_or_swallows
    (env : Indexer.Snapshot) (now chainId : Z) (event : Indexer.Event)
    (st st1 : Indexer.State) (projectID : Z) (metaPtr : Indexer.MetaPtr)
    (metadata : Indexer.Json) :
  Indexer.name event = "MetadataUpdated" ->
  Indexer.args event !! "metaPtr" = Some (Indexer.VMetaPtr metaPtr) ->
  Indexer.args event !! "projectID" = Some (Indexer.VBigNumber projectID) ->
  Z.abs projectID < 2 ^ 53 ->
  Indexer.cachedIpfs env (Indexer.pointer metaPtr) st = (st1, inr metadata) ->
  exists st',
    Indexer.handleEvent env now chainId event st = (st', inr tt) /\
    Indexer.cache st' = Indexer.cache st1 /\
    match Indexer.findById Indexer.Project.id projectID (Indexer.projects (Indexer.storage st))
    with
    | None => Indexer.storage st' = Indexer.storage st
    | Some project =>
        exists before after,
          Indexer.projects (Indexer.storage st) = (before ++ project :: after)%list /\
          Forall (fun p => Indexer.Project.id p <> projectID) before /\
          Indexer.storage st' =
          Indexer.setProjects
            (before ++
             {| Indexer.Project.fullId := Indexer.Project.fullId project;
                Indexer.Project.id := Indexer.Project.id project;
                Indexer.Project.metaPtr := Some (Indexer.pointer metaPtr);
                Indexer.Project.metadata := Some metadata;
                Indexer.Project.votesUSD := Indexer.Project.votesUSD project;
                Indexer.Project.votes := Indexer.Project.votes project;
                Indexer.Project.owners := Indexer.Project.owners project |} :: after)%list
            (Indexer.storage st)
    end.
Proof.
  intros Hname Hptr Hid Hsafe Hfetch. dispatch Hname.
  unfold Indexer.bind at 1, Indexer.argMetaPtr at 1. rewrite Hptr. unfold Indexer.ret at 1.
  unfold Indexer.bind at 1. rewrite Hfetch.
  apply cachedIpfs_result in Hfetch as [_ [Hstorage _]].
  unfold Indexer.catch, Indexer.bind, Indexer.argBigNumber. rewrite Hid.
  unfold Indexer.ret at 1. rewrite toNumber_safe by assumption.
  unfold Indexer.updateProjectById, Indexer.bind, Indexer.get. rewrite Hstorage.
  destruct (Indexer.findById Indexer.Project.id projectID
              (Indexer.projects (Indexer.storage st))) as [project|] eqn:Hfind.
  - destruct (updateById_present Indexer.Project.id projectID
                (fun project =>
                   {| Indexer.Project.fullId := Indexer.Project.fullId project;
                      Indexer.Project.id := Indexer.Project.id project;
                      Indexer.Project.metaPtr := Some (Indexer.pointer metaPtr);
                      Indexer.Project.metadata := Some metadata;
                      Indexer.Project.votesUSD := Indexer.Project.votesUSD project;
                      Indexer.Project.votes := Indexer.Project.votes project;
                      Indexer.Project.owners := Indexer.Project.owners project |})
                _ _ Hfind) as [before [after [Hdocs [Hbefore Hupd]]]].
    rewrite Hupd. eexists. split; [reflexivity|]. cbn.
    split; [reflexivity|]. exists before, after. rewrite Hstorage. auto.
  - rewrite (updateById_missing _ _ _ _ Hfind).
    unfold Indexer.missingDocument.
    destruct (Indexer.updateByIdRejects env); cbn;
      rewrite ?toNumber_safe by assumption;
      eexists; (split; [reflexivity|]); cbn; auto.
Qed.

Lemma MetadataUpdated_updates_or_swallows_witness :
  exists st',
    Indexer.handleEvent Scenario.mocked 0 1 Scenario.metadataUpdated
      (Scenario.startFrom Scenario.emptyDb) = (st', inr tt) /\
    Indexer.cache st' =
      Indexer.cache (fst (Indexer.cachedIpfs Scenario.mocked "metadatacid"
                            (Scenario.startFrom Scenario.emptyDb))) /\
    Indexer.storage st' = Scenario.emptyDb.
Proof.
  apply (MetadataUpdated_updates_or_swallows Scenario.mocked 0 1 Scenario.metadataUpdated
           (Scenario.startFrom Scenario.emptyDb)
           (fst (Indexer.cachedIpfs Scenario.mocked "metadatacid"
                   (Scenario.startFrom Scenario.emptyDb)))
           1 {| Indexer.protocol := 0; Indexer.pointer := "metadatacid" |}
           (Indexer.JObj [("some", Indexer.JStr "metadata")]));
    reflexivity.
Defined.



Section Votes.
Import Indexer.
Local Open Scope handler_scope.

Lemma find_app_miss {A} (p : A -> bool) (l : list A) (x : A) :
  find p l = None -> find p (l ++ [x]) = if p x then Some x else None.
Proof.
  induction l as [|y l IH]; cbn [find app]; [reflexivity|].
  destruct (p y); [discriminate|assumption].
Qed.

(** The "NewProjectApplication" case. *)
Lemma handleEvent_NewProjectApplication env now chainId event st project :
  name event = "NewProjectApplication" ->
  args event !! "project" = Some (VString project) ->
  handleEvent env now chainId event st =
  insertApplication ("rounds/" ++ address event ++ "/projects")
    {| Application.id := project;
       Application.projectId :=
         Project.id <$>
           findOneWhere (fun p => String.eqb (Project.fullId p) project)
                        (projects (storage st));
       Application.roundId := address event;
       Application.status := Some JNull;
       Application.payoutAddress := None |} st.
Proof.
  intros Hname Hproject. dispatch Hname.
  unfold bind at 1, argString at 1. rewrite Hproject. reflexivity.
Qed.

Lemma append_inj_l (p a b : string) : p ++ a = p ++ b -> a = b.
Proof.
  induction p as [|c p IH]; cbn [append]; [auto|]. intros H. inversion H. auto.
Qed.

(** The two collections a vote goes to are different collections. *)
Lemma votes_collections_differ roundAddress projectId :
  "rounds/" ++ roundAddress ++ "/votes"
  <> "rounds/" ++ roundAddress ++ "/projects/" ++ projectId ++ "/votes".
Proof.
  intros H. do 2 apply append_inj_l in H. discriminate.
Qed.
End Votes.





Section ApplicationsFile.
Import Indexer Growth.
Local Open Scope handler_scope.

Lemma forEach_app {A} (body : A -> M unit) (l1 l2 : list A) st :
  forEach body (l1 ++ l2) st =
  match forEach body l1 st with
  | (st', inr _) => forEach body l2 st'
  | (st', inl e) => (st', inl e)
  end.
Proof.
  revert st. induction l1 as [|x l1 IH]; intros st; cbn [forEach app]; [reflexivity|].
  unfold bind. destruct (body x st) as [st1 [e|[]]]; [reflexivity|apply IH].
Qed.

(** The loop body reads and writes the storage only: the cache is carried
    along. *)
Lemma updateApplicationStatus_withCache env env' c projectApp st k :
  updateByIdRejects env = updateByIdRejects env' ->
  updateApplicationStatus env' c projectApp (withCache k st) =
  (withCache k (fst (updateApplicationStatus env c projectApp st)),
   snd (updateApplicationStatus env c projectApp st)).
Proof.
  intros Hrejects. unfold updateApplicationStatus.
  destruct (field "id" projectApp) as [[| | |i| |]|]; try reflexivity.
  unfold updateApplicationById, bind, get. cbn [storage withCache].
  destruct (updateById _ _ _ _) as [[a' l']|]; [reflexivity|].
  unfold missingDocument. rewrite Hrejects.
  destruct (updateByIdRejects env'); reflexivity.
Qed.

Lemma forEach_withCache env env' c (l : list Json) : forall st k,
  updateByIdRejects env = updateByIdRejects env' ->
  forEach (updateApplicationStatus env' c) l (withCache k st) =
  (withCache k (fst (forEach (updateApplicationStatus env c) l st)),
   snd (forEach (updateApplicationStatus env c) l st)).
Proof.
  induction l as [|x l IH]; intros st k Hrejects; cbn [forEach]; [reflexivity|].
  unfold bind. rewrite (updateApplicationStatus_withCache env env') by assumption.
  destruct (updateApplicationStatus env c x st) as [st1 [e|[]]]; cbn [fst snd];
    [reflexivity|]. by apply IH.
Qed.

(** The "ProjectsMetaPtrUpdated" case when the file is fetched and is an
    array. *)
Lemma handleEvent_ProjectsMetaPtrUpdated env now chainId event st metaPtr entries :
  name event = "ProjectsMetaPtrUpdated" ->
  args event !! "newMetaPtr" = Some (VMetaPtr metaPtr) ->
  cache st !! ("ipfs-" ++ pointer metaPtr) = None ->
  ipfs env (pointer metaPtr) = Some (JArr entries) ->
  handleEvent env now chainId event st =
  forEach (updateApplicationStatus env ("rounds/" ++ address event ++ "/projects")) entries
    (withCache (<["ipfs-" ++ pointer metaPtr := JArr entries]> (cache st)) st).
Proof.
  intros Hname Hptr Hmiss Hfile. dispatch Hname.
  unfold bind at 1, argMetaPtr at 1. rewrite Hptr. unfold ret at 1.
  unfold bind at 1. unfold cachedIpfs, lazy, bind, get. rewrite Hmiss, Hfile. reflexivity.
Qed.
End ApplicationsFile.

(** X9. "ProjectsMetaPtrUpdated" is not all-or-nothing: when an entry of the
    file has no string [id], the event fails with a TypeError at that entry,
    and the updates of the entries before it stay in the storage, exactly as
    if the file had ended there; the entries after it are not applied. *)
Theorem ProjectsMetaPtrUpdated_keeps_the_updates_before_a_bad_entry
    (env truncated : Indexer.Snapshot) (now chainId : Z) (event : Indexer.Event)
    (st st2 : Indexer.State) (metaPtr : Indexer.MetaPtr)
    (entries later : list Indexer.Json) (bad : Indexer.Json) :
  Indexer.name event = "ProjectsMetaPtrUpdated" ->
  Indexer.args event !! "newMetaPtr" = Some (Indexer.VMetaPtr metaPtr) ->
  Indexer.cache st !! ("ipfs-" ++ Indexer.pointer metaPtr) = None ->
  Indexer.ipfs env (Indexer.pointer metaPtr)
    = Some (Indexer.JArr (entries ++ bad :: later)) ->
  (forall i, Indexer.field "id" bad <> Some (Indexer.JStr i)) ->
  Indexer.ipfs truncated (Indexer.pointer metaPtr) = Some (Indexer.JArr entries) ->
  Indexer.updateByIdRejects truncated = Indexer.updateByIdRejects env ->
  Indexer.handleEvent truncated now chainId event st = (st2, inr tt) ->
  exists st1,
    Indexer.handleEvent env now chainId event st = (st1, inl Indexer.TypeError) /\
    Indexer.storage st1 = Indexer.storage st2 /\
    Indexer.journal st1 = Indexer.journal st2.
Proof.
  intros Hname Hptr Hmiss Hfile Hbad Hshort Hrejects Hrun.
  rewrite (handleEvent_ProjectsMetaPtrUpdated truncated now chainId event st metaPtr entries)
    in Hrun by assumption.
  rewrite (handleEvent_ProjectsMetaPtrUpdated env now chainId event st metaPtr
             (entries ++ bad :: later)) by assumption.
  set (c := "rounds/" ++ Indexer.address event ++ "/projects") in *.
  set (k := <["ipfs-" ++ Indexer.pointer metaPtr :=
               Indexer.JArr (entries ++ bad :: later)]> (Indexer.cache st)).
  rewrite forEach_app.
  change (Growth.withCache k st) with (Growth.withCache k
    (Growth.withCache (<["ipfs-" ++ Indexer.pointer metaPtr := Indexer.JArr entries]>
                         (Indexer.cache st)) st)).
  rewrite (forEach_withCache truncated env c entries) by assumption.
  rewrite Hrun. cbn [fst snd Indexer.forEach].
  unfold Indexer.bind, Indexer.updateApplicationStatus.
  destruct (Indexer.field "id" bad) as [[| | |i| |]|] eqn:Hid;
    try (eexists; split; [reflexivity|split; reflexivity]).
  exfalso. by apply (Hbad i).
Qed.

Lemma ProjectsMetaPtrUpdated_keeps_the_updates_before_a_bad_entry_witness :
  exists st1,
    Indexer.handleEvent HandlerScenario.withApplications 0 1
      HandlerScenario.projectsMetaPtrUpdated
      (Scenario.startFrom HandlerScenario.dbWithPendingApplication)
    = (st1, inl Indexer.TypeError) /\
    Indexer.storage st1 =
      Indexer.storage
        (fst (Indexer.handleEvent HandlerScenario.truncatedFile 0 1
                HandlerScenario.projectsMetaPtrUpdated
                (Scenario.startFrom HandlerScenario.dbWithPendingApplication))) /\
    Indexer.journal st1 =
      Indexer.journal
        (fst (Indexer.handleEvent HandlerScenario.truncatedFile 0 1
                HandlerScenario.projectsMetaPtrUpdated
                (Scenario.startFrom HandlerScenario.dbWithPendingApplication))).
Proof.
  apply (ProjectsMetaPtrUpdated_keeps_the_updates_before_a_bad_entry
           HandlerScenario.withApplications HandlerScenario.truncatedFile 0 1
           HandlerScenario.projectsMetaPtrUpdated
           (Scenario.startFrom HandlerScenario.dbWithPendingApplication) _
           {| Indexer.protocol := 1; Indexer.pointer := "applications-cid" |}
           [Indexer.JObj [("id", Indexer.JStr (Scenario.projectOneId ++ "-" ++ Scenario.addressFour));
                          ("status", Indexer.JStr "APPROVED");
                          ("payoutAddress", Indexer.JStr Scenario.addressThree)]]
           []
           (Indexer.JObj [("status", Indexer.JStr "REJECTED")]));
    try reflexivity.
  intros i. vm_compute. discriminate.
Defined.

Section Ids.
Import Indexer Keccak.

Lemma hexValue_lowerChar c v : hexValue c = Some v -> hexValue (lowerChar c) = Some v.
Proof.
  destruct c as [[] [] [] [] [] [] [] []]; vm_compute; intros H;
    first [discriminate H | exact H].
Qed.

Lemma bytesOfHex_toLowerCase (n : nat) : forall s bs,
  (String.length s <= n)%nat ->
  bytesOfHex s = Some bs -> bytesOfHex (toLowerCase s) = Some bs.
Proof.
  induction n as [|n IH]; intros [|hi [|lo rest]] bs Hlen H;
    cbn [String.length] in Hlen; try lia; try exact H; try discriminate H.
  cbn [bytesOfHex toLowerCase] in *.
  destruct (hexValue hi) as [h|] eqn:Hhi; [|discriminate H].
  destruct (hexValue lo) as [l|] eqn:Hlo; [|discriminate H].
  destruct (bytesOfHex rest) as [tl|] eqn:Hrest; [|discriminate H].
  rewrite (hexValue_lowerChar _ _ Hhi), (hexValue_lowerChar _ _ Hlo).
  rewrite (IH rest tl); [exact H|lia|exact Hrest].
Qed.

Lemma arrayify_toLowerCase s bs :
  arrayify s = Some bs -> arrayify (toLowerCase s) = Some bs.
Proof.
  destruct s as [|c0 [|c1 rest]]; try discriminate.
  - destruct c0 as [[] [] [] [] [] [] [] []]; discriminate.
  - intros H.
    destruct c0 as [[] [] [] [] [] [] [] []]; try discriminate H.
    destruct c1 as [[] [] [] [] [] [] [] []]; try discriminate H.
    cbn in H |- *. by apply (bytesOfHex_toLowerCase (String.length rest)).
Qed.

Lemma hexDigit_lower n : lowerChar (hexDigit n) = hexDigit n.
Proof.
  unfold hexDigit. generalize (Z.to_nat n). intros k.
  do 17 (destruct k as [|k]; [reflexivity|]). destruct k; reflexivity.
Qed.

Lemma hexOfBytes_lower bs : toLowerCase (hexOfBytes bs) = hexOfBytes bs.
Proof.
  induction bs as [|b bs IH]; [reflexivity|].
  cbn [hexOfBytes toLowerCase]. by rewrite !hexDigit_lower, IH.
Qed.

Lemma hexOfBytes_length bs : String.length (hexOfBytes bs) = (2 * length bs)%nat.
Proof. induction bs as [|b bs IH]; cbn [hexOfBytes String.length length]; lia. Qed.

Lemma hexlify_length bs : String.length (hexlify bs) = (2 + 2 * length bs)%nat.
Proof.
  unfold hexlify.
  change ("0x" ++ hexOfBytes bs) with (String "0" (String "x" (hexOfBytes bs))).
  cbn [String.length]. by rewrite hexOfBytes_length.
Qed.

Lemma hexlify_lower bs : toLowerCase (hexlify bs) = hexlify bs.
Proof.
  unfold hexlify.
  change ("0x" ++ hexOfBytes bs) with (String "0" (String "x" (hexOfBytes bs))).
  cbn [toLowerCase]. by rewrite hexOfBytes_lower.
Qed.

Lemma keccakRound_length st rc : length (keccakRound st rc) = 25%nat.
Proof.
  unfold keccakRound, chi. set (f := fun '(x, y) => _).
  change (map f coords) with
    (map f [(0,0);(1,0);(2,0);(3,0);(4,0);(0,1);(1,1);(2,1);(3,1);(4,1);
            (0,2);(1,2);(2,2);(3,2);(4,2);(0,3);(1,3);(2,3);(3,3);(4,3);
            (0,4);(1,4);(2,4);(3,4);(4,4)]%nat).
  reflexivity.
Qed.

Lemma keccakF_length st : length (keccakF st) = 25%nat.
Proof.
  unfold keccakF.
  change roundConstants with ((List.removelast roundConstants ++ [List.last roundConstants 0])%list).
  rewrite fold_left_app. cbn [fold_left]. apply keccakRound_length.
Qed.

Lemma absorb_length n : forall st bs,
  length st = 25%nat -> length (absorb n st bs) = 25%nat.
Proof.
  induction n as [|n IH]; intros st bs Hst; cbn [absorb]; [exact Hst|].
  apply IH, keccakF_length.
Qed.

Lemma keccak256_length msg : length (keccak256 msg) = 32%nat.
Proof.
  unfold keccak256.
  pose proof (absorb_length (length (pad msg) / rateBytes) (repeat 0 25) (pad msg)
                eq_refl) as Hlen.
  destruct (absorb _ _ _) as [|a [|b [|c [|d st]]]]; try discriminate Hlen.
  reflexivity.
Qed.
End Ids.

(** X10. The project id does not depend on the letter case of the registry
    address: an address and its lower-cased spelling (a checksummed and a
    plain address, say) give the same id. *)
Theorem fullProjectId_ignores_the_case_of_the_address
    (projectChainId projectId : Z) (projectRegistryAddress i : string) :
  Indexer.fullProjectId projectChainId projectId projectRegistryAddress = Some i ->
  Indexer.fullProjectId projectChainId projectId
    (Indexer.toLowerCase projectRegistryAddress) = Some i.
Proof.
  unfold Indexer.fullProjectId. intros H.
  destruct (Indexer.bigNumberFrom projectChainId) as [chain|]; [|discriminate H].
  destruct (Keccak.arrayify projectRegistryAddress) as [bs|] eqn:Haddr; [|discriminate H].
  by rewrite (arrayify_toLowerCase _ _ Haddr).
Qed.

Lemma fullProjectId_ignores_the_case_of_the_address_witness :
  exists i,
    Indexer.fullProjectId 1 1 "0xAbCdEf0000000000000000000000000000000001" = Some i /\
    Indexer.fullProjectId 1 1
      (Indexer.toLowerCase "0xAbCdEf0000000000000000000000000000000001") = Some i.
Proof.
  eexists. split; [vm_compute; reflexivity|].
  apply (fullProjectId_ignores_the_case_of_the_address 1 1
           "0xAbCdEf0000000000000000000000000000000001").
  vm_compute. reflexivity.
Defined.

(** X11. A project id, when there is one, is 66 characters long: "0x" followed
    by 64 hex digits, none of them upper case, so that lower-casing an id
    changes nothing. *)
Theorem fullProjectId_is_a_lower_case_hash
    (projectChainId projectId : Z) (projectRegistryAddress i : string) :
  Indexer.fullProjectId projectChainId projectId projectRegistryAddress = Some i ->
  String.length i = 66%nat /\
  Indexer.toLowerCase i = i /\
  exists digits, i = "0x" ++ digits.
Proof.
  unfold Indexer.fullProjectId. intros H.
  destruct (Indexer.bigNumberFrom projectChainId) as [chain|]; [|discriminate H].
  destruct (Keccak.arrayify projectRegistryAddress) as [bs|]; [|discriminate H].
  destruct (Indexer.bigNumberFrom projectId) as [number|]; [|discriminate H].
  injection H as <-. split; [|split].
  - by rewrite hexlify_length, keccak256_length.
  - apply hexlify_lower.
  - eexists. reflexivity.
Qed.

Lemma fullProjectId_is_a_lower_case_hash_witness :
  String.length Scenario.projectOneId = 66%nat /\
  Indexer.toLowerCase Scenario.projectOneId = Scenario.projectOneId /\
  exists digits, Scenario.projectOneId = "0x" ++ digits.
Proof.
  apply (fullProjectId_is_a_lower_case_hash 1 1 Scenario.addressOne).
  vm_compute. reflexivity.
Defined.

Section LastEntry.
Import Indexer Growth.
Local Open Scope handler_scope.

Lemma beforeDash_app (p r : string) :
  dashFree p = true -> beforeDash (p ++ "-" ++ r) = p.
Proof.
  induction p as [|ch p IH]; intros Hp; [reflexivity|].
  cbn [dashFree] in Hp. apply andb_prop in Hp as [Hch Hp].
  change (String ch p ++ "-" ++ r) with (String ch (p ++ "-" ++ r)).
  cbn [beforeDash]. destruct (Ascii.eqb ch "-"); [discriminate Hch|].
  by rewrite IH.
Qed.

Lemma findById_updated {T I} `{EqDecision I} (getId : T -> I) i f
    (docs docs' : list T) d' :
  (forall d, getId (f d) = getId d) ->
  updateById getId i f docs = Some (d', docs') ->
  findById getId i docs' = Some d'.
Proof.
  intros Hid. unfold findById. revert docs' d'.
  induction docs as [|x docs IH]; intros docs' d'; cbn [updateById]; [discriminate|].
  case_bool_decide as Hx.
  - intros H. inversion H; subst. cbn [find].
    rewrite bool_decide_eq_true_2; [reflexivity|]. by rewrite Hid.
  - destruct (updateById getId i f docs) as [[d1 l1]|]; [|discriminate].
    intros H. inversion H; subst. cbn [find].
    rewrite bool_decide_eq_false_2 by assumption. by apply IH.
Qed.

Lemma updateById_none {T I} `{EqDecision I} (getId : T -> I) i f (docs : list T) :
  updateById getId i f docs = None -> findById getId i docs = None.
Proof.
  unfold findById. induction docs as [|x docs IH]; cbn [find updateById]; [reflexivity|].
  case_bool_decide as Hx; [discriminate|].
  destruct (updateById getId i f docs) as [[d1 l1]|]; [discriminate|]. intros _. by apply IH.
Qed.

(** One turn of the loop on an entry named after a project's
    application. *)
Lemma updateApplicationStatus_result env c entry projectId roundAddress st st' :
  dashFree projectId = true ->
  field "id" entry = Some (JStr (projectId ++ "-" ++ roundAddress)) ->
  updateApplicationStatus env c entry st = (st', inr tt) ->
  forall a,
    findById Application.id projectId (applicationsOf c (storage st')) = Some a ->
    Application.status a = field "status" entry /\
    Application.payoutAddress a = field "payoutAddress" entry.
Proof.
  intros Hp Hid Hrun a Ha. unfold updateApplicationStatus in Hrun.
  rewrite Hid, beforeDash_app in Hrun by assumption.
  unfold updateApplicationById, bind, get in Hrun.
  destruct (updateById _ _ _ _) as [[a' l']|] eqn:Hup.
  - unfold write, modify in Hrun. inversion Hrun; subst st'. clear Hrun.
    cbn [storage] in Ha. rewrite applicationsOf_set in Ha.
    destruct (decide (c = c)) as [_|Hc]; [|contradiction].
    pose proof Hup as Hfound.
    apply findById_updated in Hfound; [|intros d; reflexivity].
    rewrite Hfound in Ha.
    inversion Ha; subst a. clear Ha.
    apply updateById_found in Hup as [before [d [after [_ [_ [-> _]]]]]]. by split.
  - apply updateById_none in Hup.
    unfold missingDocument in Hrun.
    destruct (updateByIdRejects env); [discriminate Hrun|].
    unfold ret in Hrun. inversion Hrun; subst st'. congruence.
Qed.
End LastEntry.

(** X12. The last entry of the applications file wins: after a
    "ProjectsMetaPtrUpdated" event that returns normally, the application
    of the project the last entry names (the part of the entry's [id]
    before the dash) has the [status] and the [payoutAddress] of that
    entry, whatever the entries before it set; a field the entry lacks
    becomes undefined. *)
Theorem ProjectsMetaPtrUpdated_last_entry_wins
    (env : Indexer.Snapshot) (now chainId : Z) (event : Indexer.Event)
    (st st' : Indexer.State) (metaPtr : Indexer.MetaPtr)
    (entries : list Indexer.Json) (entry : Indexer.Json)
    (projectId roundAddress : string) (a : Indexer.Application.t) :
  Indexer.name event = "ProjectsMetaPtrUpdated" ->
  Indexer.args event !! "newMetaPtr" = Some (Indexer.VMetaPtr metaPtr) ->
  Indexer.cache st !! ("ipfs-" ++ Indexer.pointer metaPtr) = None ->
  Indexer.ipfs env (Indexer.pointer metaPtr)
    = Some (Indexer.JArr (entries ++ [entry])) ->
  Growth.dashFree projectId = true ->
  Indexer.field "id" entry = Some (Indexer.JStr (projectId ++ "-" ++ roundAddress)) ->
  Indexer.handleEvent env now chainId event st = (st', inr tt) ->
  Indexer.findById Indexer.Application.id projectId
    (Indexer.applicationsOf ("rounds/" ++ Indexer.address event ++ "/projects")
       (Indexer.storage st')) = Some a ->
  Indexer.Application.status a = Indexer.field "status" entry /\
  Indexer.Application.payoutAddress a = Indexer.field "payoutAddress" entry.
Proof.
  intros Hname Hptr Hmiss Hfile Hp Hid Hrun Ha.
  rewrite (handleEvent_ProjectsMetaPtrUpdated env now chainId event st metaPtr
             (entries ++ [entry])) in Hrun by assumption.
  rewrite forEach_app in Hrun.
  destruct (Indexer.forEach _ entries _) as [st1 [e|[]]]; [discriminate Hrun|].
  cbn [Indexer.forEach] in Hrun. unfold Indexer.bind in Hrun.
  destruct (Indexer.updateApplicationStatus env _ entry st1) as [st2 [e|[]]] eqn:Hlast;
    [discriminate Hrun|].
  unfold Indexer.ret in Hrun. inversion Hrun; subst st2.
  eapply updateApplicationStatus_result; eassumption.
Qed.

Lemma ProjectsMetaPtrUpdated_last_entry_wins_witness :
  exists a,
    Indexer.findById Indexer.Application.id Scenario.projectOneId
      (Indexer.applicationsOf ("rounds/" ++ Scenario.addressFour ++ "/projects")
         (Indexer.storage
            (fst (Indexer.handleEvent HandlerScenario.twoEntries 0 1
                    HandlerScenario.projectsMetaPtrUpdated
                    (Scenario.startFrom HandlerScenario.dbWithPendingApplication)))))
    = Some a /\
    Indexer.Application.status a = Some (Indexer.JStr "REJECTED") /\
    Indexer.Application.payoutAddress a = None.
Proof.
  eexists. split; [vm_compute; reflexivity|].
  apply (ProjectsMetaPtrUpdated_last_entry_wins HandlerScenario.twoEntries 0 1
           HandlerScenario.projectsMetaPtrUpdated
           (Scenario.startFrom HandlerScenario.dbWithPendingApplication)
           (fst (Indexer.handleEvent HandlerScenario.twoEntries 0 1
                   HandlerScenario.projectsMetaPtrUpdated
                   (Scenario.startFrom HandlerScenario.dbWithPendingApplication)))
           {| Indexer.protocol := 1; Indexer.pointer := "applications-cid" |}
           [Indexer.JObj [("id", Indexer.JStr (Scenario.projectOneId ++ "-" ++ Scenario.addressFour));
                          ("status", Indexer.JStr "APPROVED");
                          ("payoutAddress", Indexer.JStr Scenario.addressThree)]]
           (Indexer.JObj [("id", Indexer.JStr (Scenario.projectOneId ++ "-" ++ Scenario.addressFour));
                          ("status", Indexer.JStr "REJECTED")])
           Scenario.projectOneId Scenario.addressFour);
    vm_compute; reflexivity.
Defined.

Section Reapplication.
Import Indexer.

Lemma find_app_hit {A} (p : A -> bool) (l : list A) (x a : A) :
  find p l = Some a -> find p (l ++ [x]) = Some a.
Proof.
  induction l as [|y l IH]; cbn [find app]; [discriminate|].
  destruct (p y); [auto|assumption].
Qed.
End Reapplication.

(** X13. "NewProjectApplication" always inserts: it stores a new application
    with status [null] at the end of the round's applications without
    looking for an earlier one of the same project. When the project had
    applied before, the earlier application stays the first with that id,
    the one "Voted" consults and a status update rewrites, so a repeated
    application does not reset an approval. *)
Theorem NewProjectApplication_never_replaces_an_application
    (env : Indexer.Snapshot) (now chainId : Z) (event : Indexer.Event)
    (st : Indexer.State) (project : string) :
  Indexer.name event = "NewProjectApplication" ->
  Indexer.args event !! "project" = Some (Indexer.VString project) ->
  let c := "rounds/" ++ Indexer.address event ++ "/projects" in
  exists st1 application,
    Indexer.handleEvent env now chainId event st = (st1, inr tt) /\
    Indexer.applicationsOf c (Indexer.storage st1) =
      (Indexer.applicationsOf c (Indexer.storage st) ++ [application])%list /\
    Indexer.Application.id application = project /\
    Indexer.Application.status application = Some Indexer.JNull /\
    forall earlier,
      Indexer.findOneWhere (fun a => String.eqb (Indexer.Application.id a) project)
        (Indexer.applicationsOf c (Indexer.storage st)) = Some earlier ->
      Indexer.findOneWhere (fun a => String.eqb (Indexer.Application.id a) project)
        (Indexer.applicationsOf c (Indexer.storage st1)) = Some earlier /\
      Indexer.findById Indexer.Application.id project
        (Indexer.applicationsOf c (Indexer.storage st1)) =
      Indexer.findById Indexer.Application.id project
        (Indexer.applicationsOf c (Indexer.storage st)).
Proof.
  intros Hname Hproject c.
  rewrite (handleEvent_NewProjectApplication env now chainId event st project Hname Hproject).
  fold c. unfold Indexer.insertApplication, Indexer.write, Indexer.modify.
  do 2 eexists. split; [reflexivity|]. cbn [Indexer.storage].
  rewrite applicationsOf_set. destruct (decide (c = c)) as [_|Hc]; [|contradiction].
  split; [reflexivity|]. split; [reflexivity|]. split; [reflexivity|].
  intros earlier Hearlier. unfold Indexer.findOneWhere in *. split.
  - by apply find_app_hit.
  - unfold Indexer.findById.
    destruct (find (fun d => bool_decide (Indexer.Application.id d = project))
                   (Indexer.applicationsOf c (Indexer.storage st))) as [a|] eqn:Hfind.
    + by apply find_app_hit.
    + exfalso. apply find_some in Hearlier as [Hin Heq].
      apply String.eqb_eq in Heq.
      eapply find_none in Hfind; [|exact Hin].
      cbn in Hfind. by rewrite bool_decide_eq_true_2 in Hfind.
Qed.

Lemma NewProjectApplication_never_replaces_an_application_witness :
  exists st1 application,
    Indexer.handleEvent Scenario.offline 0 1 HandlerScenario.newProjectApplication
      (Scenario.startFrom HandlerScenario.dbWithPendingApplication) = (st1, inr tt) /\
    Indexer.applicationsOf ("rounds/" ++ Scenario.addressFour ++ "/projects")
      (Indexer.storage st1) =
      ([HandlerScenario.pendingApplication] ++ [application])%list /\
    Indexer.Application.id application = Scenario.projectOneId /\
    Indexer.Application.status application = Some Indexer.JNull /\
    forall earlier,
      Indexer.findOneWhere
        (fun a => String.eqb (Indexer.Application.id a) Scenario.projectOneId)
        [HandlerScenario.pendingApplication] = Some earlier ->
      Indexer.findOneWhere
        (fun a => String.eqb (Indexer.Application.id a) Scenario.projectOneId)
        (Indexer.applicationsOf ("rounds/" ++ Scenario.addressFour ++ "/projects")
           (Indexer.storage st1)) = Some earlier /\
      Indexer.findById Indexer.Application.id Scenario.projectOneId
        (Indexer.applicationsOf ("rounds/" ++ Scenario.addressFour ++ "/projects")
           (Indexer.storage st1)) =
      Indexer.findById Indexer.Application.id Scenario.projectOneId
        [HandlerScenario.pendingApplication].
Proof.
  apply (NewProjectApplication_never_replaces_an_application Scenario.offline 0 1
           HandlerScenario.newProjectApplication
           (Scenario.startFrom HandlerScenario.dbWithPendingApplication)
           Scenario.projectOneId);
    reflexivity.
Defined.

(* ===================================================================== *)
(** ** Properties of the price updater                                    *)
(* ===================================================================== *)

Section PriceUpdate.
Import PriceUpdater.
Variables (world : World) (config : Config).

Lemma lastPriceAt_from (prices : list Price) : forall acc,
  let latest := fold_left (fun acc p => Z.max (timestamp p + hours1 config) acc) prices acc in
  acc <= latest /\
  (forall p, In p prices -> timestamp p + hours1 config <= latest) /\
  (latest = acc \/ exists p, In p prices /\ latest = timestamp p + hours1 config).
Proof.
  induction prices as [|x prices IH]; intros acc; cbn [fold_left].
  - repeat split; [lia|intros p []|by left].
  - destruct (IH (Z.max (timestamp x + hours1 config) acc)) as [Hle [Hall Hatt]].
    split; [lia|]. split.
    + intros p [->|Hp]; [lia|by apply Hall].
    + destruct Hatt as [Heq|[p [Hp Heq]]].
      * destruct (Z.max_spec (timestamp x + hours1 config) acc) as [[_ Hmax]|[_ Hmax]].
        -- left. lia.
        -- right. exists x. split; [by left|lia].
      * right. exists p. split; [by right|assumption].
Qed.

Lemma resolveBlocks_adds t lastBlockNumber prices : forall acc out,
  resolveBlocks world t lastBlockNumber prices acc = inr out ->
  exists new, out = (acc ++ new)%list /\ Forall (pricedFor world lastBlockNumber t) new /\
              map (fun p => (timestamp p, price p)) new = prices.
Proof.
  induction prices as [|[ts pr] prices IH]; intros acc out; cbn [resolveBlocks].
  - intros H. inversion H. exists []. rewrite app_nil_r. repeat split. constructor.
  - destruct (blockFromTimestamp world ts lastBlockNumber) as [b|] eqn:Hb; [|discriminate].
    intros H. destruct (IH _ _ H) as [new [-> [Hnew Hmap]]].
    eexists (_ :: new). rewrite <- app_assoc. split; [reflexivity|]. split.
    + constructor; [|assumption]. repeat split; assumption.
    + cbn. by rewrite Hmap.
Qed.

Lemma advances_step lastBlockNumber plan1 plan2 st st1 st2 failure :
  advances world config lastBlockNumber plan1 st st1 None ->
  advances world config lastBlockNumber plan2 st1 st2 failure ->
  advances world config lastBlockNumber (plan1 ++ plan2) st st2 failure.
Proof.
  intros [a1 [m1 [Hp1 [Hr1 [He1 [_ [Hall1 Hf1]]]]]]] [a2 [m2 [Hp2 [Hr2 [He2 [Hpre [Hall2 Hf2]]]]]]].
  specialize (Hall1 eq_refl). subst m1.
  exists (a1 ++ a2)%list, (plan1 ++ m2)%list.
  rewrite Hp2, Hp1, Hr2, Hr1, He2, He1, !app_assoc.
  repeat split; try reflexivity.
  - by apply prefix_app.
  - intros Hnone. by rewrite Hall2.
  - apply Forall_app; by split.
Qed.

Lemma forTokens_advances lastPrice lastBlockNumber chunk ts : forall st st' failure,
  (forall t, In t ts -> In t (tokens config)) ->
  forTokens world config lastPrice lastBlockNumber chunk ts st = (st', failure) ->
  advances world config lastBlockNumber (map (requestFor config lastPrice chunk) ts) st st' failure.
Proof.
  induction ts as [|t ts IH]; intros st st' failure Hsub; cbn [forTokens map].
  - intros H. inversion H; subst. exists [], []. rewrite !app_nil_r.
    repeat split; try reflexivity. constructor.
  - set (r := requestFor config lastPrice chunk t).
    assert (advances world config lastBlockNumber [r] st (request r st) (Some (PricesFailure r))
            /\ forall e, advances world config lastBlockNumber [r] st (request r st) (Some e)) as [_ Hstop].
    { split; [|intros e]; exists [], [r]; rewrite app_nil_r;
        repeat split; try reflexivity; try discriminate; constructor. }
    destruct (pricesByHour world r) as [prices|]; [|intros H; inversion H; subst].
    2:{ destruct (Hstop (PricesFailure r)) as [a [m [? [? [? [? [? ?]]]]]]].
        exists a, m. repeat split; try assumption; try discriminate.
        etransitivity; [eassumption|]. by apply (prefix_app_r [r] [r] _). }
    destruct (resolveBlocks world t lastBlockNumber prices []) as [e|newPrices] eqn:Hres.
    { intros H; inversion H; subst.
      destruct (Hstop e) as [a [m [? [? [? [? [? ?]]]]]]].
      exists a, m. repeat split; try assumption; try discriminate.
      etransitivity; [eassumption|]. by apply (prefix_app_r [r] [r] _). }
    intros H. apply IH in H; [|intros t' Ht'; apply Hsub; by right].
    apply resolveBlocks_adds in Hres as [new [-> [Hnew _]]]. cbn [app] in H.
    change (r :: map (requestFor config lastPrice chunk) ts)
      with ([r] ++ map (requestFor config lastPrice chunk) ts)%list.
    eapply advances_step; [|exact H].
    exists new, [r]. repeat split; try reflexivity.
    eapply Forall_impl; [exact Hnew|]. intros p Hp. exists t. split; [|assumption].
    apply Hsub. by left.
Qed.

Lemma forChunks_advances lastPrice lastBlockNumber chunks : forall st st' failure,
  forChunks world config lastPrice lastBlockNumber chunks st = (st', failure) ->
  advances world config lastBlockNumber (windows config lastPrice chunks) st st' failure.
Proof.
  unfold windows.
  induction chunks as [|chunk chunks IH]; intros st st' failure; cbn [forChunks flat_map].
  - intros H. inversion H; subst. exists [], []. rewrite !app_nil_r.
    repeat split; try reflexivity. constructor.
  - destruct (forTokens world config lastPrice lastBlockNumber chunk (tokens config) st)
      as [st1 [e|]] eqn:Htokens.
    + intros H. inversion H; subst.
      apply forTokens_advances in Htokens; [|auto].
      destruct Htokens as [a [m [? [? [? [? [? ?]]]]]]].
      exists a, m. repeat split; try assumption; try discriminate.
      etransitivity; [eassumption|]. by apply prefix_app_r.
    + intros H. apply IH in H. apply forTokens_advances in Htokens; [|auto].
      eapply advances_step; eassumption.
Qed.

Lemma timeElapsed_bounds toDate lastPrice :
  0 < hours1 config ->
  let elapsed := timeElapsed config toDate lastPrice in
  elapsed <= toDate - lastPrice < elapsed + hours1 config /\
  (elapsed < hours1 config <-> toDate - lastPrice < hours1 config).
Proof.
  intros Hh. unfold timeElapsed. cbn zeta.
  pose proof (Z.div_mod (toDate - lastPrice) (hours1 config) ltac:(lia)) as Hdm.
  pose proof (Z.mod_pos_bound (toDate - lastPrice) (hours1 config) Hh) as Hmod.
  split; [nia|].
  split; intros H.
  - assert ((toDate - lastPrice) / hours1 config < 1) by nia. nia.
  - assert ((toDate - lastPrice) / hours1 config < 1)
      by (apply Z.div_lt_upper_bound; lia). nia.
Qed.
End PriceUpdate.

(** X14. The time [update] resumes from is the latest of the configured start
    of the prices and one hour after each stored price: it is at least each
    of them and equal to one of them. *)
Theorem lastPriceAt_is_the_latest_hour
    (config : PriceUpdater.Config) (prices : list PriceUpdater.Price) :
  let latest := PriceUpdater.lastPriceAt config prices in
  PriceUpdater.pricesFromTimestamp config <= latest /\
  (forall p, In p prices ->
     PriceUpdater.timestamp p + PriceUpdater.hours1 config <= latest) /\
  (latest = PriceUpdater.pricesFromTimestamp config \/
   exists p, In p prices /\
     latest = PriceUpdater.timestamp p + PriceUpdater.hours1 config).
Proof. apply lastPriceAt_from. Qed.



(** What a run of [update] that returns has done to the state. *)
Lemma update_appends
    (world : PriceUpdater.World) (config : PriceUpdater.Config) (fuel : nat)
    (toBlock : PriceUpdater.ToBlock) (st st' : PriceUpdater.State) :
  PriceUpdater.update world config fuel toBlock st = Some st' ->
  exists added,
    PriceUpdater.pricesFile st' = (PriceUpdater.pricesFile st ++ added)%list /\
    Forall (fun p => exists t lastBlockNumber,
              In t (PriceUpdater.tokens config) /\
              PriceUpdater.getBlockNumber world = Some lastBlockNumber /\
              PriceUpdater.pricedFor world lastBlockNumber t p) added /\
    (PriceUpdater.errorLog st' = PriceUpdater.errorLog st \/
     exists e, PriceUpdater.errorLog st' = (PriceUpdater.errorLog st ++ [e])%list).
Proof.
  unfold PriceUpdater.update, PriceUpdater.tryUpdate.
  assert (forall e, exists added,
            PriceUpdater.pricesFile (PriceUpdater.logError e st)
              = (PriceUpdater.pricesFile st ++ added)%list /\
            Forall (fun p => exists t lastBlockNumber,
                      In t (PriceUpdater.tokens config) /\
                      PriceUpdater.getBlockNumber world = Some lastBlockNumber /\
                      PriceUpdater.pricedFor world lastBlockNumber t p) added /\
            (PriceUpdater.errorLog (PriceUpdater.logError e st) = PriceUpdater.errorLog st \/
             exists e', PriceUpdater.errorLog (PriceUpdater.logError e st)
                        = (PriceUpdater.errorLog st ++ [e'])%list)) as Hlogged.
  { intros e. exists []. rewrite app_nil_r. repeat split; [constructor|right; by exists e]. }
  destruct (PriceUpdater.toDateMillis world toBlock) as [toDate|];
    [|intros H; inversion H; subst; apply Hlogged].
  destruct (_ <? _).
  { intros H; inversion H; subst. exists []. rewrite app_nil_r.
    repeat split; [constructor|by left]. }
  destruct (PriceUpdater.getBlockNumber world) as [lastBlockNumber|] eqn:Hblock;
    [|intros H; inversion H; subst; apply Hlogged].
  destruct (Prices.chunkTimeBy _ _ _) as [timeChunks|]; [|discriminate].
  destruct (PriceUpdater.forChunks _ _ _ _ _ _) as [st1 failure] eqn:Hchunks.
  apply forChunks_advances in Hchunks
    as [added [made [Hfile [_ [Hlog [_ [_ Hadded]]]]]]].
  assert (Forall (fun p => exists t lastBlockNumber0,
                    In t (PriceUpdater.tokens config) /\
                    Some lastBlockNumber = Some lastBlockNumber0 /\
                    PriceUpdater.pricedFor world lastBlockNumber0 t p) added) as Hadded'.
  { eapply Forall_impl; [exact Hadded|]. intros p [t [Ht Hp]]. exists t, lastBlockNumber. auto. }
  destruct failure as [e|]; intros H; inversion H; subst; exists added.
  - cbn. rewrite Hlog. repeat split; [assumption..|right; by exists e].
  - repeat split; [assumption..|by left].
Qed.

(** With enough iterations allowed to [chunkTimeBy], [update] returns. *)
Lemma update_returns
    (world : PriceUpdater.World) (config : PriceUpdater.Config)
    (toBlock : PriceUpdater.ToBlock) (st : PriceUpdater.State) :
  0 < PriceUpdater.days90 config ->
  exists bound, forall fuel, (bound <= fuel)%nat ->
    exists st', PriceUpdater.update world config fuel toBlock st = Some st'.
Proof.
  intros Hdays. unfold PriceUpdater.update, PriceUpdater.tryUpdate.
  destruct (PriceUpdater.toDateMillis world toBlock) as [toDate|];
    [|exists 0%nat; intros; eexists; reflexivity].
  set (elapsed := PriceUpdater.timeElapsed config toDate _).
  exists (Prices.iterations elapsed (PriceUpdater.days90 config) 0).
  intros fuel Hfuel.
  destruct (_ <? _); [eexists; reflexivity|].
  destruct (PriceUpdater.getBlockNumber world) as [lastBlockNumber|];
    [|eexists; reflexivity].
  unfold Prices.chunkTimeBy.
  rewrite (chunkLoop_runs elapsed _ Hdays fuel 0 [] Hfuel).
  destruct (PriceUpdater.forChunks _ _ _ _ _ _) as [st1 [e|]]; eexists; reflexivity.
Qed.

(** X16. [update] returns, never throws, and only appends: whatever happens,
    the prices already in the file stay where they are and new ones are
    added after them; each new price carries the lower-cased address and
    the code of a configured token and the block found for its timestamp; a
    failure is logged, once, instead of thrown, and what was appended before
    it stays in the file. (The loop of [chunkTimeBy] ends because the chunk
    length is positive.) *)
Theorem update_only_appends_prices
    (world : PriceUpdater.World) (config : PriceUpdater.Config)
    (toBlock : PriceUpdater.ToBlock) (st : PriceUpdater.State) :
  0 < PriceUpdater.days90 config ->
  exists bound, forall fuel, (bound <= fuel)%nat ->
    exists st' added,
      PriceUpdater.update world config fuel toBlock st = Some st' /\
      PriceUpdater.pricesFile st' = (PriceUpdater.pricesFile st ++ added)%list /\
      Forall (fun p => exists t lastBlockNumber,
                In t (PriceUpdater.tokens config) /\
                PriceUpdater.getBlockNumber world = Some lastBlockNumber /\
                PriceUpdater.pricedFor world lastBlockNumber t p) added /\
      (PriceUpdater.errorLog st' = PriceUpdater.errorLog st \/
       exists e, PriceUpdater.errorLog st' = (PriceUpdater.errorLog st ++ [e])%list).
Proof.
  intros Hdays.
  destruct (update_returns world config toBlock st Hdays) as [bound Hbound].
  exists bound. intros fuel Hfuel.
  destruct (Hbound fuel Hfuel) as [st' Hrun].
  destruct (update_appends world config fuel toBlock st st' Hrun) as [added Hadded].
  by exists st', added.
Qed.

Lemma update_only_appends_prices_witness :
  exists bound, forall fuel, (bound <= fuel)%nat ->
    exists st' added,
      PriceUpdater.update PriceScenario.world PriceScenario.config fuel
        PriceUpdater.Latest PriceScenario.noPrices = Some st' /\
      PriceUpdater.pricesFile st'
      = (PriceUpdater.pricesFile PriceScenario.noPrices ++ added)%list /\
      Forall (fun p => exists t lastBlockNumber,
                In t (PriceUpdater.tokens PriceScenario.config) /\
                PriceUpdater.getBlockNumber PriceScenario.world = Some lastBlockNumber /\
                PriceUpdater.pricedFor PriceScenario.world lastBlockNumber t p) added /\
      (PriceUpdater.errorLog st' = PriceUpdater.errorLog PriceScenario.noPrices \/
       exists e,
         PriceUpdater.errorLog st'
         = (PriceUpdater.errorLog PriceScenario.noPrices ++ [e])%list).
Proof.
  apply (update_only_appends_prices PriceScenario.world PriceScenario.config
           PriceUpdater.Latest PriceScenario.noPrices).
  reflexivity.
Defined.

(** X17. When at least an hour has passed, [update] asks for prices window by
    window: the elapsed time, rounded down to whole hours, is cut into
    chunks that start at 0, end at the elapsed time, follow each other
    without gap or overlap and are at most [days(90)] long, and the requests
    made are, in order, those of every chunk for every configured token, from
    [lastPriceAt] plus the chunk's start to [lastPriceAt] plus its end; a
    failure cuts the sequence short, a run that logs nothing makes all of
    them. The loop that cuts the chunks terminates. *)
Theorem update_requests_tile_the_elapsed_hours
    (world : PriceUpdater.World) (config : PriceUpdater.Config)
    (toBlock : PriceUpdater.ToBlock) (st : PriceUpdater.State)
    (toDate lastBlockNumber : Z) :
  0 < PriceUpdater.hours1 config ->
  0 < PriceUpdater.days90 config ->
  PriceUpdater.toDateMillis world toBlock = Some toDate ->
  PriceUpdater.getBlockNumber world = Some lastBlockNumber ->
  let lastPrice := PriceUpdater.lastPriceAt config (PriceUpdater.pricesFile st) in
  let elapsed := PriceUpdater.timeElapsed config toDate lastPrice in
  PriceUpdater.hours1 config <= toDate - lastPrice ->
  elapsed <= toDate - lastPrice < elapsed + PriceUpdater.hours1 config /\
  exists chunks : list (Z * Z),
    (exists b, head chunks = Some (0, b)) /\
    (exists a, last chunks = Some (a, elapsed)) /\
    Prices.well_shaped elapsed (PriceUpdater.days90 config) chunks /\
    Prices.abut (PriceUpdater.days90 config) chunks /\
    forall fuel,
      (Prices.iterations elapsed (PriceUpdater.days90 config) 0 <= fuel)%nat ->
      exists st' made,
        PriceUpdater.update world config fuel toBlock st = Some st' /\
        PriceUpdater.requests st' = (PriceUpdater.requests st ++ made)%list /\
        made `prefix_of` PriceUpdater.windows config lastPrice chunks /\
        (PriceUpdater.errorLog st' = PriceUpdater.errorLog st ->
         made = PriceUpdater.windows config lastPrice chunks).
Proof.
  intros Hhour Hdays HtoDate Hblock lastPrice elapsed Hlate.
  destruct (timeElapsed_bounds config toDate lastPrice Hhour) as [Hbounds Hguard].
  fold elapsed in Hbounds, Hguard.
  split; [exact Hbounds|].
  assert (0 < elapsed) as Hpos by lia.
  set (n := Prices.iterations elapsed (PriceUpdater.days90 config) 0).
  exists (Prices.chunksFrom n elapsed (PriceUpdater.days90 config) 0).
  pose proof (iterations_step elapsed _ Hdays 0 Hpos) as Hstep. fold n in Hstep.
  split; [rewrite Hstep; cbn; eauto|].
  split; [rewrite Hstep; apply chunksFrom_last; [assumption|by rewrite <- Hstep]|].
  split; [apply chunksFrom_shape; [assumption|reflexivity|lia]|].
  split; [apply chunksFrom_abut; [assumption|reflexivity]|].
  intros fuel Hfuel.
  unfold PriceUpdater.update, PriceUpdater.tryUpdate.
  rewrite HtoDate, Hblock. fold lastPrice elapsed.
  destruct (Z.ltb_spec elapsed (PriceUpdater.hours1 config)); [lia|].
  unfold Prices.chunkTimeBy.
  rewrite (chunkLoop_runs elapsed _ Hdays fuel 0 [] Hfuel). cbn [app]. fold n.
  destruct (PriceUpdater.forChunks _ _ _ _ _ _) as [st1 failure] eqn:Hchunks.
  apply forChunks_advances in Hchunks
    as [added [made [_ [Hrequests [Hlog [Hprefix [Hall _]]]]]]].
  destruct failure as [e|]; do 2 eexists; (split; [reflexivity|]).
  - cbn. split; [exact Hrequests|]. split; [exact Hprefix|].
    rewrite Hlog. intros Habsurd. exfalso.
    apply (f_equal (@length _)) in Habsurd. rewrite length_app in Habsurd.
    cbn in Habsurd. lia.
  - split; [exact Hrequests|]. split; [exact Hprefix|]. intros _. by apply Hall.
Qed.

Lemma update_requests_tile_the_elapsed_hours_witness :
  PriceUpdater.timeElapsed PriceScenario.config (2 * PriceScenario.hour + 5) 0
    <= 2 * PriceScenario.hour + 5 - 0
    < PriceUpdater.timeElapsed PriceScenario.config (2 * PriceScenario.hour + 5) 0
      + PriceScenario.hour /\
  exists chunks : list (Z * Z),
    (exists b, head chunks = Some (0, b)) /\
    (exists a, last chunks =
       Some (a, PriceUpdater.timeElapsed PriceScenario.config (2 * PriceScenario.hour + 5) 0)) /\
    Prices.well_shaped
      (PriceUpdater.timeElapsed PriceScenario.config (2 * PriceScenario.hour + 5) 0)
      (PriceUpdater.days90 PriceScenario.config) chunks /\
    Prices.abut (PriceUpdater.days90 PriceScenario.config) chunks /\
    forall fuel,
      (Prices.iterations
         (PriceUpdater.timeElapsed PriceScenario.config (2 * PriceScenario.hour + 5) 0)
         (PriceUpdater.days90 PriceScenario.config) 0 <= fuel)%nat ->
      exists st' made,
        PriceUpdater.update PriceScenario.world PriceScenario.config fuel
          PriceUpdater.Latest PriceScenario.noPrices = Some st' /\
        PriceUpdater.requests st' =
          (PriceUpdater.requests PriceScenario.noPrices ++ made)%list /\
        made `prefix_of` PriceUpdater.windows PriceScenario.config 0 chunks /\
        (PriceUpdater.errorLog st' = PriceUpdater.errorLog PriceScenario.noPrices ->
         made = PriceUpdater.windows PriceScenario.config 0 chunks).
Proof.
  apply (update_requests_tile_the_elapsed_hours PriceScenario.world PriceScenario.config
           PriceUpdater.Latest PriceScenario.noPrices (2 * PriceScenario.hour + 5) 100);
    try reflexivity.
  vm_compute. discriminate.
Defined.

Section PriceServiceTimers.
Import PriceService.
Variables (world : PriceUpdater.World) (config : PriceUpdater.Config).
Hypothesis days90_positive : 0 < PriceUpdater.days90 config.

Lemma start_returns watch toBlock s :
  exists bound, forall fuel, (bound <= fuel)%nat ->
    exists s', start world config fuel watch toBlock s = Some s'.
Proof.
  destruct (update_returns world config toBlock (prices s) days90_positive)
    as [bound Hbound].
  exists bound. intros fuel Hfuel. destruct (Hbound fuel Hfuel) as [st' Hrun].
  unfold start. rewrite Hrun. eauto.
Qed.

Lemma poll_returns s :
  exists bound, forall fuel, (bound <= fuel)%nat ->
    exists s', poll world config fuel s = Some s'.
Proof.
  destruct (update_returns world config PriceUpdater.Latest (prices s) days90_positive)
    as [bound Hbound].
  exists bound. intros fuel Hfuel. destruct (Hbound fuel Hfuel) as [st' Hrun].
  unfold poll. rewrite Hrun. eauto.
Qed.
End PriceServiceTimers.

Section PriceServiceInvariant.
Import PriceService.

Lemma start_watch_oneTimer world config fuel toBlock s s' :
  pending s = [] ->
  start world config fuel true toBlock s = Some s' ->
  oneTimer s'.
Proof.
  unfold start. intros Hnone.
  destruct (PriceUpdater.update _ _ _ _ _) as [st'|]; [|discriminate].
  intros H. inversion H; subst s'. exists (nextTimeoutId s).
  cbn. rewrite Hnone. repeat split. lia.
Qed.

Lemma fire_oneTimer world config fuel id s s' :
  pollTimeoutId s = Some id ->
  pending s = [(id, POLL_INTERVAL_MS)] ->
  (id < nextTimeoutId s)%nat ->
  fire world config fuel id s = Some s' ->
  oneTimer s' /\ pollTimeoutId s' = Some (nextTimeoutId s).
Proof.
  intros Hid Hpending Hfresh. unfold fire, poll. rewrite Hpending.
  cbn [existsb fst]. rewrite Nat.eqb_refl. cbn [orb].
  cbn [prices clearTimeout].
  destruct (PriceUpdater.update _ _ _ _ _) as [st'|]; [|discriminate].
  intros H. inversion H; subst s'. split; [|reflexivity].
  exists (nextTimeoutId s). cbn. rewrite Hpending. cbn. rewrite Nat.eqb_refl. cbn.
  repeat split. lia.
Qed.

Lemma stop_oneTimer s : oneTimer s -> pending (stop s) = [].
Proof.
  intros [id [Hid [Hpending _]]]. unfold stop. rewrite Hid. cbn.
  rewrite Hpending. cbn. by rewrite Nat.eqb_refl.
Qed.
End PriceServiceInvariant.

(** X18. Started once with [watch], the price updater keeps exactly one
    timeout pending, the one [pollTimeoutId] records: [start] returns and
    sets it, every poll that fires returns and replaces it by the next one,
    60 seconds later, and [stop] at any point between two polls leaves no
    timeout pending, so no poll runs after it. *)
Theorem stop_between_polls_ends_the_polling
    (world : PriceUpdater.World) (config : PriceUpdater.Config)
    (toBlock : PriceUpdater.ToBlock) (s : PriceService.Service) :
  0 < PriceUpdater.days90 config ->
  PriceService.pending s = [] ->
  (exists bound, forall fuel, (bound <= fuel)%nat ->
     exists s', PriceService.start world config fuel true toBlock s = Some s' /\
                PriceService.oneTimer s') /\
  (forall (later : PriceUpdater.World) (s1 : PriceService.Service) (id : nat),
     PriceService.oneTimer s1 ->
     PriceService.pollTimeoutId s1 = Some id ->
     PriceService.pending (PriceService.stop s1) = [] /\
     exists bound, forall fuel, (bound <= fuel)%nat ->
       exists s2, PriceService.fire later config fuel id s1 = Some s2 /\
                  PriceService.oneTimer s2).
Proof.
  intros Hdays Hnone. split.
  - destruct (start_returns world config Hdays true toBlock s) as [bound Hbound].
    exists bound. intros fuel Hfuel. destruct (Hbound fuel Hfuel) as [s' Hrun].
    exists s'. split; [exact Hrun|].
    by apply (start_watch_oneTimer world config fuel toBlock s).
  - intros later s1 id Hone Hid. split; [by apply stop_oneTimer|].
    destruct Hone as [id' [Hid' [Hpending Hfresh]]].
    assert (id' = id) as -> by congruence.
    destruct (poll_returns later config Hdays (PriceService.clearTimeout id s1))
      as [bound Hbound].
    exists bound. intros fuel Hfuel. destruct (Hbound fuel Hfuel) as [s2 Hrun].
    assert (PriceService.fire later config fuel id s1 = Some s2) as Hfire.
    { unfold PriceService.fire. rewrite Hpending. cbn [existsb fst].
      rewrite Nat.eqb_refl. exact Hrun. }
    exists s2. split; [exact Hfire|].
    by apply (fire_oneTimer later config fuel id s1 s2).
Qed.

Lemma stop_between_polls_ends_the_polling_witness :
  (exists bound, forall fuel, (bound <= fuel)%nat ->
     exists s', PriceService.start PriceScenario.world PriceScenario.config fuel true
                  PriceUpdater.Latest (PriceService.fresh PriceScenario.noPrices) = Some s' /\
                PriceService.oneTimer s') /\
  (forall (later : PriceUpdater.World) (s1 : PriceService.Service) (id : nat),
     PriceService.oneTimer s1 ->
     PriceService.pollTimeoutId s1 = Some id ->
     PriceService.pending (PriceService.stop s1) = [] /\
     exists bound, forall fuel, (bound <= fuel)%nat ->
       exists s2, PriceService.fire later PriceScenario.config fuel id s1 = Some s2 /\
                  PriceService.oneTimer s2).
Proof.
  apply (stop_between_polls_ends_the_polling PriceScenario.world PriceScenario.config
           PriceUpdater.Latest (PriceService.fresh PriceScenario.noPrices));
    reflexivity.
Defined.

(** X19. [start] does not check whether the service is already running: a
    second [start] with [watch] schedules a second poll and overwrites
    [pollTimeoutId], so [stop] clears only the later timeout and the poll
    of the first [start] is still pending after it. *)
Theorem second_start_leaves_a_poll_that_stop_misses
    (world world' : PriceUpdater.World) (config : PriceUpdater.Config)
    (toBlock toBlock' : PriceUpdater.ToBlock) (s : PriceService.Service) :
  0 < PriceUpdater.days90 config ->
  PriceService.pending s = [] ->
  exists bound, forall fuel, (bound <= fuel)%nat ->
    exists s1,
      PriceService.start world config fuel true toBlock s = Some s1 /\
      exists bound', forall fuel', (bound' <= fuel')%nat ->
        exists s2,
          PriceService.start world' config fuel' true toBlock' s1 = Some s2 /\
          PriceService.pending (PriceService.stop s2) =
            [(PriceService.nextTimeoutId s, PriceService.POLL_INTERVAL_MS)].
Proof.
  intros Hdays Hnone.
  destruct (start_returns world config Hdays true toBlock s) as [bound Hbound].
  exists bound. intros fuel Hfuel. destruct (Hbound fuel Hfuel) as [s1 Hrun].
  exists s1. split; [exact Hrun|].
  destruct (start_returns world' config Hdays true toBlock' s1) as [bound' Hbound'].
  exists bound'. intros fuel' Hfuel'. destruct (Hbound' fuel' Hfuel') as [s2 Hrun'].
  exists s2. split; [exact Hrun'|].
  unfold PriceService.start in Hrun, Hrun'.
  destruct (PriceUpdater.update world _ _ _ _) as [st1|]; [|discriminate Hrun].
  inversion Hrun; subst s1. clear Hrun.
  destruct (PriceUpdater.update world' _ _ _ _) as [st2|]; [|discriminate Hrun'].
  inversion Hrun'; subst s2. clear Hrun'.
  unfold PriceService.stop. cbn. rewrite Hnone. cbn.
  rewrite Nat.eqb_refl.
  destruct (Nat.eqb_spec (PriceService.nextTimeoutId s) (S (PriceService.nextTimeoutId s)));
    [lia|reflexivity].
Qed.

Lemma second_start_leaves_a_poll_that_stop_misses_witness :
  exists bound, forall fuel, (bound <= fuel)%nat ->
    exists s1,
      PriceService.start PriceScenario.world PriceScenario.config fuel true
        PriceUpdater.Latest (PriceService.fresh PriceScenario.noPrices) = Some s1 /\
      exists bound', forall fuel', (bound' <= fuel')%nat ->
        exists s2,
          PriceService.start PriceScenario.early PriceScenario.config fuel' true
            PriceUpdater.Latest s1 = Some s2 /\
          PriceService.pending (PriceService.stop s2) =
            [(0%nat, PriceService.POLL_INTERVAL_MS)].
Proof.
  apply (second_start_leaves_a_poll_that_stop_misses PriceScenario.world PriceScenario.early
           PriceScenario.config PriceUpdater.Latest PriceUpdater.Latest
           (PriceService.fresh PriceScenario.noPrices));
    reflexivity.
Defined.

(* ===================================================================== *)
(** ** Properties of the passport provider                                *)
(* ===================================================================== *)

Section ToLowerCase.
Import Indexer.

Lemma lowerChar_idempotent c : lowerChar (lowerChar c) = lowerChar c.
Proof.
  destruct c as [[] [] [] [] [] [] [] []]; vm_compute; reflexivity.
Qed.

Lemma toLowerCase_idempotent s : toLowerCase (toLowerCase s) = toLowerCase s.
Proof.
  induction s as [|c s IH]; [reflexivity|].
  cbn [toLowerCase]. by rewrite lowerChar_idempotent, IH.
Qed.
End ToLowerCase.

Section PassportDataset.
Import Passport.
Variable config : Config.

Lemma putLine_lookup (db : Level) (line : Line) (k : string) :
  putLine config db line !! k =
  if Z.eqb (community line) (scorerId config) && String.eqb (keyOf line) k
  then Some (scoreOf line) else db !! k.
Proof.
  unfold putLine. fold (keyOf line). fold (scoreOf line).
  destruct (Z.eqb _ _); cbn [andb]; [|reflexivity].
  destruct (String.eqb_spec (keyOf line) k) as [->|Hne].
  - apply lookup_insert_eq.
  - by apply lookup_insert_ne.
Qed.

(** What a full update leaves under a key: the last line stored under it, or
    what was there before. *)
Lemma fullUpdate_lookup (lines : list Line) : forall (db : Level) (k : string),
  fold_left (putLine config) lines db !! k =
  match lastLineFor config k lines with
  | Some line => Some (scoreOf line)
  | None => db !! k
  end.
Proof.
  unfold lastLineFor.
  induction lines as [|line lines IH] using rev_ind; intros db k; [reflexivity|].
  rewrite fold_left_app, rev_app_distr. cbn [fold_left rev app find].
  rewrite putLine_lookup.
  destruct (_ && _); [reflexivity|apply IH].
Qed.

Lemma putLine_lowercaseKeys (db : Level) (line : Line) :
  lowercaseKeys db -> lowercaseKeys (putLine config db line).
Proof.
  intros Hdb k v. rewrite putLine_lookup.
  destruct (Z.eqb _ _); cbn [andb]; [|apply Hdb].
  destruct (String.eqb_spec (keyOf line) k) as [<-|_]; [|apply Hdb].
  intros _. unfold keyOf. by rewrite !toLowerCase_idempotent.
Qed.

Lemma fullUpdate_lowercaseKeys (lines : list Line) : forall db : Level,
  lowercaseKeys db -> lowercaseKeys (fold_left (putLine config) lines db).
Proof.
  induction lines as [|line lines IH]; intros db Hdb; [assumption|].
  cbn [fold_left]. by apply IH, putLine_lowercaseKeys.
Qed.

Lemma lowercaseKeys_empty : lowercaseKeys ∅.
Proof. intros k v H. by rewrite lookup_empty in H. Qed.
End PassportDataset.

Section PassportLifecycle.
Import Passport.
Variables (world : World) (config : Config).

(** [start] from the empty state without a local dataset, the dump served. *)
Lemma start_downloads watch p lines :
  state p = Empty -> localDataset world = None -> dump world = Body lines ->
  start world config watch p =
  (becomeReady config watch
     (setState (Starting (fold_left (putLine config) lines ∅)) p), inr tt).
Proof.
  intros Hstate Hlocal Hdump. unfold start, runFullUpdate.
  rewrite Hstate, Hlocal. cbn [state setState]. rewrite Hdump. reflexivity.
Qed.

Lemma becomeReady_db watch p db :
  state p = Starting db ->
  exists t, state (becomeReady config watch p) = Ready t db.
Proof.
  intros Hstate. unfold becomeReady. rewrite Hstate.
  destruct watch; cbn; eauto.
Qed.
End PassportLifecycle.



(** X21. [getScoreByAddress] looks its argument up as given while the download
    stores every score under the lower-cased address: on a freshly downloaded
    dataset an address with an upper-case letter is answered [undefined],
    whatever the dump holds. *)
Theorem lookup_of_a_checksummed_address_misses
    (world : Passport.World) (config : Passport.Config) (watch : bool)
    (p : Passport.Provider) (lines : list Passport.Line) (a : string) :
  Passport.state p = Passport.Empty ->
  Passport.localDataset world = None ->
  Passport.dump world = Passport.Body lines ->
  Indexer.toLowerCase a <> a ->
  exists p',
    Passport.start world config watch p = (p', inr tt) /\
    Passport.getScoreByAddress a p' = inr None.
Proof.
  intros Hstate Hlocal Hdump Hcase.
  rewrite (start_downloads world config watch p lines) by assumption.
  eexists. split; [reflexivity|].
  destruct (becomeReady_db config watch
              (Passport.setState
                 (Passport.Starting (fold_left (Passport.putLine config) lines ∅)) p)
              _ eq_refl) as [t Ht].
  unfold Passport.getScoreByAddress. rewrite Ht. f_equal.
  destruct (fold_left (Passport.putLine config) lines ∅ !! a) as [v|] eqn:Hlookup;
    [|reflexivity].
  exfalso. apply Hcase.
  exact (fullUpdate_lowercaseKeys config lines ∅ lowercaseKeys_empty a v Hlookup).
Qed.

Lemma lookup_of_a_checksummed_address_misses_witness :
  exists p',
    Passport.start PassportScenario.online PassportScenario.config false Passport.fresh
      = (p', inr tt) /\
    Passport.getScoreByAddress PassportScenario.checksummed p' = inr None.
Proof.
  apply (lookup_of_a_checksummed_address_misses PassportScenario.online
           PassportScenario.config false Passport.fresh PassportScenario.lines
           PassportScenario.checksummed); try reflexivity.
  vm_compute. discriminate.
Defined.

(** X22. With a local dataset [start] downloads nothing: the provider becomes
    ready on the dataset as found, whatever the dump would answer. *)
Theorem start_with_local_dataset_serves_it_as_found
    (world : Passport.World) (config : Passport.Config) (watch : bool)
    (p : Passport.Provider) (db : gmap string Passport.PassportScore) :
  Passport.state p = Passport.Empty ->
  Passport.localDataset world = Some db ->
  exists p',
    Passport.start world config watch p = (p', inr tt) /\
    forall a, Passport.getScoreByAddress a p' = inr (db !! a).
Proof.
  intros Hstate Hlocal. unfold Passport.start. rewrite Hstate, Hlocal.
  eexists. split; [reflexivity|]. intros a.
  destruct (becomeReady_db config watch
              (Passport.setState (Passport.Starting db) p) _ eq_refl) as [t Ht].
  unfold Passport.getScoreByAddress. by rewrite Ht.
Qed.

Lemma start_with_local_dataset_serves_it_as_found_witness :
  exists p',
    Passport.start PassportScenario.cached PassportScenario.config true Passport.fresh
      = (p', inr tt) /\
    forall a, Passport.getScoreByAddress a p' =
              inr (({[ Scenario.addressThree := PassportScenario.oldScore ]}
                     : gmap string Passport.PassportScore) !! a).
Proof.
  apply (start_with_local_dataset_serves_it_as_found PassportScenario.cached
           PassportScenario.config true Passport.fresh); reflexivity.
Defined.



(** X24. [stop] is final: once it has succeeded the provider is in the stopped
    state, where [start], a second [stop], both lookups and [poll] all throw
    and leave the provider as it is; it cannot be started again. *)
Theorem stopped_provider_cannot_be_used_again
    (p p' : Passport.Provider) :
  Passport.stop p = (p', inr tt) ->
  Passport.state p' = Passport.Stopped /\
  (forall world config watch,
     Passport.start world config watch p' =
     (p', inl (Passport.ServiceNotInEmptyState "stopped"))) /\
  Passport.stop p' = (p', inl Passport.ServiceNotStarted) /\
  (forall a, Passport.getScoreByAddress a p' = inl Passport.ServiceNotStarted) /\
  (forall addresses,
     Passport.getScoresByAddresses addresses p' = inl Passport.ServiceNotStarted) /\
  (forall world config,
     Passport.poll world config p' = (p', inl Passport.ServiceNotStarted)).
Proof.
  unfold Passport.stop. destruct (Passport.state p) as [|db|t db|] eqn:Hstate;
    try discriminate.
  intros H. inversion H; subst p'. clear H.
  assert (forall q, Passport.state (Passport.setState Passport.Stopped q) = Passport.Stopped)
    as Hstopped by reflexivity.
  unfold Passport.start, Passport.stop, Passport.getScoreByAddress,
    Passport.getScoresByAddresses, Passport.poll.
  rewrite Hstopped. repeat split; reflexivity.
Qed.

Lemma stopped_provider_cannot_be_used_again_witness :
  Passport.state (fst (Passport.stop PassportScenario.ready)) = Passport.Stopped /\
  (forall world config watch,
     Passport.start world config watch (fst (Passport.stop PassportScenario.ready)) =
     (fst (Passport.stop PassportScenario.ready),
      inl (Passport.ServiceNotInEmptyState "stopped"))) /\
  Passport.stop (fst (Passport.stop PassportScenario.ready)) =
    (fst (Passport.stop PassportScenario.ready), inl Passport.ServiceNotStarted) /\
  (forall a, Passport.getScoreByAddress a (fst (Passport.stop PassportScenario.ready))
             = inl Passport.ServiceNotStarted) /\
  (forall addresses,
     Passport.getScoresByAddresses addresses (fst (Passport.stop PassportScenario.ready))
     = inl Passport.ServiceNotStarted) /\
  (forall world config,
     Passport.poll world config (fst (Passport.stop PassportScenario.ready)) =
     (fst (Passport.stop PassportScenario.ready), inl Passport.ServiceNotStarted)).
Proof.
  apply (stopped_provider_cannot_be_used_again PassportScenario.ready). reflexivity.
Defined.

(** X25. A first [start] that finds no local dataset and cannot download the
    dump (the request is rejected or the body is empty) throws and leaves the
    provider in the starting state: from there [start] throws again, so do
    [stop] and the lookups, and the provider never becomes ready. *)
Theorem failed_first_start_leaves_the_provider_starting
    (world : Passport.World) (config : Passport.Config) (watch : bool)
    (p : Passport.Provider) :
  Passport.state p = Passport.Empty ->
  Passport.localDataset world = None ->
  (Passport.dump world = Passport.FetchRejected \/
   Passport.dump world = Passport.BodyNull) ->
  exists p' e,
    Passport.start world config watch p = (p', inl e) /\
    Passport.state p' = Passport.Starting ∅ /\
    (forall world' config' watch',
       Passport.start world' config' watch' p' =
       (p', inl (Passport.ServiceNotInEmptyState "starting"))) /\
    Passport.stop p' = (p', inl Passport.ServiceNotStarted) /\
    (forall a, Passport.getScoreByAddress a p' = inl Passport.ServiceNotStarted).
Proof.
  intros Hstate Hlocal Hdump.
  unfold Passport.start at 1, Passport.runFullUpdate. rewrite Hstate, Hlocal.
  cbn [Passport.state Passport.setState].
  assert (forall q, Passport.state (Passport.setState (Passport.Starting ∅) q)
                    = Passport.Starting ∅) as Hstarting by reflexivity.
  destruct Hdump as [-> | ->]; do 2 eexists; (split; [reflexivity|]);
    unfold Passport.start, Passport.stop, Passport.getScoreByAddress;
    rewrite Hstarting; repeat split; reflexivity.
Qed.

Lemma failed_first_start_leaves_the_provider_starting_witness :
  exists p' e,
    Passport.start PassportScenario.offline PassportScenario.config true Passport.fresh
      = (p', inl e) /\
    Passport.state p' = Passport.Starting ∅ /\
    (forall world' config' watch',
       Passport.start world' config' watch' p' =
       (p', inl (Passport.ServiceNotInEmptyState "starting"))) /\
    Passport.stop p' = (p', inl Passport.ServiceNotStarted) /\
    (forall a, Passport.getScoreByAddress a p' = inl Passport.ServiceNotStarted).
Proof.
  apply (failed_first_start_leaves_the_provider_starting PassportScenario.offline
           PassportScenario.config true Passport.fresh); try reflexivity.
  left. reflexivity.
Defined.

(** X26. [poll] schedules the next poll itself, with the default delay and
    without recording the timeout in the state. So after the first poll has
    run, [stop] clears only the timeout that has already fired: the provider
    is stopped with a poll still pending, after the default 30 minutes
    whatever delay was configured, and that poll throws when it fires. *)
Theorem stop_after_a_poll_leaves_a_poll_pending
    (world : Passport.World) (config : Passport.Config) (lines : list Passport.Line) :
  Passport.dump world = Passport.Body lines ->
  exists p1 p2 p3 p4,
    Passport.start world config true Passport.fresh = (p1, inr tt) /\
    Passport.fire world config 0 p1 = Some (p2, inr tt) /\
    Passport.stop p2 = (p3, inr tt) /\
    Passport.state p3 = Passport.Stopped /\
    Passport.pending p3 = [(1%nat, Passport.DEFAULT_DELAY_BETWEEN_FULL_UPDATES_MS)] /\
    Passport.fire world config 1 p3 = Some (p4, inl Passport.ServiceNotStarted).
Proof.
  intros Hdump.
  unfold Passport.start, Passport.runFullUpdate, Passport.fire, Passport.poll,
    Passport.runFullUpdate, Passport.stop, Passport.becomeReady.
  destruct (Passport.localDataset world) as [db|];
    cbn; rewrite ?Hdump; cbn; rewrite ?Hdump; cbn;
    do 4 eexists; repeat split; reflexivity.
Qed.

Lemma stop_after_a_poll_leaves_a_poll_pending_witness :
  exists p1 p2 p3 p4,
    Passport.start PassportScenario.online PassportScenario.config true Passport.fresh
      = (p1, inr tt) /\
    Passport.fire PassportScenario.online PassportScenario.config 0 p1 = Some (p2, inr tt) /\
    Passport.stop p2 = (p3, inr tt) /\
    Passport.state p3 = Passport.Stopped /\
    Passport.pending p3 = [(1%nat, Passport.DEFAULT_DELAY_BETWEEN_FULL_UPDATES_MS)] /\
    Passport.fire PassportScenario.online PassportScenario.config 1 p3
      = Some (p4, inl Passport.ServiceNotStarted).
Proof.
  apply (stop_after_a_poll_leaves_a_poll_pending PassportScenario.online
           PassportScenario.config PassportScenario.lines).
  reflexivity.
Defined.

(** X27. A poll whose download fails throws before it schedules the next one:
    a watching provider started on a local dataset stays ready on that
    dataset with no timeout pending, so it is never refreshed again. *)
Theorem failed_poll_ends_the_polling
    (world : Passport.World) (config : Passport.Config)
    (db : gmap string Passport.PassportScore) :
  Passport.localDataset world = Some db ->
  (Passport.dump world = Passport.FetchRejected \/
   Passport.dump world = Passport.BodyNull) ->
  exists p1 p2 e,
    Passport.start world config true Passport.fresh = (p1, inr tt) /\
    Passport.pending p1 =
      [(0%nat, default Passport.DEFAULT_DELAY_BETWEEN_FULL_UPDATES_MS
                       (Passport.delayBetweenFullUpdatesMs config))] /\
    Passport.fire world config 0 p1 = Some (p2, inl e) /\
    Passport.pending p2 = [] /\
    (forall a, Passport.getScoreByAddress a p2 = inr (db !! a)).
Proof.
  intros Hlocal Hdump.
  unfold Passport.start, Passport.fire, Passport.poll, Passport.runFullUpdate,
    Passport.becomeReady.
  rewrite Hlocal. cbn.
  destruct Hdump as [-> | ->]; do 3 eexists; repeat split; reflexivity.
Qed.

Lemma failed_poll_ends_the_polling_witness :
  exists p1 p2 e,
    Passport.start PassportScenario.cached PassportScenario.config true Passport.fresh
      = (p1, inr tt) /\
    Passport.pending p1 =
      [(0%nat, default Passport.DEFAULT_DELAY_BETWEEN_FULL_UPDATES_MS
                       (Passport.delayBetweenFullUpdatesMs PassportScenario.config))] /\
    Passport.fire PassportScenario.cached PassportScenario.config 0 p1 = Some (p2, inl e) /\
    Passport.pending p2 = [] /\
    (forall a, Passport.getScoreByAddress a p2 =
               inr (({[ Scenario.addressThree := PassportScenario.oldScore ]}
                       : gmap string Passport.PassportScore) !! a)).
Proof.
  apply (failed_poll_ends_the_polling PassportScenario.cached PassportScenario.config);
    [reflexivity|left; reflexivity].
Defined.

Section ScoresMap.
Import Passport.

Lemma mapSet_In k0 v0 m k v :
  In (k, v) (mapSet k0 v0 m) -> (k, v) = (k0, v0) \/ In (k, v) m.
Proof.
  induction m as [|[k' v'] m IH]; cbn [mapSet].
  - intros [H|[]]; left; congruence.
  - destruct (String.eqb k' k0).
    + intros [H|H]; [left; congruence|right; by right].
    + intros [H|H]; [right; by left|].
      destruct (IH H) as [?|?]; [by left|right; by right].
Qed.

Lemma mapSet_keys k0 v0 m k :
  In k (map fst (mapSet k0 v0 m)) -> k = k0 \/ In k (map fst m).
Proof.
  induction m as [|[k' v'] m IH]; cbn [mapSet map fst].
  - intros [H|[]]; by left.
  - destruct (String.eqb_spec k' k0) as [->|Hne]; cbn [map fst].
    + intros [H|H]; [by left|right; by right].
    + intros [H|H]; [right; by left|].
      destruct (IH H) as [?|?]; [by left|right; by right].
Qed.

Lemma mapSet_NoDup k0 v0 m :
  List.NoDup (map fst m) -> List.NoDup (map fst (mapSet k0 v0 m)).
Proof.
  induction m as [|[k' v'] m IH]; cbn [mapSet map fst]; intros Hnd.
  - constructor; [intros []|constructor].
  - inversion Hnd as [|? ? Hnotin Hnd']; subst.
    destruct (String.eqb_spec k' k0) as [->|Hne]; cbn [map fst].
    + by constructor.
    + constructor; [|by apply IH].
      intros Hin. apply mapSet_keys in Hin as [?|?]; [congruence|contradiction].
Qed.

Lemma mapSet_length k0 v0 m : (length (mapSet k0 v0 m) <= S (length m))%nat.
Proof.
  induction m as [|[k' v'] m IH]; cbn [mapSet length]; [lia|].
  destruct (String.eqb k' k0); cbn [length]; lia.
Qed.

Lemma newMap_from entries : forall m,
  let result := fold_left (fun m e => mapSet (fst e) (snd e) m) entries m in
  (forall k v, In (k, v) result -> In (k, v) entries \/ In (k, v) m) /\
  (List.NoDup (map fst m) -> List.NoDup (map fst result)) /\
  (length result <= length entries + length m)%nat.
Proof.
  induction entries as [|[k0 v0] entries IH]; intros m; cbn [fold_left].
  - repeat split; [by right|auto|cbn; lia].
  - destruct (IH (mapSet k0 v0 m)) as [Hin [Hnd Hlen]]. cbn [fst snd].
    split; [|split].
    + intros k v H. destruct (Hin k v H) as [?|Hm]; [left; by right|].
      apply mapSet_In in Hm as [->|?]; [left; by left|by right].
    + intros Hm. by apply Hnd, mapSet_NoDup.
    + pose proof (mapSet_length k0 v0 m). cbn [length]. lia.
Qed.

Lemma unique_subset addresses : forall seen a,
  In a (unique seen addresses) -> In a addresses.
Proof.
  induction addresses as [|x addresses IH]; intros seen a; cbn [unique]; [auto|].
  case_bool_decide as Hseen; [intros Hin; right; eauto|].
  intros [->|Hin]; [by left|right; eauto].
Qed.

Lemma unique_length addresses : forall seen,
  (length (unique seen addresses) <= length addresses)%nat.
Proof.
  induction addresses as [|x addresses IH]; intros seen; cbn [unique length]; [lia|].
  case_bool_decide as Hseen; cbn [length];
    [specialize (IH seen)|specialize (IH (x :: seen))]; lia.
Qed.

Lemma omap_length {A B} (f : A -> option B) (l : list A) :
  (length (omap f l) <= length l)%nat.
Proof.
  induction l as [|x l IH]; cbn; [lia|]. destruct (f x); cbn; lia.
Qed.
End ScoresMap.

(** X28. The map [getScoresByAddresses] returns is keyed by the address each
    score carries, as the dump spelled it, not by the address asked for:
    every entry is a score stored under one of the requested addresses, under
    its own [address] as key; no key occurs twice, requested addresses
    without a score have no entry, and there are at most as many entries as
    addresses. *)
Theorem scores_map_is_keyed_by_the_stored_address
    (p : Passport.Provider) (t : option nat)
    (db : gmap string Passport.PassportScore) (addresses : list string) :
  Passport.state p = Passport.Ready t db ->
  exists scores,
    Passport.getScoresByAddresses addresses p = inr scores /\
    (forall k v, In (k, v) scores ->
       k = Passport.address v /\ exists a, In a addresses /\ db !! a = Some v) /\
    List.NoDup (map fst scores) /\
    (length scores <= length addresses)%nat.
Proof.
  intros Hstate. unfold Passport.getScoresByAddresses. rewrite Hstate.
  eexists. split; [reflexivity|].
  unfold Passport.newMap.
  set (found := omap Datatypes.id
                  (map (fun a => db !! a) (Passport.unique [] addresses))).
  destruct (newMap_from (map (fun record => (Passport.address record, record)) found) [])
    as [Hin [Hnd Hlen]].
  assert (forall v, In v found -> exists a, In a addresses /\ db !! a = Some v) as Hfound.
  { intros v Hv. apply list_elem_of_In in Hv. unfold found in Hv.
    apply list_elem_of_omap in Hv as [o [Ho Hid]]. cbn in Hid. subst o.
    apply list_elem_of_In, in_map_iff in Ho as [a [Ha Hin']].
    exists a. split; [|assumption]. eapply unique_subset; eassumption. }
  split; [|split].
  - intros k v H. destruct (Hin k v H) as [Hentry|[]].
    apply in_map_iff in Hentry as [record [Heq Hrecord]].
    inversion Heq; subst. split; [reflexivity|]. by apply Hfound.
  - apply Hnd. constructor.
  - etransitivity; [exact Hlen|]. rewrite length_map. cbn [length].
    rewrite Nat.add_0_r.
    etransitivity; [apply omap_length|].
    rewrite length_map. apply unique_length.
Qed.

Lemma scores_map_is_keyed_by_the_stored_address_witness :
  exists scores,
    Passport.getScoresByAddresses [Scenario.addressThree; Scenario.addressTwo]
      PassportScenario.ready = inr scores /\
    (forall k v, In (k, v) scores ->
       k = Passport.address v /\
       exists a, In a [Scenario.addressThree; Scenario.addressTwo] /\
         ({[ Scenario.addressThree := PassportScenario.oldScore ]}
            : gmap string Passport.PassportScore) !! a = Some v) /\
    List.NoDup (map fst scores) /\
    (length scores <= 2)%nat.
Proof.
  apply (scores_map_is_keyed_by_the_stored_address PassportScenario.ready None
           {[ Scenario.addressThree := PassportScenario.oldScore ]}
           [Scenario.addressThree; Scenario.addressTwo]).
  reflexivity.
Defined.
